(** * AI Chat Assistant: the rendering and history pipeline of [index.tsx]

    A shallow embedding of the chat client's controller, segmenter and
    history replay, and the properties its specification states about them.

    Conventions of the model.
    - A JavaScript string is a [string]: a sequence of code units, here the
      code units 0..255 (Latin-1).  [trim], [toLowerCase], [\s] and [\w] are
      given on that range as ECMAScript defines them.
    - A regular expression literal is a term of [Regex]; it is run by the
      backtracking matcher of ECMA-262 (22.2.2): a matcher takes a state and a
      continuation and tries its alternatives in priority order.
    - The DOM, [localStorage], the clock and the two AI services are the
      outside world: the page is a record [App], and what the services answer
      is an argument of the transition that resumes the pending [await]. *)

From Stdlib Require Import Bool Arith PeanoNat ZArith Lia List Ascii String.
From Stdlib Require Import DecimalString.
Import ListNotations.
Local Open Scope string_scope.
Local Open Scope list_scope.
Local Open Scope nat_scope.

(* ================================================================== *)
(** ** JavaScript strings *)
(* ================================================================== *)

Module JS.

Definition code (c : ascii) : nat := nat_of_ascii c.

(** WhiteSpace and LineTerminator code units below 256: TAB, LF, VT, FF, CR,
    SP and NBSP.  This is both the class [\s] and what [trim] removes. *)
Definition isWhiteSpace (c : ascii) : bool :=
  let n := code c in
  ((9 <=? n) && (n <=? 13)) || (n =? 32) || (n =? 160).

(** The class [\w]: [A-Za-z0-9_]. *)
Definition isWordChar (c : ascii) : bool :=
  let n := code c in
  ((65 <=? n) && (n <=? 90)) || ((97 <=? n) && (n <=? 122))
  || ((48 <=? n) && (n <=? 57)) || (n =? 95).

(** [String.prototype.toLowerCase] on one code unit: A-Z, and the Latin-1
    capitals U+00C0..U+00DE except the multiplication sign U+00D7. *)
Definition lowerChar (c : ascii) : ascii :=
  let n := code c in
  if ((65 <=? n) && (n <=? 90))
     || ((192 <=? n) && (n <=? 222) && negb (n =? 215))
  then ascii_of_nat (n + 32) else c.

(** [Canonicalize] of a case-insensitive regular expression (no [u] flag):
    the upper-case code unit, when it is a single code unit of the range. *)
Definition canonicalize (c : ascii) : ascii :=
  let n := code c in
  if ((97 <=? n) && (n <=? 122))
     || ((224 <=? n) && (n <=? 254) && negb (n =? 247))
  then ascii_of_nat (n - 32) else c.

Fixpoint toLowerCase (s : string) : string :=
  match s with
  | EmptyString => EmptyString
  | String c s' => String (lowerChar c) (toLowerCase s')
  end.

Fixpoint trimStart (s : string) : string :=
  match s with
  | EmptyString => EmptyString
  | String c s' => if isWhiteSpace c then trimStart s' else s
  end.

Fixpoint trimEnd (s : string) : string :=
  match s with
  | EmptyString => EmptyString
  | String c s' =>
      match trimEnd s' with
      | EmptyString => if isWhiteSpace c then EmptyString else String c EmptyString
      | t => String c t
      end
  end.

Definition trim (s : string) : string := trimEnd (trimStart s).

(** [s.startsWith(k)]. *)
Definition startsWith (s k : string) : bool := String.prefix k s.

Fixpoint drop (n : nat) (s : string) : string :=
  match n, s with
  | 0, _ => s
  | S n', String _ s' => drop n' s'
  | S _, EmptyString => EmptyString
  end.

Fixpoint take (n : nat) (s : string) : string :=
  match n, s with
  | 0, _ => EmptyString
  | S n', String c s' => String c (take n' s')
  | S _, EmptyString => EmptyString
  end.

(** [s.substring(a, b)]: both ends clamped to the length, swapped when
    [a > b]; [substringFrom] is the one-argument form. *)
Definition substring (a b : nat) (s : string) : string :=
  let lo := Nat.min a b in
  let hi := Nat.max a b in
  take (hi - lo) (drop lo s).

Definition substringFrom (a : nat) (s : string) : string := drop a s.

(** Truthiness of a string: the empty string is falsy. *)
Definition truthy (s : string) : bool :=
  match s with EmptyString => false | _ => true end.

(** [a || b] on strings. *)
Definition orElse (a b : string) : string := if truthy a then a else b.

(** A string of whitespace only. *)
Fixpoint blank (s : string) : bool :=
  match s with
  | EmptyString => true
  | String c s' => isWhiteSpace c && blank s'
  end.

(** Every code unit of a string is in the class. *)
Fixpoint every (p : ascii -> bool) (s : string) : bool :=
  match s with
  | EmptyString => true
  | String c s' => p c && every p s'
  end.

End JS.

(** An optional field ([undefined] is [None]): whether it is truthy, and
    the string it holds ([undefined] counts as empty where [||] follows). *)
Definition truthyOpt (o : option string) : bool :=
  match o with Some s => JS.truthy s | None => false end.

Definition valueOf (o : option string) : string :=
  match o with Some s => s | None => EmptyString end.

(* ================================================================== *)
(** ** Regular expressions (ECMA-262, 22.2.2) *)
(* ================================================================== *)

Module RegExp.

(** The pattern syntax the two literals of the program use. *)
Inductive Regex : Type :=
| Chr (c : ascii)                        (* a pattern character *)
| Class (p : ascii -> bool)              (* \w, \s, [^<], [\s\S] *)
| Cat (r1 r2 : Regex)                    (* r1 r2 *)
| Star (greedy : bool) (r : Regex)       (* r* and r*? *)
| Quest (greedy : bool) (r : Regex)      (* r? and r?? *)
| Grp (n : nat) (r : Regex)              (* the n-th capturing group *)
| NonCap (r : Regex)                     (* (?:r) *)
| NegAhead (r : Regex)                   (* (?!r) *)
| WordB                                  (* \b *)
| Eps.

(** A match state: [endIndex] code units are consumed, [rest] is the input
    from [endIndex] on, [prev] the code unit before it, and [captures] the
    spans of the groups closed so far, the latest first. *)
Record MState : Type := mkMState {
  endIndex : nat;
  prev : option ascii;
  rest : string;
  captures : list (nat * (nat * nat))
}.

Definition Continuation : Type := MState -> option MState.
Definition Matcher : Type := MState -> Continuation -> option MState.

Definition orTry (a : option MState) (b : unit -> option MState) : option MState :=
  match a with Some r => Some r | None => b tt end.

(** CharacterSetMatcher: one code unit of the class. *)
Definition charMatcher (p : ascii -> bool) : Matcher :=
  fun x c =>
    match rest x with
    | EmptyString => None
    | String a s' =>
        if p a
        then c (mkMState (S (endIndex x)) (Some a) s' (captures x))
        else None
    end.

(** RepeatMatcher for [min = 0], [max = infinity].  An iteration that
    consumes nothing is refused (step 2.b of RepeatMatcher), so there are at
    most [String.length (rest x)] iterations: [n] counts them down, and
    allowing more changes nothing ([RegExpFacts.repeatMatcher_stable]). *)
Fixpoint repeatMatcher (n : nat) (m : Matcher) (greedy : bool) : Matcher :=
  fun x c =>
    match n with
    | 0 => c x
    | S n' =>
        let d : Continuation := fun y =>
          if endIndex y =? endIndex x then None
          else repeatMatcher n' m greedy y c in
        if greedy then orTry (m x d) (fun _ => c x)
        else orTry (c x) (fun _ => m x d)
    end.

Definition isWordAt (o : option ascii) : bool :=
  match o with Some a => JS.isWordChar a | None => false end.

Definition next (x : MState) : option ascii :=
  match rest x with EmptyString => None | String a _ => Some a end.

Fixpoint compile (ignoreCase : bool) (r : Regex) : Matcher :=
  match r with
  | Chr ch =>
      charMatcher (fun a =>
        if ignoreCase
        then Ascii.eqb (JS.canonicalize a) (JS.canonicalize ch)
        else Ascii.eqb a ch)
  | Class p => charMatcher p
  | Cat r1 r2 =>
      fun x c => compile ignoreCase r1 x (fun y => compile ignoreCase r2 y c)
  | Star greedy r1 =>
      fun x c =>
        repeatMatcher (String.length (rest x)) (compile ignoreCase r1) greedy x c
  | Quest greedy r1 =>
      fun x c =>
        let d : Continuation := fun y =>
          if endIndex y =? endIndex x then None else c y in
        if greedy then orTry (compile ignoreCase r1 x d) (fun _ => c x)
        else orTry (c x) (fun _ => compile ignoreCase r1 x d)
  | Grp n r1 =>
      fun x c =>
        compile ignoreCase r1 x (fun y =>
          c (mkMState (endIndex y) (prev y) (rest y)
               ((n, (endIndex x, endIndex y)) :: captures y)))
  | NonCap r1 => compile ignoreCase r1
  | NegAhead r1 =>
      fun x c =>
        match compile ignoreCase r1 x (fun y => Some y) with
        | Some _ => None
        | None => c x
        end
  | WordB =>
      fun x c =>
        if xorb (isWordAt (prev x)) (isWordAt (next x)) then c x else None
  | Eps => fun x c => c x
  end.

(** The characters of a literal, in sequence. *)
Fixpoint lit (s : string) : Regex :=
  match s with
  | EmptyString => Eps
  | String c s' => Cat (Chr c) (lit s')
  end.

(** A successful match: where it starts, the state it ends in. *)
Record Match : Type := mkMatch {
  index : nat;
  final : MState
}.

Definition lastIndexOf (m : Match) : nat := endIndex (final m).

(** The span of group [n], [None] when the group did not take part. *)
Fixpoint lookup (n : nat) (l : list (nat * (nat * nat))) : option (nat * nat) :=
  match l with
  | [] => None
  | (k, sp) :: l' => if k =? n then Some sp else lookup n l'
  end.

Definition group (input : string) (m : Match) (n : nat) : option string :=
  match lookup n (captures (final m)) with
  | Some (a, b) => Some (JS.substring a b input)
  | None => None
  end.

(** The text of the whole match, [match[0]]. *)
Definition matched (input : string) (m : Match) : string :=
  JS.substring (index m) (lastIndexOf m) input.

(** The search loop of RegExpBuiltinExec: try at [i], then one further. *)
Fixpoint search (m : Matcher) (i : nat) (p : option ascii) (s : string)
  : option Match :=
  match m (mkMState i p s []) (fun y => Some y) with
  | Some y => Some (mkMatch i y)
  | None =>
      match s with
      | EmptyString => None
      | String a s' => search m (S i) (Some a) s'
      end
  end.

Fixpoint charBefore (i : nat) (s : string) : option ascii :=
  match i, s with
  | 0, _ => None
  | 1, String a _ => Some a
  | S i', String _ s' => charBefore i' s'
  | S _, EmptyString => None
  end.

(** [regex.exec(input)] of a global regular expression whose [lastIndex] is
    [lastIndex]: the leftmost match at or after it. *)
Definition exec (ignoreCase : bool) (r : Regex) (input : string) (lastIndex : nat)
  : option Match :=
  if String.length input <? lastIndex then None
  else search (compile ignoreCase r) lastIndex (charBefore lastIndex input)
         (JS.drop lastIndex input).

(** *** What a pattern matches *)

Import JS.
Local Open Scope string_scope.
Local Open Scope nat_scope.

Definition chrEq (ignoreCase : bool) (a ch : ascii) : bool :=
  if ignoreCase then Ascii.eqb (canonicalize a) (canonicalize ch) else Ascii.eqb a ch.

Definition advance (x : MState) (a : ascii) (s' : string) : MState :=
  mkMState (S (endIndex x)) (Some a) s' (captures x).

Definition close (n : nat) (x y : MState) : MState :=
  mkMState (endIndex y) (prev y) (rest y) ((n, (endIndex x, endIndex y)) :: captures y).

(** [Span i r x y]: the pattern [r] can take the matcher from state [x] to
    state [y].  It reads a pattern as the set of its possible matches and
    leaves out the order in which the matcher tries them. *)
Inductive Span (i : bool) : Regex -> MState -> MState -> Prop :=
| SpanChr ch x a s' :
    rest x = String a s' -> chrEq i a ch = true ->
    Span i (Chr ch) x (advance x a s')
| SpanClass p x a s' :
    rest x = String a s' -> p a = true ->
    Span i (Class p) x (advance x a s')
| SpanCat r1 r2 x y z :
    Span i r1 x y -> Span i r2 y z -> Span i (Cat r1 r2) x z
| SpanStarNil g r x : Span i (Star g r) x x
| SpanStarCons g r x y z :
    Span i r x y -> Span i (Star g r) y z -> Span i (Star g r) x z
| SpanQuestNil g r x : Span i (Quest g r) x x
| SpanQuestOne g r x y : Span i r x y -> Span i (Quest g r) x y
| SpanGrp n r x y : Span i r x y -> Span i (Grp n r) x (close n x y)
| SpanNonCap r x y : Span i r x y -> Span i (NonCap r) x y
| SpanNegAhead r x : Span i (NegAhead r) x x
| SpanWordB x :
    xorb (isWordAt (prev x)) (isWordAt (next x)) = true -> Span i WordB x x
| SpanEps x : Span i Eps x x.

(** A match consumes a piece [w] of the input: the text in front of [rest]. *)
Definition consumes (x y : MState) (w : string) : Prop :=
  rest x = w ++ rest y /\ endIndex y = endIndex x + String.length w.

Definition extends (x y : MState) : Prop := exists w, consumes x y w.

(** The state after the code units of [w] have been taken one by one. *)
Fixpoint advanceBy (x : MState) (w : string) : MState :=
  match w with
  | EmptyString => x
  | String a w' => advanceBy (advance x a (drop 1 (rest x))) w'
  end.

(** The state of the matcher agrees with the input it runs on. *)
Definition synced (input : string) (x : MState) : Prop :=
  rest x = drop (endIndex x) input.

End RegExp.

(* ================================================================== *)
(** ** The content segmenter: [formatAndDisplayAIResponse] *)
(* ================================================================== *)

(** What [formatAndDisplayAIResponse] appends to the message node: a
    [div.markdown-content] whose [innerHTML] is [parseMarkdown text], or a
    [pre.language-L] holding a [code.language-L] with the content as its text
    and a copy button. *)
Inductive Segment : Type :=
| Prose (text : string)
| Code (language content : string).

Module Segmenter.

Import RegExp.

Definition backtick : ascii := "`"%char.
Definition newline : ascii := "010"%char.
Definition nl : string := String newline EmptyString.
Definition fence : string := "```".

(** The literal [codeBlockRegex], flag [g]: three backticks, group 1 [\w*],
    [\s*], [\n?], group 2 [[\s\S]*?] (lazy), [\n?], [\s*], three backticks. *)
Definition codeBlockRegex : Regex :=
  Cat (lit fence)
 (Cat (Grp 1 (Star true (Class JS.isWordChar)))
 (Cat (Star true (Class JS.isWhiteSpace))
 (Cat (Quest true (Chr newline))
 (Cat (Grp 2 (Star false (Class (fun _ => true))))
 (Cat (Quest true (Chr newline))
 (Cat (Star true (Class JS.isWhiteSpace))
      (lit fence))))))).

(** The part of the pattern after the tag. *)
Definition afterTag : Regex :=
  Cat (Star true (Class JS.isWhiteSpace))
 (Cat (Quest true (Chr newline))
 (Cat (Grp 2 (Star false (Class (fun _ => true))))
 (Cat (Quest true (Chr newline))
 (Cat (Star true (Class JS.isWhiteSpace))
      (lit fence))))).

Definition codeBlockRegex_exec (fullText : string) (lastIndex : nat) : option Match :=
  exec false codeBlockRegex fullText lastIndex.

(** The locals of the function that the loop changes. *)
Record Locals : Type := mkLocals {
  lastIndex : nat;
  children : list Segment;      (* messageDiv's children, in order *)
  contentAdded : bool
}.

(** [match[1]?.trim() || 'plaintext'] *)
Definition languageOf (fullText : string) (m : Match) : string :=
  match group fullText m 1 with
  | Some g => JS.orElse (JS.trim g) "plaintext"
  | None => "plaintext"
  end.

(** [match[2].trim()] *)
Definition codeContentOf (fullText : string) (m : Match) : string :=
  match group fullText m 2 with
  | Some g => JS.trim g
  | None => EmptyString
  end.

(** The text before a match, lines 601-610. *)
Definition appendTextBefore (fullText : string) (m : Match) (l : Locals) : Locals :=
  if lastIndex l <? index m then
    let textContent := JS.trim (JS.substring (lastIndex l) (index m) fullText) in
    if JS.truthy textContent
    then mkLocals (lastIndex l) (children l ++ [Prose textContent]) true
    else l
  else l.

(** The code block of a match, lines 612-647. *)
Definition appendCodeBlock (fullText : string) (m : Match) (l : Locals) : Locals :=
  let language := languageOf fullText m in
  let codeContent := codeContentOf fullText m in
  if JS.truthy codeContent
  then mkLocals (lastIndex l) (children l ++ [Code language codeContent]) true
  else l.

(** One turn of the [while] loop, lines 600-649. *)
Definition loopBody (fullText : string) (m : Match) (l : Locals) : Locals :=
  let l1 := appendTextBefore fullText m l in
  let l2 := appendCodeBlock fullText m l1 in
  mkLocals (lastIndexOf m) (children l2) (contentAdded l2).

(** [while ((match = codeBlockRegex.exec(fullText)) !== null) { ... }].
    [fuel] bounds the number of turns; [None] is a loop that was cut short
    (it is not: [SegmenterFacts.formatAndDisplayAIResponse_pieces]). *)
Fixpoint whileLoop (fuel : nat) (fullText : string) (l : Locals) : option Locals :=
  match codeBlockRegex_exec fullText (lastIndex l) with
  | None => Some l
  | Some m =>
      match fuel with
      | 0 => None
      | S fuel' => whileLoop fuel' fullText (loopBody fullText m l)
      end
  end.

(** The text after the last match, lines 651-660. *)
Definition appendTextAfter (fullText : string) (l : Locals) : Locals :=
  if lastIndex l <? String.length fullText then
    let textContent := JS.trim (JS.substringFrom (lastIndex l) fullText) in
    if JS.truthy textContent
    then mkLocals (lastIndex l) (children l ++ [Prose textContent]) true
    else l
  else l.

Definition emptyResponseMarkup : string := "<i>[AI gave an empty response]</i>".

(** The fallback, lines 662-668. *)
Definition appendFallback (fullText : string) (l : Locals) : Locals :=
  if negb (contentAdded l) then
    let trimmedFullText := JS.trim fullText in
    let shown :=
      if String.eqb trimmedFullText EmptyString
      then emptyResponseMarkup else trimmedFullText in
    mkLocals (lastIndex l) (children l ++ [Prose shown]) (contentAdded l)
  else l.

(** [formatAndDisplayAIResponse(fullText, messageDiv)]: the children of
    [messageDiv] when the call returns ([messageDiv] is emptied first). *)
Definition formatAndDisplayAIResponse (fullText : string) : option (list Segment) :=
  match whileLoop (String.length fullText) fullText (mkLocals 0 [] false) with
  | None => None
  | Some l => Some (children (appendFallback fullText (appendTextAfter fullText l)))
  end.

(** *** Regions and pieces *)

Import JS.
Local Open Scope string_scope.
Local Open Scope nat_scope.

(** The shape of a fenced region: the opening marker, the tag, whitespace,
    the body, whitespace, the closing marker. *)
Record Region : Type := mkRegion {
  tag : string;
  gap1 : string;
  body : string;
  gap2 : string
}.

Definition regionText (g : Region) : string :=
  fence ++ tag g ++ gap1 g ++ body g ++ gap2 g ++ fence.

Definition wellFormed (g : Region) : Prop :=
  every isWordChar (tag g) = true /\ blank (gap1 g) = true /\ blank (gap2 g) = true.

(** The pieces the scan cuts the text into: the text between two matches,
    and the matches. *)
Inductive Piece : Type :=
| Gap (text : string)
| Fenced (m : Match).

Fixpoint pieces (fuel : nat) (fullText : string) (from : nat) : list Piece :=
  match codeBlockRegex_exec fullText from with
  | None => [Gap (substringFrom from fullText)]
  | Some m =>
      match fuel with
      | 0 => []
      | S fuel' =>
          Gap (substring from (index m) fullText) :: Fenced m
            :: pieces fuel' fullText (lastIndexOf m)
      end
  end.

Definition piecesOf (fullText : string) : list Piece :=
  pieces (String.length fullText) fullText 0.

Definition pieceText (fullText : string) (p : Piece) : string :=
  match p with
  | Gap text => text
  | Fenced m => matched fullText m
  end.

Fixpoint concatText (fullText : string) (ps : list Piece) : string :=
  match ps with
  | [] => ""
  | p :: ps' => pieceText fullText p ++ concatText fullText ps'
  end.

(** What a piece shows as: its trimmed text, when there is any. *)
Definition pieceSegments (fullText : string) (p : Piece) : list Segment :=
  match p with
  | Gap text =>
      if truthy (trim text) then [Prose (trim text)] else []
  | Fenced m =>
      if truthy (codeContentOf fullText m)
      then [Code (languageOf fullText m) (codeContentOf fullText m)]
      else []
  end.

Definition isNil {A : Type} (l : list A) : bool :=
  match l with [] => true | _ => false end.

Definition fallbackText (fullText : string) : string :=
  if String.eqb (trim fullText) "" then emptyResponseMarkup else trim fullText.

(** What the function shows, from the pieces. *)
Definition shown (fullText : string) : list Segment :=
  let segments := flat_map (pieceSegments fullText) (piecesOf fullText) in
  if isNil segments then [Prose (fallbackText fullText)] else segments.

End Segmenter.

(* ================================================================== *)
(** ** The segmenter as the specification words it *)
(* ================================================================== *)

Module SegmenterSpec.

Import JS RegExp Segmenter.
Local Open Scope string_scope.
Local Open Scope nat_scope.









(** The declared tag of a match, and the text between the tag and the
    closing marker. *)
Definition declaredTag (fullText : string) (m : Match) : string :=
  valueOf (group fullText m 1).

Definition fencedText (fullText : string) (m : Match) : string :=
  substring (index m + 3 + String.length (declaredTag fullText m))
            (lastIndexOf m - 3) fullText.

(** Whether a text begins with a word character. *)
Definition startsWithWord (s : string) : bool :=
  match s with
  | String a _ => isWordChar a
  | EmptyString => false
  end.




Definition ex_spec : string :=
  "Here:" ++ nl ++ "```js" ++ nl ++ "console.log(1)" ++ nl ++ "```" ++ nl ++ "done".



End SegmenterSpec.

(* ================================================================== *)
(** ** Markdown rendering: [parseMarkdown] *)
(* ================================================================== *)

Module Markdown.

Import RegExp.

Definition notLt (c : ascii) : bool := negb (Ascii.eqb c "<"%char).

(** The literal of [parseMarkdown], flags [g] and [i]: ["<script"], [\b],
    [[^<]*], then any number of [(?!</script>)<[^<]*], then ["</script>"]. *)
Definition scriptRegex : Regex :=
  Cat (lit "<script")
 (Cat WordB
 (Cat (Star true (Class notLt))
 (Cat (Star true (NonCap (Cat (NegAhead (lit "</script>"))
                         (Cat (Chr "<"%char) (Star true (Class notLt))))))
      (lit "</script>")))).

(** [text.replace(scriptRegex, '')] from position [pos] on: what lies
    between the matches.  [fuel] bounds the number of matches; [None] is a
    scan that was cut short (it is not: [MarkdownFacts.replaceFrom_total]). *)
Fixpoint replaceFrom (fuel : nat) (text : string) (pos : nat) : option string :=
  match exec true scriptRegex text pos with
  | None => Some (JS.substringFrom pos text)
  | Some m =>
      match fuel with
      | 0 => None
      | S fuel' =>
          match replaceFrom fuel' text (lastIndexOf m) with
          | Some tail => Some (JS.substring pos (index m) text ++ tail)%string
          | None => None
          end
      end
  end.

Definition removeScripts (text : string) : option string :=
  replaceFrom (String.length text) text 0.

Definition nested_script : string := "<scr<script></script>ipt>alert(1)</script>".
Definition script_block : string := "<script>alert(1)</script>".

Section Marked.

(** [marked.parse], the external converter: [None] when it throws. *)
Variable marked_parse : string -> option string.

(** [parseMarkdown(text)], lines 339-347. *)
Definition parseMarkdown (text : string) : string :=
  match removeScripts text with
  | Some sanitizedText =>
      match marked_parse sanitizedText with
      | Some html => html
      | None => text                       (* catch (e) { return text; } *)
      end
  | None => text
  end.

End Marked.

End Markdown.

(* ================================================================== *)
(** ** Messages, the page and the store *)
(* ================================================================== *)

Inductive Role : Type := user | model.

(** [interface StoredMessage], lines 365-373.  An optional field is an
    [option]; [isError] is [false] where the source leaves it out. *)
Record StoredMessage : Type := mkMessage {
  id : string;
  role : Role;
  textContent : option string;
  imageUrl : option string;
  altText : option string;
  isError : bool;
  timestamp : Z
}.

(** An entry of the history handed to [ai.chats.create]:
    [{ role, parts: [{ text }] }]. *)
Record Content : Type := mkContent {
  contentRole : Role;
  contentText : string
}.

(** The children a message node can have.  [innerHTML] is the markup the
    node was given. *)
Inductive Element : Type :=
| MarkdownContent (errorText : bool) (innerHTML : string)
| Pre (language content : string)
| Img (src alt : string).

(** A [div.message]: [data-message-id], the role class, the class
    [message-error], the children. *)
Record MessageDiv : Type := mkDiv {
  dataMessageId : string;
  roleClass : Role;
  messageError : bool;
  childNodes : list Element
}.

(** A node of the page is known by the reference [createElement] gave it. *)
Definition NodeRef : Type := nat.

(** The page: the item of [localStorage] under [CHAT_HISTORY_KEY] ([None]
    when absent), the children of [chatContainer], the input and the button,
    the status line ([None] when hidden), the history the chat session was
    created with, and how often the clock was read. *)
Record App : Type := mkApp {
  localStorage : option (list StoredMessage);
  chatContainer : list (NodeRef * MessageDiv);
  nextRef : NodeRef;
  messageInput_value : string;
  messageInput_disabled : bool;
  sendButton_disabled : bool;
  statusMessage : option string;
  ariaBusy : bool;
  chat : option (list Content);
  clock : nat
}.

(** What a rejected promise or a [throw] carries: an [Error] with its
    message, or some other value. *)
Inductive Thrown : Type :=
| ErrorObject (message : string)
| OtherValue.

(** The response of [ai.models.generateImages], as far as it is read:
    [generatedImages?: { image?: { imageBytes?: string } }[]]. *)
Record GeneratedImage : Type := mkGeneratedImage {
  image : option (option string)           (* image?.imageBytes *)
}.

Record GenerateImagesResponse : Type := mkResponse {
  generatedImages : option (list GeneratedImage)
}.

(** The places where [handleSendMessage] waits, with the locals that are
    live there: [await chat.sendMessageStream] (line 544), the next chunk of
    [for await] (line 548), [await ai.models.generateImages] (line 691). *)
Inductive Pending : Type :=
| AwaitSendMessageStream (aiMessageBubble : NodeRef) (text : string)
| AwaitNextChunk (aiMessageBubble : NodeRef) (aiResponseText : string)
    (firstChunkReceived : bool)
| AwaitGenerateImages (aiMessageBubble : NodeRef) (prompt : string).

(** How an awaited promise settles. *)
Inductive Settled : Type :=
| StreamOpened
| Chunk (text : option string)             (* chunk.text *)
| StreamEnd
| ImagesResponse (response : GenerateImagesResponse)
| Rejected (error : Thrown).

(** How a call ends: it returns, or it throws. *)
Inductive Completion : Type :=
| Normal
| Throws (error : Thrown).

(** The state monad of the page. *)
Definition M (A : Type) : Type := App -> A * App.

Definition ret {A : Type} (a : A) : M A := fun s => (a, s).

Definition bind {A B : Type} (m : M A) (k : A -> M B) : M B :=
  fun s => let (a, s') := m s in k a s'.

Declare Scope page_scope.
Delimit Scope page_scope with page.
Notation "x <- m ;; k" := (bind m (fun x => k))
  (at level 61, m at next level, right associativity) : page_scope.
Notation "m ;; k" := (bind m (fun _ => k))
  (at level 61, right associativity) : page_scope.

Definition get : M App := fun s => (s, s).
Definition modify (f : App -> App) : M unit := fun s => (tt, f s).
Definition exec_ {A : Type} (m : M A) (s : App) : App := snd (m s).

Definition set_localStorage (v : option (list StoredMessage)) (a : App) : App :=
  mkApp v (chatContainer a) (nextRef a) (messageInput_value a)
    (messageInput_disabled a) (sendButton_disabled a) (statusMessage a)
    (ariaBusy a) (chat a) (clock a).

Definition set_chatContainer (v : list (NodeRef * MessageDiv)) (a : App) : App :=
  mkApp (localStorage a) v (nextRef a) (messageInput_value a)
    (messageInput_disabled a) (sendButton_disabled a) (statusMessage a)
    (ariaBusy a) (chat a) (clock a).

Definition set_nextRef (v : NodeRef) (a : App) : App :=
  mkApp (localStorage a) (chatContainer a) v (messageInput_value a)
    (messageInput_disabled a) (sendButton_disabled a) (statusMessage a)
    (ariaBusy a) (chat a) (clock a).

Definition set_messageInput_value (v : string) (a : App) : App :=
  mkApp (localStorage a) (chatContainer a) (nextRef a) v
    (messageInput_disabled a) (sendButton_disabled a) (statusMessage a)
    (ariaBusy a) (chat a) (clock a).

Definition set_loading (disabled : bool) (status : option string) (a : App) : App :=
  mkApp (localStorage a) (chatContainer a) (nextRef a) (messageInput_value a)
    disabled disabled status disabled (chat a) (clock a).

Definition set_chat (v : option (list Content)) (a : App) : App :=
  mkApp (localStorage a) (chatContainer a) (nextRef a) (messageInput_value a)
    (messageInput_disabled a) (sendButton_disabled a) (statusMessage a)
    (ariaBusy a) v (clock a).

Definition set_clock (v : nat) (a : App) : App :=
  mkApp (localStorage a) (chatContainer a) (nextRef a) (messageInput_value a)
    (messageInput_disabled a) (sendButton_disabled a) (statusMessage a)
    (ariaBusy a) (chat a) v.

(** A number in a template literal. *)
Definition showZ (z : Z) : string := NilZero.string_of_int (Z.to_int z).


(* ================================================================== *)
(** ** The conversation controller *)
(* ================================================================== *)

Definition dquote : string := String (ascii_of_nat 34) EmptyString.

Definition CHAT_HISTORY_KEY : string := "aiChatAssistantProHistory".

Definition IMAGE_GENERATION_KEYWORDS : list string :=
  [ "generate image of"; "create an image of"; "draw a picture of";
    "draw an image of"; "show me an image of"; "make an image of" ].

Definition emptyResponseMarker : string := "[AI gave an empty response]".

(** The message of the [TypeError] that reading [.image] of [undefined]
    throws (the wording is the engine's; this is V8's). *)
Definition typeErrorMessage : string :=
  "Cannot read properties of undefined (reading 'image')".

(** The [for ... of IMAGE_GENERATION_KEYWORDS] loop with its [break], lines
    495-501: [(isImageRequest, imagePrompt)]. *)
Fixpoint scanKeywords (keywords : list string)
    (lowerCaseMessage userMessageText : string) : bool * string :=
  match keywords with
  | [] => (false, EmptyString)
  | keyword :: keywords' =>
      if JS.startsWith lowerCaseMessage keyword
      then (true, JS.trim (JS.substringFrom (String.length keyword) userMessageText))
      else scanKeywords keywords' lowerCaseMessage userMessageText
  end.

(** Which of the two paths an accepted input takes, lines 491-510. *)
Inductive Dispatch : Type :=
| ImagePath (imagePrompt : string)
| TextPath (text : string).

Definition classify (userMessageText : string) : Dispatch :=
  let lowerCaseMessage := JS.toLowerCase userMessageText in
  let (isImageRequest, imagePrompt) :=
    scanKeywords IMAGE_GENERATION_KEYWORDS lowerCaseMessage userMessageText in
  if isImageRequest && JS.truthy imagePrompt
  then ImagePath imagePrompt
  else TextPath userMessageText.

Definition loadChatHistory (a : App) : list StoredMessage :=
  match localStorage a with
  | Some history => history
  | None => []
  end.

Definition saveMessageToHistory (message : StoredMessage) : M unit :=
  modify (fun a => set_localStorage (Some (loadChatHistory a ++ [message])) a).

Definition createMessageDiv (message : StoredMessage) : MessageDiv :=
  mkDiv (id message) (role message) (isError message) [].

Definition withChildren (l : list Element) (d : MessageDiv) : MessageDiv :=
  mkDiv (dataMessageId d) (roleClass d) (messageError d) l.

Definition withMessageId (i : string) (d : MessageDiv) : MessageDiv :=
  mkDiv i (roleClass d) (messageError d) (childNodes d).

Definition withMessageError (d : MessageDiv) : MessageDiv :=
  mkDiv (dataMessageId d) (roleClass d) true (childNodes d).

(** [chatContainer.appendChild(div)] of a node just created. *)
Definition appendChild (d : MessageDiv) : M NodeRef :=
  fun a =>
    (nextRef a,
     set_nextRef (S (nextRef a))
       (set_chatContainer (chatContainer a ++ [(nextRef a, d)]) a)).

(** A change of the node [r]; it shows on the page while [r] is attached. *)
Definition updateNode (r : NodeRef) (f : MessageDiv -> MessageDiv) : M unit :=
  modify (fun a =>
    set_chatContainer
      (map (fun kd => if fst kd =? r then (fst kd, f (snd kd)) else kd)
           (chatContainer a)) a).

Definition contains (r : NodeRef) (a : App) : bool :=
  existsb (fun kd => fst kd =? r) (chatContainer a).

Definition removeChild (r : NodeRef) : M unit :=
  modify (fun a =>
    set_chatContainer
      (filter (fun kd => negb (fst kd =? r)) (chatContainer a)) a).

Definition initializeChat (history : list Content) : M unit :=
  modify (set_chat (Some history)).

(** [setLoading(isLoading, message)], lines 752-767. *)
Definition setLoading (isLoading : bool) (message : string) : M unit :=
  modify (set_loading isLoading (if isLoading then Some message else None)).

Definition errorMessageOr (error : Thrown) (fallback : string) : string :=
  match error with
  | ErrorObject message => message
  | OtherValue => fallback
  end.

Section Controller.

(** [process.env.API_KEY]; [marked.parse]; the readings of [Date.now()]. *)
Variable API_KEY : option string.
Variable marked_parse : string -> option string.
Variable now : nat -> Z.

Local Open Scope page_scope.

Definition parseMarkdown : string -> string := Markdown.parseMarkdown marked_parse.

Definition Date_now : M Z :=
  fun a => (now (clock a), set_clock (S (clock a)) a).

(** The node a segment becomes. *)
Definition render (s : Segment) : Element :=
  match s with
  | Prose text => MarkdownContent false (parseMarkdown text)
  | Code language content => Pre language content
  end.

Definition displayAIResponse (fullText : string) : list Element :=
  match Segmenter.formatAndDisplayAIResponse fullText with
  | Some segments => map render segments
  | None => []
  end.

(** [addMessageToChat(message, isNew)], lines 410-437; [isNew] only
    decides whether the view scrolls. *)
Definition addMessageToChat (message : StoredMessage) (isNew : bool) : M NodeRef :=
  let messageDiv := createMessageDiv message in
  let children :=
    if truthyOpt (textContent message) then
      let t := valueOf (textContent message) in
      [ MarkdownContent (isError message)
          (if isError message
           then parseMarkdown ("**Error:** " ++ t)%string
           else parseMarkdown t) ]
    else if truthyOpt (imageUrl message) then
      [ Img (valueOf (imageUrl message))
            (JS.orElse (valueOf (altText message)) "Generated image") ]
    else [] in
  appendChild (withChildren children messageDiv).

(** The body of [history.forEach], lines 453-459. *)
Fixpoint forEachStored (history : list StoredMessage) (geminiHistory : list Content)
  : M (list Content) :=
  match history with
  | [] => ret geminiHistory
  | msg :: history' =>
      _ <- addMessageToChat msg false ;;
      forEachStored history'
        (match textContent msg with
         | Some t =>
             if JS.truthy t && negb (isError msg)
             then geminiHistory ++ [mkContent (role msg) t]
             else geminiHistory
         | None => geminiHistory
         end)
  end.

(** [populateChatFromHistory()], lines 450-463. *)
Definition populateChatFromHistory : M unit :=
  a <- get ;;
  let history := loadChatHistory a in
  geminiHistory <- forEachStored history [] ;;
  initializeChat geminiHistory.

(** [clearChat()], lines 775-785. *)
Definition clearChat : M unit :=
  modify (set_chatContainer []) ;;
  modify (set_localStorage None) ;;
  initializeChat [] ;;
  t1 <- Date_now ;;
  t2 <- Date_now ;;
  _ <- addMessageToChat
         (mkMessage ("sys-" ++ showZ t1) model (Some "<i>Chat history cleared.</i>")
            None None false t2) true ;;
  ret tt.

(** [handleTextMessage], up to [await chat.sendMessageStream], lines
    529-544. *)
Definition handleTextMessage_begin (text : string) : M Pending :=
  t1 <- Date_now ;;
  t2 <- Date_now ;;
  let aiMessageBubble :=
    createMessageDiv
      (mkMessage ("ai-thinking-" ++ showZ t1) model
         (Some "<i>AI is thinking...</i>") None None false t2) in
  let streamingTextElement :=
    MarkdownContent false (parseMarkdown "<i>AI is thinking...</i>") in
  r <- appendChild (withChildren [streamingTextElement] aiMessageBubble) ;;
  ret (AwaitSendMessageStream r text).

(** One chunk of the [for await] loop, lines 549-557. *)
Definition handleTextMessage_chunk (aiMessageBubble : NodeRef)
    (aiResponseText : string) (firstChunkReceived : bool) (chunkText : option string)
  : M Pending :=
  (if negb firstChunkReceived
   then updateNode aiMessageBubble (withChildren [MarkdownContent false EmptyString])
   else ret tt) ;;
  match chunkText with
  | Some t =>
      if JS.truthy t then
        let aiResponseText' := (aiResponseText ++ t)%string in
        updateNode aiMessageBubble
          (withChildren [MarkdownContent false (parseMarkdown aiResponseText')]) ;;
        ret (AwaitNextChunk aiMessageBubble aiResponseText' true)
      else ret (AwaitNextChunk aiMessageBubble aiResponseText true)
  | None => ret (AwaitNextChunk aiMessageBubble aiResponseText true)
  end.

(** The final processing once the stream has ended, lines 560-572. *)
Definition handleTextMessage_final (aiMessageBubble : NodeRef)
    (aiResponseText : string) : M Completion :=
  t1 <- Date_now ;;
  t2 <- Date_now ;;
  let text := JS.orElse (JS.trim aiResponseText) emptyResponseMarker in
  let finalAiMessage :=
    mkMessage ("ai-" ++ showZ t1) model (Some text) None None false t2 in
  updateNode aiMessageBubble (withMessageId (id finalAiMessage)) ;;
  updateNode aiMessageBubble (withChildren []) ;;
  updateNode aiMessageBubble (withChildren (displayAIResponse text)) ;;
  saveMessageToHistory finalAiMessage ;;
  ret Normal.

(** The [catch] of [handleTextMessage], lines 574-589. *)
Definition handleTextMessage_catch (aiMessageBubble : NodeRef) (error : Thrown)
  : M Completion :=
  let errorMessageContent :=
    errorMessageOr error "Could not get a response from the AI." in
  t1 <- Date_now ;;
  t2 <- Date_now ;;
  let errorMsg :=
    mkMessage ("err-text-" ++ showZ t1) model (Some errorMessageContent)
      None None true t2 in
  a <- get ;;
  (if contains aiMessageBubble a then removeChild aiMessageBubble else ret tt) ;;
  _ <- addMessageToChat errorMsg true ;;
  saveMessageToHistory errorMsg ;;
  ret Normal.

(** [handleImageGeneration], up to [await ai.models.generateImages], lines
    674-691. *)
Definition handleImageGeneration_begin (prompt : string) : M Pending :=
  t1 <- Date_now ;;
  t2 <- Date_now ;;
  let info :=
    ("<i>Generating an image for: " ++ dquote ++ prompt ++ dquote ++ "...</i>")%string in
  let aiMessageBubble :=
    createMessageDiv
      (mkMessage ("ai-img-placeholder-" ++ showZ t1) model (Some info)
         None None false t2) in
  r <- appendChild
         (withChildren [MarkdownContent false (parseMarkdown info)] aiMessageBubble) ;;
  ret (AwaitGenerateImages r prompt).

(** Lines 747-749: the node takes the id of the message, the message is
    saved. *)
Definition handleImageGeneration_end (aiMessageBubble : NodeRef)
    (finalImageMessage : StoredMessage) : M Completion :=
  updateNode aiMessageBubble (withMessageId (id finalImageMessage)) ;;
  saveMessageToHistory finalImageMessage ;;
  ret Normal.

(** The [catch] of [handleImageGeneration], lines 730-746. *)
Definition handleImageGeneration_catch (aiMessageBubble : NodeRef) (error : Thrown)
  : M Completion :=
  updateNode aiMessageBubble (withChildren []) ;;
  updateNode aiMessageBubble withMessageError ;;
  let errorMessageContent := errorMessageOr error "Failed to generate image." in
  let shown := ("Error generating image: " ++ errorMessageContent)%string in
  updateNode aiMessageBubble
    (withChildren [MarkdownContent true (parseMarkdown shown)]) ;;
  t1 <- Date_now ;;
  t2 <- Date_now ;;
  handleImageGeneration_end aiMessageBubble
    (mkMessage ("err-img-api-" ++ showZ t1) model (Some shown) None None true t2).

(** The image held by a response, lines 699-700:
    [response.generatedImages && response.generatedImages[0].image?.imageBytes].
    Reading [.image] of the missing first entry of an empty array throws. *)
Definition firstImageBytes (response : GenerateImagesResponse)
  : Thrown + option string :=
  match generatedImages response with
  | None => inr None
  | Some [] => inl (ErrorObject typeErrorMessage)
  | Some (g :: _) =>
      match image g with
      | Some (Some bytes) => if JS.truthy bytes then inr (Some bytes) else inr None
      | _ => inr None
      end
  end.

(** The [try] block once the response is there, lines 697-729. *)
Definition handleImageGeneration_response (aiMessageBubble : NodeRef)
    (prompt : string) (response : GenerateImagesResponse) : M Completion :=
  updateNode aiMessageBubble (withChildren []) ;;
  match firstImageBytes response with
  | inl error => handleImageGeneration_catch aiMessageBubble error
  | inr (Some base64ImageBytes) =>
      let imageUrl := ("data:image/jpeg;base64," ++ base64ImageBytes)%string in
      let alt := ("Generated image for: " ++ prompt)%string in
      updateNode aiMessageBubble (withChildren [Img imageUrl alt]) ;;
      t1 <- Date_now ;;
      t2 <- Date_now ;;
      handleImageGeneration_end aiMessageBubble
        (mkMessage ("ai-img-" ++ showZ t1) model None (Some imageUrl) (Some alt)
           false t2)
  | inr None =>
      updateNode aiMessageBubble withMessageError ;;
      let errorText :=
        "Sorry, I could not generate an image. The image data might be missing." in
      updateNode aiMessageBubble
        (withChildren [MarkdownContent true (parseMarkdown errorText)]) ;;
      t1 <- Date_now ;;
      t2 <- Date_now ;;
      handleImageGeneration_end aiMessageBubble
        (mkMessage ("err-img-" ++ showZ t1) model (Some errorText) None None true t2)
  end.

(** The [catch] and the [finally] of [handleSendMessage], lines 511-525. *)
Definition handleSendMessage_settle (c : Completion) : M unit :=
  match c with
  | Normal => ret tt
  | Throws error =>
      let errorMessageContent := errorMessageOr error "An unknown error occurred." in
      t1 <- Date_now ;;
      t2 <- Date_now ;;
      let errorMsg :=
        mkMessage ("err-handler-" ++ showZ t1) model (Some errorMessageContent)
          None None true t2 in
      _ <- addMessageToChat errorMsg true ;;
      saveMessageToHistory errorMsg
  end ;;
  setLoading false EmptyString.

(** [handleSendMessage()] from the event to its first [await], lines
    466-510: [None] when the call returns without a request, otherwise the
    request it waits for. *)
Definition handleSendMessage : M (option Pending) :=
  if negb (truthyOpt API_KEY) then
    t1 <- Date_now ;;
    t2 <- Date_now ;;
    _ <- addMessageToChat
           (mkMessage ("err-noapikey-" ++ showZ t1) model
              (Some "Cannot send message: API Key is not configured.")
              None None true t2) true ;;
    ret None
  else
    a <- get ;;
    let userMessageText := JS.trim (messageInput_value a) in
    if negb (JS.truthy userMessageText) then ret None
    else
      t1 <- Date_now ;;
      t2 <- Date_now ;;
      let userMessage :=
        mkMessage ("user-" ++ showZ t1) user (Some userMessageText)
          None None false t2 in
      _ <- addMessageToChat userMessage true ;;
      saveMessageToHistory userMessage ;;
      modify (set_messageInput_value EmptyString) ;;
      match classify userMessageText with
      | ImagePath imagePrompt =>
          setLoading true "Generating image..." ;;
          p <- handleImageGeneration_begin imagePrompt ;;
          ret (Some p)
      | TextPath text =>
          setLoading true "AI is thinking..." ;;
          p <- handleTextMessage_begin text ;;
          ret (Some p)
      end.

(** The call goes on when the promise it waits for settles: [None] when
    [handleSendMessage] has returned, otherwise the next [await].  A
    settlement that belongs to another request leaves the call waiting. *)
Definition resume (p : Pending) (r : Settled) : M (option Pending) :=
  match p, r with
  | AwaitSendMessageStream b text, StreamOpened =>
      ret (Some (AwaitNextChunk b EmptyString false))
  | AwaitSendMessageStream b text, Rejected error =>
      c <- handleTextMessage_catch b error ;;
      handleSendMessage_settle c ;; ret None
  | AwaitNextChunk b aiResponseText firstChunkReceived, Chunk chunkText =>
      p' <- handleTextMessage_chunk b aiResponseText firstChunkReceived chunkText ;;
      ret (Some p')
  | AwaitNextChunk b aiResponseText _, StreamEnd =>
      c <- handleTextMessage_final b aiResponseText ;;
      handleSendMessage_settle c ;; ret None
  | AwaitNextChunk b _ _, Rejected error =>
      c <- handleTextMessage_catch b error ;;
      handleSendMessage_settle c ;; ret None
  | AwaitGenerateImages b prompt, ImagesResponse response =>
      c <- handleImageGeneration_response b prompt response ;;
      handleSendMessage_settle c ;; ret None
  | AwaitGenerateImages b prompt, Rejected error =>
      c <- handleImageGeneration_catch b error ;;
      handleSendMessage_settle c ;; ret None
  | _, _ => ret (Some p)
  end.

(** Whether a settlement is one the request can have. *)
Definition answers (p : Pending) (r : Settled) : bool :=
  match p, r with
  | AwaitSendMessageStream _ _, (StreamOpened | Rejected _) => true
  | AwaitNextChunk _ _ _, (Chunk _ | StreamEnd | Rejected _) => true
  | AwaitGenerateImages _ _, (ImagesResponse _ | Rejected _) => true
  | _, _ => false
  end.

End Controller.

(* ================================================================== *)
(** ** The page as a transition system *)
(* ================================================================== *)

(** The page and the requests that are on their way. *)
Record World : Type := mkWorld {
  app : App;
  pendings : list Pending
}.

Definition started (p : option Pending) : list Pending :=
  match p with Some q => [q] | None => [] end.

(** What the text service does with a request: the call is rejected, or it
    gives a stream of chunks that ends or fails. *)
Inductive StreamOutcome : Type :=
| OpenRejected (error : Thrown)
| Opened (chunks : list (option string)) (failure : option Thrown).

(** The two AI services, each as what it answers to a request. *)
Record Service : Type := mkService {
  sendMessageStream : string -> StreamOutcome;
  generateImages : string -> Thrown + GenerateImagesResponse
}.

Definition streamSettlements (o : StreamOutcome) : list Settled :=
  match o with
  | OpenRejected error => [Rejected error]
  | Opened chunks failure =>
      StreamOpened :: map Chunk chunks
        ++ [match failure with Some error => Rejected error | None => StreamEnd end]
  end.

(** The settlements a request started at [p] meets, in order. *)
Definition settlements (svc : Service) (p : Pending) : list Settled :=
  match p with
  | AwaitSendMessageStream _ text => streamSettlements (sendMessageStream svc text)
  | AwaitGenerateImages _ prompt =>
      [match generateImages svc prompt with
       | inl error => Rejected error
       | inr response => ImagesResponse response
       end]
  | AwaitNextChunk _ _ _ => []
  end.

Section Page.

Variable API_KEY : option string.
Variable marked_parse : string -> option string.
Variable now : nat -> Z.

Local Open Scope page_scope.

(** The page before the script runs: [storage] is what [localStorage]
    holds, [value] what the input shows. *)
Definition initialPage (storage : option (list StoredMessage)) (value : string) : App :=
  mkApp storage [] 0 value false false None false None 0.

(** The top level of the script: the check of lines 349-359, and the call
    of [populateChatFromHistory] on its last line. *)
Definition pageLoad : M unit :=
  (if negb (truthyOpt API_KEY) then
     t1 <- Date_now now ;;
     t2 <- Date_now now ;;
     _ <- addMessageToChat marked_parse
            (mkMessage ("err-" ++ showZ t1) model
               (Some "Configuration error: API Key is missing. Cannot connect to AI services.")
               None None true t2) true ;;
     ret tt
   else ret tt) ;;
  populateChatFromHistory marked_parse.

Definition loaded (storage : option (list StoredMessage)) (value : string) : App :=
  exec_ pageLoad (initialPage storage value).

(** The events of the page.  The browser hands a click to a button, and
    keys or text to a [textarea], only while the element is not disabled. *)
Inductive step : World -> World -> Prop :=
| step_input (w : World) (value : string) :
    messageInput_disabled (app w) = false ->
    step w (mkWorld (set_messageInput_value value (app w)) (pendings w))
| step_click (w : World) :
    sendButton_disabled (app w) = false ->
    step w (mkWorld (snd (handleSendMessage API_KEY marked_parse now (app w)))
                    (pendings w ++ started (fst (handleSendMessage API_KEY marked_parse now (app w)))))
| step_enter (w : World) :
    messageInput_disabled (app w) = false ->
    step w (mkWorld (snd (handleSendMessage API_KEY marked_parse now (app w)))
                    (pendings w ++ started (fst (handleSendMessage API_KEY marked_parse now (app w)))))
| step_clear (w : World) :
    step w (mkWorld (exec_ (clearChat marked_parse now) (app w)) (pendings w))
| step_settle (w : World) (before after : list Pending) (p : Pending) (r : Settled) :
    pendings w = before ++ p :: after ->
    answers p r = true ->
    step w (mkWorld (snd (resume marked_parse now p r (app w)))
                    (before ++ started (fst (resume marked_parse now p r (app w))) ++ after)).

Inductive reachable : World -> Prop :=
| reachable_load (storage : option (list StoredMessage)) (value : string) :
    reachable (mkWorld (loaded storage value) [])
| reachable_step (w w' : World) :
    reachable w -> step w w' -> reachable w'.

(** A request is carried through its settlements. *)
Fixpoint settleAll (p : Pending) (rs : list Settled) : M (option Pending) :=
  match rs with
  | [] => ret (Some p)
  | r :: rs' =>
      p' <- resume marked_parse now p r ;;
      match p' with
      | None => ret None
      | Some q => settleAll q rs'
      end
  end.

(** A whole turn: the event, and the request it starts carried through what
    the service answers. *)
Definition turn (svc : Service) : M (option Pending) :=
  p <- handleSendMessage API_KEY marked_parse now ;;
  match p with
  | None => ret None
  | Some q => settleAll q (settlements svc q)
  end.

End Page.

(* ================================================================== *)
(** ** What a turn leaves behind *)
(* ================================================================== *)

Import JS.
Local Open Scope string_scope.
Local Open Scope nat_scope.

(** The kinds of message a turn of the model ends with. *)
Inductive MessageKind : Type := TextMessage | ImageMessage | ErrorMessage.

Definition kindOf (m : StoredMessage) : option MessageKind :=
  match isError m, textContent m, imageUrl m with
  | true, Some _, None => Some ErrorMessage
  | false, Some _, None => Some TextMessage
  | false, None, Some _ => Some ImageMessage
  | _, _, _ => None
  end.

(** The text a stream has given when it ends: the chunks with a text, in
    order, after what was there before. *)
Fixpoint accumulate (acc : string) (chunks : list (option string)) : string :=
  match chunks with
  | [] => acc
  | c :: chunks' =>
      accumulate (if truthyOpt c then acc ++ valueOf c else acc) chunks'
  end.

(** The node of an error message, as [addMessageToChat] builds it. *)
Definition errorNode (marked_parse : string -> option string) (m : StoredMessage)
  : MessageDiv :=
  mkDiv (id m) (role m) true
    (if truthyOpt (textContent m)
     then [MarkdownContent true
             (parseMarkdown marked_parse ("**Error:** " ++ valueOf (textContent m)))]
     else []).

Definition without (b : NodeRef) (l : list (NodeRef * MessageDiv))
  : list (NodeRef * MessageDiv) :=
  filter (fun kd => negb (fst kd =? b)) l.

(** The messages that are replayed to the service: those with a text that
    are not errors. *)
Definition replayable (msg : StoredMessage) : bool :=
  truthyOpt (textContent msg) && negb (isError msg).

Definition toContent (msg : StoredMessage) : Content :=
  mkContent (role msg) (valueOf (textContent msg)).

Definition upstreamContext (history : list StoredMessage) : list Content :=
  map toContent (filter replayable history).

Definition stored (storage : option (list StoredMessage)) : list StoredMessage :=
  match storage with Some history => history | None => [] end.

Definition enabled (a : App) : Prop :=
  messageInput_disabled a = false /\ sendButton_disabled a = false.

Section Outcomes.

Variable API_KEY : option string.
Variable marked_parse : string -> option string.
Variable now : nat -> Z.

(** A request that ends the turn: [handleSendMessage] returns, one message
    of the model is saved, the input is enabled again. *)
Definition settledBy (a a' : App) (m : StoredMessage) : Prop :=
  localStorage a' = Some (loadChatHistory a ++ [m])%list /\
  role m = model /\
  messageInput_value a' = messageInput_value a /\
  messageInput_disabled a' = false /\
  sendButton_disabled a' = false /\
  statusMessage a' = None /\
  chat a' = chat a.

Definition finishesWith (p : Pending) (r : Settled) (a : App) (m : StoredMessage) : Prop :=
  exists a', resume marked_parse now p r a = (None, a') /\ settledBy a a' m.

Definition textError (error : Thrown) (a : App) : StoredMessage :=
  mkMessage ("err-text-" ++ showZ (now (clock a))) model
    (Some (errorMessageOr error "Could not get a response from the AI."))
    None None true (now (S (clock a))).

Definition imageError (error : Thrown) (a : App) : StoredMessage :=
  mkMessage ("err-img-api-" ++ showZ (now (clock a))) model
    (Some ("Error generating image: "
             ++ errorMessageOr error "Failed to generate image."))
    None None true (now (S (clock a))).

Definition imageMessage (prompt : string) (response : GenerateImagesResponse) (a : App)
  : StoredMessage :=
  match firstImageBytes response with
  | inl error => imageError error a
  | inr (Some bytes) =>
      mkMessage ("ai-img-" ++ showZ (now (clock a))) model None
        (Some ("data:image/jpeg;base64," ++ bytes))
        (Some ("Generated image for: " ++ prompt)) false (now (S (clock a)))
  | inr None =>
      mkMessage ("err-img-" ++ showZ (now (clock a))) model
        (Some "Sorry, I could not generate an image. The image data might be missing.")
        None None true (now (S (clock a)))
  end.

Definition replyMessage (reply : string) (a : App) : StoredMessage :=
  mkMessage ("ai-" ++ showZ (now (clock a))) model
    (Some (orElse (trim reply) emptyResponseMarker)) None None false
    (now (S (clock a))).

Definition streamMessage (acc : string) (chunks : list (option string))
    (failure : option Thrown) (a : App) : StoredMessage :=
  match failure with
  | None => replyMessage (accumulate acc chunks) a
  | Some error => textError error a
  end.

(** The message a request ends with, given what the service answers. *)
Definition outcomeMessage (svc : Service) (p : Pending) (a : App) : StoredMessage :=
  match p with
  | AwaitSendMessageStream _ text =>
      match sendMessageStream svc text with
      | OpenRejected error => textError error a
      | Opened chunks failure => streamMessage "" chunks failure a
      end
  | AwaitGenerateImages _ prompt =>
      match generateImages svc prompt with
      | inl error => imageError error a
      | inr response => imageMessage prompt response a
      end
  | AwaitNextChunk _ acc _ => streamMessage acc [] None a
  end.

Definition userMessageOf (a : App) : StoredMessage :=
  mkMessage ("user-" ++ showZ (now (clock a))) user
    (Some (trim (messageInput_value a))) None None false (now (S (clock a))).

Definition requestOf (a : App) : Pending :=
  match classify (trim (messageInput_value a)) with
  | ImagePath imagePrompt => AwaitGenerateImages (S (nextRef a)) imagePrompt
  | TextPath t => AwaitSendMessageStream (S (nextRef a)) t
  end.

(** The page is idle with no request on its way, or busy with exactly one:
    then the input and the button are disabled, the input is empty, and the
    key is there. *)
Definition serialized (w : World) : Prop :=
  (pendings w = [] /\
   messageInput_disabled (app w) = false /\
   sendButton_disabled (app w) = false)
  \/
  (exists p, pendings w = [p] /\
   messageInput_disabled (app w) = true /\
   sendButton_disabled (app w) = true /\
   messageInput_value (app w) = "" /\
   truthyOpt API_KEY = true).

End Outcomes.

(** A page to try the properties on. *)
Definition key0 : option string := Some "key".
Definition marked0 : string -> option string := fun s => Some s.
Definition now0 : nat -> Z := fun n => Z.of_nat n.

Definition svc0 : Service :=
  mkService (fun _ => Opened [Some "Hel"; None; Some "lo"] None)
            (fun _ => inr (mkResponse None)).

(** The page after a first load with an empty store, [hi] typed. *)
Definition page0 : App :=
  set_messageInput_value "hi" (loaded key0 marked0 now0 None "").

(** The same page once the user has clicked: the request is on its way. *)
Definition busy0 : World :=
  mkWorld (snd (handleSendMessage key0 marked0 now0 page0))
          ([] ++ started (fst (handleSendMessage key0 marked0 now0 page0))).

(* ================================================================== *)
(** ** The shape of what is shown *)
(* ================================================================== *)

(** A segment as the page can show it: a prose segment holds a text that is
    not empty and has no whitespace at its ends; a code segment holds such a
    content under a language that is a run of word characters. *)
Definition tidy (s : Segment) : Prop :=
  match s with
  | Prose text => truthy text = true /\ trim text = text
  | Code language content =>
      truthy content = true /\ trim content = content /\
      truthy language = true /\ every isWordChar language = true
  end.

(** Whether a fence marker begins at place [k] of a text. *)
Definition fenceAt (k : nat) (s : string) : bool :=
  startsWith (drop k s) Segmenter.fence.

(** A text in which an opening and a closing marker can be told apart. *)
Definition twoFences (s : string) : Prop :=
  exists u v w : string,
    s = u ++ Segmenter.fence ++ v ++ Segmenter.fence ++ w.

(** A reply that was cut short inside a code block. *)
Definition ex_unclosed : string :=
  "Look:" ++ Segmenter.nl ++ "```js" ++ Segmenter.nl ++ "let x".

(** The pattern [codeBlockRegex] by its parts, from the end: the closing
    marker with the whitespace in front of it, the body up to it, what
    follows the whitespace after the tag. *)
Module FenceParts.

Import RegExp Segmenter.

Definition closing : Regex :=
  Cat (Quest true (Chr newline))
 (Cat (Star true (Class isWhiteSpace))
      (lit fence)).

Definition bodyOn : Regex :=
  Cat (Grp 2 (Star false (Class (fun _ => true)))) closing.

Definition afterGap : Regex :=
  Cat (Quest true (Chr newline)) bodyOn.

End FenceParts.

(** The region of [ex_spec] as the scan finds it. *)
Definition ex_spec_match : RegExp.Match :=
  RegExp.mkMatch 6
    (RegExp.mkMState 30 (Some Segmenter.backtick) (Segmenter.nl ++ "done")
       [(2, (12, 26)); (1, (9, 11))]).

(* ================================================================== *)
(** ** Script blocks *)
(* ================================================================== *)

(** Two texts that are the same but for the case of their letters, as a
    pattern with the flag [i] takes them. *)
Fixpoint sameLetters (a b : string) : bool :=
  match a, b with
  | EmptyString, EmptyString => true
  | String x a', String y b' => RegExp.chrEq true x y && sameLetters a' b'
  | _, _ => false
  end.

(** A script block in capitals, with an attribute, in a sentence. *)
Definition ex_script_pre : string := "Hi ".
Definition ex_script_open : string := "<SCRIPT".
Definition ex_script_mid : string := " src=x>alert(1)".
Definition ex_script_close : string := "</Script>".
Definition ex_script_post : string := " bye".

(* ================================================================== *)
(** ** More of the page *)
(* ================================================================== *)

Section Bubbles.

Variable marked_parse : string -> option string.
Variable now : nat -> Z.

Local Open Scope page_scope.

(** What [addMessageToChat] puts into the node of a message, lines
    413-431: the text as markdown, with [**Error:**] in front of an error,
    or else the image. *)
Definition contentOf (message : StoredMessage) : list Element :=
  if truthyOpt (textContent message) then
    let t := valueOf (textContent message) in
    [ MarkdownContent (isError message)
        (if isError message
         then parseMarkdown marked_parse ("**Error:** " ++ t)%string
         else parseMarkdown marked_parse t) ]
  else if truthyOpt (imageUrl message) then
    [ Img (valueOf (imageUrl message))
          (orElse (valueOf (altText message)) "Generated image") ]
  else [].

(** The node [addMessageToChat] appends for a message. *)
Definition bubbleOf (message : StoredMessage) : MessageDiv :=
  withChildren (contentOf message) (createMessageDiv message).

(** The message of lines 468-474, shown when there is no key.  (As in
    [pageLoad], the constructor of the client at line 360 is taken to accept
    a missing key, so that the script goes on and the listeners are set.) *)
Definition noKeyMessage (a : App) : StoredMessage :=
  mkMessage ("err-noapikey-" ++ showZ (now (clock a))) model
    (Some "Cannot send message: API Key is not configured.")
    None None true (now (S (clock a))).

(** The message of lines 352-358, shown when the script starts without a
    key. *)
Definition configurationError : StoredMessage :=
  mkMessage ("err-" ++ showZ (now 0)) model
    (Some "Configuration error: API Key is missing. Cannot connect to AI services.")
    None None true (now 1).

(** The notice [clearChat] leaves on the page, lines 779-784. *)
Definition clearedNotice (a : App) : StoredMessage :=
  mkMessage ("sys-" ++ showZ (now (clock a))) model
    (Some "<i>Chat history cleared.</i>") None None false (now (S (clock a))).

(** [confirmClearChat()], lines 769-773; [confirmed] is what the user
    answers to [confirm(...)]. *)
Definition confirmClearChat (confirmed : bool) : M unit :=
  if confirmed then clearChat marked_parse now else ret tt.

End Bubbles.

(** The nodes of the page have references that were given out. *)
Definition attached (a : App) : Prop :=
  Forall (fun kd => fst kd < nextRef a) (chatContainer a).

(** The children of a page in which the node [r] was changed by [f], as
    [updateNode] leaves them. *)
Definition updated (r : NodeRef) (f : MessageDiv -> MessageDiv)
    (l : list (NodeRef * MessageDiv)) : list (NodeRef * MessageDiv) :=
  map (fun kd => if fst kd =? r then (fst kd, f (snd kd)) else kd) l.

(** What the placeholder of a text request shows while the stream runs:
    nothing before a text has come, then the text so far as markdown. *)
Definition streamed (marked_parse : string -> option string) (aiResponseText : string)
  : list Element :=
  [ MarkdownContent false
      (if truthy aiResponseText
       then Markdown.parseMarkdown marked_parse aiResponseText
       else EmptyString) ].

(** The status line [handleSendMessage] sets for a request, line 503. *)
Definition statusOf (p : Pending) : string :=
  match p with
  | AwaitGenerateImages _ _ => "Generating image..."
  | _ => "AI is thinking..."
  end.

(** The status line and [aria-busy] follow the request that is on its
    way. *)
Definition statusShown (w : World) : Prop :=
  match pendings w with
  | [] => statusMessage (app w) = None /\ ariaBusy (app w) = false
  | [p] => statusMessage (app w) = Some (statusOf p) /\ ariaBusy (app w) = true
  | _ => False
  end.

(** A stored reply with a code block in it. *)
Definition ex_stored_reply : StoredMessage :=
  mkMessage "ai-5" model (Some SegmenterSpec.ex_spec) None None false 6.

(** A page on which a picture is asked for; the service [svc0] answers
    with no image. *)
Definition page_picture : App :=
  set_messageInput_value "draw a picture of a cat" (loaded key0 marked0 now0 None "").

(** Whether a request is one for an image. *)
Definition forImage (p : Pending) : bool :=
  match p with
  | AwaitGenerateImages _ _ => true
  | _ => false
  end.

(** What the node of the model holds when its request has ended, by the
    kind of the message [m] that is stored for it and by the path:
    [handleTextMessage] shows a reply by [formatAndDisplayAIResponse]
    (line 566) and an error by [addMessageToChat] (line 585);
    [handleImageGeneration] writes the image (lines 709-716) and the text of
    an error (lines 722-723 and 740-741) into the placeholder itself. *)
Definition shownLive (marked_parse : string -> option string) (image : bool)
    (m : StoredMessage) (d' : MessageDiv) : Prop :=
  match kindOf m with
  | Some TextMessage =>
      childNodes d' = displayAIResponse marked_parse (valueOf (textContent m))
  | Some ImageMessage => childNodes d' = contentOf marked_parse m
  | Some ErrorMessage =>
      if image
      then childNodes d' =
             [MarkdownContent true
                (Markdown.parseMarkdown marked_parse (valueOf (textContent m)))]
      else childNodes d' = contentOf marked_parse m
  | None => True
  end.

(** The page when a request has ended: the nodes [C0] that were there before
    it, and the node of the model. *)
Definition endsAs (marked_parse : string -> option string) (image : bool) (a' : App)
    (C0 : list (NodeRef * MessageDiv)) (m : StoredMessage) : Prop :=
  exists (r : NodeRef) (d' : MessageDiv),
    chatContainer a' = (C0 ++ [(r, d')])%list /\
    dataMessageId d' = id m /\
    roleClass d' = model /\
    messageError d' = isError m /\
    shownLive marked_parse image m d'.

(* ================================================================== *)
(** ** The first version of the segmenter *)
(* ================================================================== *)

(** The file holds an earlier version of the script, lines 1-311.  Its
    [formatAndDisplayAIResponse], lines 158-250, scans with the same
    pattern; it appends paragraphs of plain text where the later version
    appends markdown, and its fallback sets the bare marker in italics. *)
Module V1.

Import RegExp Segmenter.

(** What the function appends to the message node: a [p] with its
    [textContent] (and [fontStyle = "italic"] or not), or a [pre] holding
    the [code] and the copy button. *)
Inductive Node : Type :=
| Paragraph (textContent : string) (italic : bool)
| PreBlock (language content : string).

Record Locals : Type := mkLocals {
  lastIndex : nat;
  children : list Node;
  contentAdded : bool
}.

(** Lines 171-179. *)
Definition appendTextBefore (fullText : string) (m : Match) (l : Locals) : Locals :=
  if lastIndex l <? index m then
    let textContent := JS.trim (JS.substring (lastIndex l) (index m) fullText) in
    if JS.truthy textContent
    then mkLocals (lastIndex l) (children l ++ [Paragraph textContent false]) true
    else l
  else l.

(** Lines 181-224. *)
Definition appendCodeBlock (fullText : string) (m : Match) (l : Locals) : Locals :=
  let language := languageOf fullText m in
  let codeContent := codeContentOf fullText m in
  if JS.truthy codeContent
  then mkLocals (lastIndex l) (children l ++ [PreBlock language codeContent]) true
  else l.

Definition loopBody (fullText : string) (m : Match) (l : Locals) : Locals :=
  let l1 := appendTextBefore fullText m l in
  let l2 := appendCodeBlock fullText m l1 in
  mkLocals (lastIndexOf m) (children l2) (contentAdded l2).

(** The [while] loop of lines 170-226; [fuel] bounds its turns. *)
Fixpoint whileLoop (fuel : nat) (fullText : string) (l : Locals) : option Locals :=
  match codeBlockRegex_exec fullText (lastIndex l) with
  | None => Some l
  | Some m =>
      match fuel with
      | 0 => None
      | S fuel' => whileLoop fuel' fullText (loopBody fullText m l)
      end
  end.

(** Lines 228-236. *)
Definition appendTextAfter (fullText : string) (l : Locals) : Locals :=
  if lastIndex l <? String.length fullText then
    let textContent := JS.trim (JS.substringFrom (lastIndex l) fullText) in
    if JS.truthy textContent
    then mkLocals (lastIndex l) (children l ++ [Paragraph textContent false]) true
    else l
  else l.

(** Lines 238-248. *)
Definition appendFallback (fullText : string) (l : Locals) : Locals :=
  if negb (contentAdded l) then
    let trimmedFullText := JS.trim fullText in
    let fallbackP :=
      if String.eqb trimmedFullText EmptyString
      then Paragraph "[AI gave an empty response]" true
      else Paragraph trimmedFullText false in
    mkLocals (lastIndex l) (children l ++ [fallbackP]) (contentAdded l)
  else l.

(** The nodes the call appends to [messageDiv], once the temporary element
    is removed or the node emptied (lines 159-163). *)
Definition formatAndDisplayAIResponse (fullText : string) : option (list Node) :=
  match whileLoop (String.length fullText) fullText (mkLocals 0 [] false) with
  | None => None
  | Some l => Some (children (appendFallback fullText (appendTextAfter fullText l)))
  end.

(** The node of the first version for a segment of the later one. *)
Definition ofSegment (s : Segment) : Node :=
  match s with
  | Prose text => Paragraph text false
  | Code language content => PreBlock language content
  end.

Definition ofLocals (l : Segmenter.Locals) : Locals :=
  mkLocals (Segmenter.lastIndex l) (map ofSegment (Segmenter.children l))
    (Segmenter.contentAdded l).

End V1.

(* ================================================================== *)
(** * Properties *)
(* ================================================================== *)

(** ** Strings *)

Module JSFacts.

Import JS.
Local Open Scope string_scope.
Local Open Scope nat_scope.

Lemma append_nil_r (s : string) : s ++ "" = s.
Proof. induction s as [|c s IH]; simpl; [reflexivity | now rewrite IH]. Qed.

Lemma append_assoc (a b c : string) : (a ++ b) ++ c = a ++ (b ++ c).
Proof. induction a as [|x a IH]; simpl; [reflexivity | now rewrite IH]. Qed.

Lemma append_cancel_l (u a b : string) : u ++ a = u ++ b -> a = b.
Proof.
  induction u as [|c u IH]; simpl; intros H; [exact H|].
  injection H as H. now apply IH.
Qed.

Lemma length_append (a b : string) :
  String.length (a ++ b) = String.length a + String.length b.
Proof. induction a as [|x a IH]; simpl; [reflexivity | now rewrite IH]. Qed.

Lemma drop_nil (n : nat) : drop n "" = "".
Proof. destruct n; reflexivity. Qed.

Lemma take_nil (n : nat) : take n "" = "".
Proof. destruct n; reflexivity. Qed.

Lemma take_drop (n : nat) (s : string) : take n s ++ drop n s = s.
Proof.
  revert s; induction n as [|n IH]; intros [|c s]; simpl; try reflexivity.
  now rewrite IH.
Qed.

Lemma drop_append_length (w s : string) : drop (String.length w) (w ++ s) = s.
Proof. induction w as [|c w IH]; simpl; [reflexivity | exact IH]. Qed.

Lemma take_append_length (w s : string) : take (String.length w) (w ++ s) = w.
Proof. induction w as [|c w IH]; simpl; [reflexivity | now rewrite IH]. Qed.

Lemma drop_drop (n m : nat) (s : string) : drop n (drop m s) = drop (m + n) s.
Proof.
  revert s; induction m as [|m IH]; intros s; simpl; [reflexivity|].
  destruct s as [|c s]; [now rewrite drop_nil | apply IH].
Qed.

Lemma length_drop (n : nat) (s : string) :
  String.length (drop n s) = String.length s - n.
Proof.
  revert s; induction n as [|n IH]; intros [|c s]; simpl; auto.
Qed.

Lemma length_take (n : nat) (s : string) :
  String.length (take n s) = Nat.min n (String.length s).
Proof.
  revert s; induction n as [|n IH]; intros [|c s]; simpl; try reflexivity.
  now rewrite IH.
Qed.

Lemma drop_all (n : nat) (s : string) : String.length s <= n -> drop n s = "".
Proof.
  revert s; induction n as [|n IH]; intros [|c s] H; simpl in *; try reflexivity.
  - lia.
  - apply IH; lia.
Qed.

Lemma drop_const (n : nat) (s t : string) :
  drop n s = t -> n <= String.length s -> String.length s = n + String.length t.
Proof. intros <- H. rewrite length_drop. lia. Qed.

(** [substring a b s] when [a <= b]: the [b - a] code units from [a] on. *)
Lemma substring_le (a b : nat) (s : string) :
  a <= b -> substring a b s = take (b - a) (drop a s).
Proof.
  intros H. unfold substring.
  rewrite (Nat.min_l a b H), (Nat.max_r a b H). reflexivity.
Qed.

Lemma substring_span (a : nat) (w t s : string) :
  drop a s = w ++ t -> substring a (a + String.length w) s = w.
Proof.
  intros H. rewrite substring_le by lia.
  replace (a + String.length w - a) with (String.length w) by lia.
  rewrite H. apply take_append_length.
Qed.

Lemma drop_span (a : nat) (w t s : string) :
  drop a s = w ++ t -> drop (a + String.length w) s = t.
Proof.
  intros H. rewrite <- drop_drop, H. apply drop_append_length.
Qed.

Lemma blank_append (a b : string) : blank (a ++ b) = blank a && blank b.
Proof.
  induction a as [|c a IH]; simpl; [reflexivity|].
  now rewrite IH, andb_assoc.
Qed.

Lemma trimStart_blank_append (w s : string) :
  blank w = true -> trimStart (w ++ s) = trimStart s.
Proof.
  induction w as [|c w IH]; simpl; [reflexivity|].
  intros H. apply andb_prop in H as [Hc Hw]. rewrite Hc. auto.
Qed.

Lemma trimEnd_blank (w : string) : blank w = true -> trimEnd w = "".
Proof.
  induction w as [|c w IH]; simpl; [reflexivity|].
  intros H. apply andb_prop in H as [Hc Hw]. now rewrite (IH Hw), Hc.
Qed.

Lemma trimEnd_append_blank (s w : string) :
  blank w = true -> trimEnd (s ++ w) = trimEnd s.
Proof.
  intros Hw. induction s as [|c s IH]; simpl.
  - now apply trimEnd_blank.
  - now rewrite IH.
Qed.

Lemma trimEnd_nil_blank (s : string) : trimEnd s = "" -> blank s = true.
Proof.
  induction s as [|c s IH]; simpl; [reflexivity|].
  destruct (trimEnd s) eqn:E; [|discriminate].
  destruct (isWhiteSpace c); [intros _; simpl; auto | discriminate].
Qed.

Lemma trimStart_append (s t : string) :
  blank s = false -> trimStart (s ++ t) = trimStart s ++ t.
Proof.
  induction s as [|c s IH]; simpl; [discriminate|].
  destruct (isWhiteSpace c); simpl; [exact IH | reflexivity].
Qed.

Lemma blank_trimStart (s : string) : blank (trimStart s) = blank s.
Proof.
  induction s as [|c s IH]; simpl; [reflexivity|].
  destruct (isWhiteSpace c) eqn:E; simpl; [exact IH | now rewrite E].
Qed.

(** [trim] forgets whitespace on either side. *)
Lemma trim_blank (w : string) : blank w = true -> trim w = "".
Proof.
  intros H. unfold trim. apply trimEnd_blank. now rewrite blank_trimStart.
Qed.

Lemma trim_pad (w1 s w2 : string) :
  blank w1 = true -> blank w2 = true -> trim (w1 ++ s ++ w2) = trim s.
Proof.
  intros H1 H2. unfold trim. rewrite (trimStart_blank_append w1 _ H1).
  destruct (blank s) eqn:Hs.
  - rewrite !trimEnd_blank; auto.
    + now rewrite blank_trimStart.
    + now rewrite blank_trimStart, blank_append, Hs, H2.
  - rewrite (trimStart_append s w2 Hs). now apply trimEnd_append_blank.
Qed.

Lemma truthy_false (s : string) : truthy s = false <-> s = "".
Proof. destruct s; simpl; split; congruence. Qed.

Lemma trim_truthy_blank (s : string) : truthy (trim s) = negb (blank s).
Proof.
  unfold trim. rewrite <- (blank_trimStart s).
  destruct (trimEnd (trimStart s)) eqn:E; simpl.
  - now rewrite (trimEnd_nil_blank _ E).
  - destruct (blank (trimStart s)) eqn:B; [|reflexivity].
    now rewrite (trimEnd_blank _ B) in E.
Qed.

End JSFacts.

(** ** The matcher *)

Module RegExpFacts.

Import JS JSFacts RegExp.
Local Open Scope string_scope.
Local Open Scope nat_scope.

Lemma charMatcher_sound (p : ascii -> bool) (x : MState) (c : Continuation)
    (res : MState) :
  charMatcher p x c = Some res ->
  exists a s', rest x = String a s' /\ p a = true /\ c (advance x a s') = Some res.
Proof.
  unfold charMatcher. destruct (rest x) as [|a s'] eqn:E; [discriminate|].
  destruct (p a) eqn:P; [|discriminate].
  intros H. exists a, s'. auto.
Qed.

Lemma orTry_Some (a : option MState) (b : unit -> option MState) (res : MState) :
  orTry a b = Some res -> a = Some res \/ (a = None /\ b tt = Some res).
Proof. destruct a; simpl; intros H; [left | right]; auto. Qed.

Lemma repeatMatcher_sound (i g : bool) (r : Regex) :
  (forall x c res, compile i r x c = Some res ->
     exists y, Span i r x y /\ c y = Some res) ->
  forall n x c res,
    repeatMatcher n (compile i r) g x c = Some res ->
    exists y, Span i (Star g r) x y /\ c y = Some res.
Proof.
  intros IHr. induction n as [|n IHn]; intros x c res H; simpl in H.
  - exists x. split; [constructor | exact H].
  - assert (Hiter : forall d0,
        d0 = (fun y : MState =>
                if endIndex y =? endIndex x then None
                else repeatMatcher n (compile i r) g y c) ->
        compile i r x d0 = Some res ->
        exists y, Span i (Star g r) x y /\ c y = Some res).
    { intros d0 -> Hm. apply IHr in Hm as (y & Hxy & Hd).
      destruct (endIndex y =? endIndex x); [discriminate|].
      apply IHn in Hd as (z & Hyz & Hc).
      exists z. split; [eapply SpanStarCons; eauto | exact Hc]. }
    destruct g; apply orTry_Some in H as [H | [_ H]].
    + eapply Hiter; [reflexivity | exact H].
    + exists x. split; [constructor | exact H].
    + exists x. split; [constructor | exact H].
    + eapply Hiter; [reflexivity | exact H].
Qed.

(** Every result of the matcher is a match of the pattern. *)
Theorem compile_sound (i : bool) (r : Regex) :
  forall x c res, compile i r x c = Some res ->
    exists y, Span i r x y /\ c y = Some res.
Proof.
  induction r as [ch | p | r1 IH1 r2 IH2 | g r IH | g r IH | n r IH | r IH | r IH | | ];
    intros x c res H; simpl in H.
  - apply charMatcher_sound in H as (a & s' & E & P & H).
    exists (advance x a s'). split; [now apply SpanChr | exact H].
  - apply charMatcher_sound in H as (a & s' & E & P & H).
    exists (advance x a s'). split; [now apply SpanClass | exact H].
  - apply IH1 in H as (y & Hxy & H). apply IH2 in H as (z & Hyz & H).
    exists z. split; [eapply SpanCat; eauto | exact H].
  - eapply repeatMatcher_sound; eauto.
  - assert (Hone : compile i r x
        (fun y => if endIndex y =? endIndex x then None else c y) = Some res ->
        exists y, Span i (Quest g r) x y /\ c y = Some res).
    { intros Hm. apply IH in Hm as (y & Hxy & Hd).
      destruct (endIndex y =? endIndex x); [discriminate|].
      exists y. split; [now apply SpanQuestOne | exact Hd]. }
    destruct g; apply orTry_Some in H as [H | [_ H]]; auto;
      exists x; (split; [constructor | exact H]).
  - apply IH in H as (y & Hxy & H).
    exists (close n x y). split; [now apply SpanGrp | exact H].
  - apply IH in H as (y & Hxy & H). exists y. split; [now apply SpanNonCap | exact H].
  - destruct (compile i r x (fun y => Some y)); [discriminate|].
    exists x. split; [constructor | exact H].
  - destruct (xorb (isWordAt (prev x)) (isWordAt (next x))) eqn:E; [|discriminate].
    exists x. split; [now constructor | exact H].
  - exists x. split; [constructor | exact H].
Qed.

Lemma consumes_refl (x : MState) : consumes x x "".
Proof. split; simpl; auto. Qed.

Lemma consumes_trans (x y z : MState) (w1 w2 : string) :
  consumes x y w1 -> consumes y z w2 -> consumes x z (w1 ++ w2).
Proof.
  intros [R1 E1] [R2 E2]. split.
  - now rewrite R1, R2, append_assoc.
  - rewrite length_append. lia.
Qed.

Lemma Span_consumes (i : bool) (r : Regex) (x y : MState) :
  Span i r x y -> exists w, consumes x y w.
Proof.
  induction 1;
    try (exists ""; apply consumes_refl);
    try (exists (String a ""); split; simpl; [assumption | lia]);
    auto.
  - destruct IHSpan1 as [w1 H1], IHSpan2 as [w2 H2].
    exists (w1 ++ w2). eapply consumes_trans; eauto.
  - destruct IHSpan1 as [w1 H1], IHSpan2 as [w2 H2].
    exists (w1 ++ w2). eapply consumes_trans; eauto.
Qed.

(** The literal [s], case-sensitively. *)
Lemma Span_lit (s : string) (x y : MState) :
  Span false (lit s) x y -> consumes x y s /\ captures y = captures x.
Proof.
  revert x. induction s as [|ch s IH]; intros x H; simpl in H.
  - inversion H; subst. split; [apply consumes_refl | reflexivity].
  - inversion H as [| | r1 r2 x0 y0 z0 H1 H2 | | | | | | | | |]; subst.
    inversion H1 as [ch0 x0 a s' E P | | | | | | | | | | |]; subst.
    apply IH in H2 as [[R2 E2] C2]. simpl in *.
    apply Ascii.eqb_eq in P. subst a.
    repeat split; simpl; [now rewrite E, R2 | lia | exact C2].
Qed.

Lemma every_append (p : ascii -> bool) (a b : string) :
  every p (a ++ b) = every p a && every p b.
Proof.
  induction a as [|c a IH]; simpl; [reflexivity|]. now rewrite IH, andb_assoc.
Qed.

Lemma every_blank (s : string) : every isWhiteSpace s = blank s.
Proof. induction s as [|c s IH]; simpl; [reflexivity | now rewrite IH]. Qed.

(** A repeated class: a run of code units of the class. *)
Lemma Span_star_class (i g : bool) (p : ascii -> bool) (x y : MState) :
  Span i (Star g (Class p)) x y ->
  exists w, consumes x y w /\ every p w = true /\ captures y = captures x.
Proof.
  remember (Star g (Class p)) as r eqn:Er. induction 1; try discriminate.
  - exists "". repeat split; auto.
  - injection Er as -> ->.
    destruct (IHSpan2 eq_refl) as (w & Hc & Hp & Hcap).
    inversion H as [| p0 x0 a s' E P | | | | | | | | | |]; subst.
    exists (String a w). destruct Hc as [R2 E2]. simpl in *.
    repeat split; simpl; [now rewrite E, R2 | lia | now rewrite P | exact Hcap].
Qed.

(** An optional character: it is there or not. *)
Lemma Span_quest_chr (g : bool) (ch : ascii) (x y : MState) :
  Span false (Quest g (Chr ch)) x y ->
  exists w, consumes x y w /\ (w = "" \/ w = String ch "") /\ captures y = captures x.
Proof.
  intros H. inversion H as [| | | | | g0 r0 x0 | g0 r0 x0 y0 H1 | | | | |]; subst.
  - exists "". repeat split; auto.
  - inversion H1 as [ch0 x0 a s' E P | | | | | | | | | | |]; subst.
    apply Ascii.eqb_eq in P. subst a.
    exists (String ch ""). repeat split; simpl; auto. lia.
Qed.

(** *** The bound on the iterations of a star is exact *)

Lemma extends_refl (x : MState) : extends x x.
Proof. exists "". apply consumes_refl. Qed.

Lemma extends_trans (x y z : MState) : extends x y -> extends y z -> extends x z.
Proof. intros [w1 H1] [w2 H2]. exists (w1 ++ w2). eapply consumes_trans; eauto. Qed.

Lemma extends_close (n : nat) (x0 x y : MState) :
  extends x y -> extends x (close n x0 y).
Proof. intros [w [R E]]. exists w. split; assumption. Qed.

(** A matcher looks at its continuation only on states further on. *)
Lemma repeatMatcher_ext (m : Matcher) (g : bool) :
  (forall x c1 c2, (forall y, extends x y -> c1 y = c2 y) -> m x c1 = m x c2) ->
  forall n x c1 c2,
    (forall y, extends x y -> c1 y = c2 y) ->
    repeatMatcher n m g x c1 = repeatMatcher n m g x c2.
Proof.
  intros Hm. induction n as [|n IH]; intros x c1 c2 Hc; simpl.
  - apply Hc, extends_refl.
  - rewrite (Hc x (extends_refl x)).
    rewrite (Hm x
      (fun y => if endIndex y =? endIndex x then None else repeatMatcher n m g y c1)
      (fun y => if endIndex y =? endIndex x then None else repeatMatcher n m g y c2)).
    + reflexivity.
    + intros y Hy. destruct (endIndex y =? endIndex x); [reflexivity|].
      apply IH. intros z Hz. apply Hc. eapply extends_trans; eauto.
Qed.

Lemma compile_ext (i : bool) (r : Regex) :
  forall x c1 c2, (forall y, extends x y -> c1 y = c2 y) ->
    compile i r x c1 = compile i r x c2.
Proof.
  induction r as [ch | p | r1 IH1 r2 IH2 | g r IH | g r IH | n r IH | r IH | r IH | | ];
    intros x c1 c2 Hc; simpl.
  - unfold charMatcher. destruct (rest x) as [|a s'] eqn:E; [reflexivity|].
    destruct (if i then _ else _); [|reflexivity].
    apply Hc. exists (String a ""). split; simpl; [exact E | lia].
  - unfold charMatcher. destruct (rest x) as [|a s'] eqn:E; [reflexivity|].
    destruct (p a); [|reflexivity].
    apply Hc. exists (String a ""). split; simpl; [exact E | lia].
  - apply IH1. intros y Hy. apply IH2. intros z Hz.
    apply Hc. eapply extends_trans; eauto.
  - apply repeatMatcher_ext; assumption.
  - rewrite (Hc x (extends_refl x)).
    rewrite (IH x (fun y => if endIndex y =? endIndex x then None else c1 y)
                  (fun y => if endIndex y =? endIndex x then None else c2 y)).
    + reflexivity.
    + intros y Hy. destruct (endIndex y =? endIndex x); [reflexivity | now apply Hc].
  - apply IH. intros y Hy. apply Hc. now apply (extends_close n x x y).
  - now apply IH.
  - rewrite (Hc x (extends_refl x)). reflexivity.
  - rewrite (Hc x (extends_refl x)). reflexivity.
  - apply Hc, extends_refl.
Qed.

Lemma compile_None (i : bool) (r : Regex) (x : MState) (c : Continuation) :
  (forall y, extends x y -> c y = None) -> compile i r x c = None.
Proof.
  intros Hc. destruct (compile i r x c) as [res|] eqn:E; [|reflexivity].
  apply compile_sound in E as (y & Hspan & Hy).
  apply Span_consumes in Hspan. rewrite (Hc y Hspan) in Hy. discriminate.
Qed.

(** One more iteration allowed than there are code units left changes
    nothing: [String.length (rest x)] iterations are all a star can make. *)
Lemma repeatMatcher_stable (i g : bool) (r : Regex) :
  forall n x c,
    String.length (rest x) <= n ->
    repeatMatcher (S n) (compile i r) g x c = repeatMatcher n (compile i r) g x c.
Proof.
  induction n as [|n IH]; intros x c Hlen.
  - assert (Hnone : compile i r x
        (fun y => if endIndex y =? endIndex x then None
                  else repeatMatcher 0 (compile i r) g y c) = None).
    { apply compile_None. intros y [w [R E]].
      destruct (rest x) as [|a s'] eqn:Ex; [|simpl in Hlen; lia].
      destruct w as [|b w]; [|discriminate].
      simpl in E. replace (endIndex y) with (endIndex x) by lia.
      now rewrite Nat.eqb_refl. }
    simpl. simpl in Hnone. rewrite Hnone.
    destruct g; simpl; [reflexivity | now destruct (c x)].
  - change (repeatMatcher (S (S n)) (compile i r) g x c)
      with (let d : Continuation := fun y =>
              if endIndex y =? endIndex x then None
              else repeatMatcher (S n) (compile i r) g y c in
            if g then orTry (compile i r x d) (fun _ => c x)
            else orTry (c x) (fun _ => compile i r x d)).
    change (repeatMatcher (S n) (compile i r) g x c)
      with (let d : Continuation := fun y =>
              if endIndex y =? endIndex x then None
              else repeatMatcher n (compile i r) g y c in
            if g then orTry (compile i r x d) (fun _ => c x)
            else orTry (c x) (fun _ => compile i r x d)).
    cbv zeta.
    rewrite (compile_ext i r x
      (fun y => if endIndex y =? endIndex x then None
                else repeatMatcher (S n) (compile i r) g y c)
      (fun y => if endIndex y =? endIndex x then None
                else repeatMatcher n (compile i r) g y c)).
    + reflexivity.
    + intros y [w [R E]]. destruct (endIndex y =? endIndex x) eqn:Q; [reflexivity|].
      apply Nat.eqb_neq in Q. apply IH.
      apply (f_equal String.length) in R. rewrite length_append in R. lia.
Qed.

(** *** Greedy and lazy stars of a class *)

Lemma advanceBy_consumes (w : string) :
  forall x r, rest x = w ++ r ->
    consumes x (advanceBy x w) w /\ captures (advanceBy x w) = captures x.
Proof.
  induction w as [|a w IH]; intros x r H; simpl.
  - split; [apply consumes_refl | reflexivity].
  - destruct (IH (advance x a (drop 1 (rest x))) r) as [[R E] C].
    { simpl. now rewrite H. }
    simpl in *. rewrite H in *. simpl in *. repeat split; auto.
    + rewrite H. simpl. now rewrite <- R.
    + rewrite E. simpl. lia.
Qed.

(** A literal that is there is matched, in one way. *)
Lemma lit_complete (s : string) :
  forall x c r, rest x = s ++ r -> compile false (lit s) x c = c (advanceBy x s).
Proof.
  induction s as [|ch s IH]; intros x c r H; simpl; [reflexivity|].
  unfold charMatcher. rewrite H. simpl. rewrite Ascii.eqb_refl.
  apply (IH _ c r). reflexivity.
Qed.

Lemma repeatMatcher_S (n : nat) (m : Matcher) (g : bool) (x : MState)
    (c : Continuation) :
  repeatMatcher (S n) m g x c =
    if g
    then orTry (m x (fun y => if endIndex y =? endIndex x then None
                              else repeatMatcher n m g y c)) (fun _ => c x)
    else orTry (c x) (fun _ =>
           m x (fun y => if endIndex y =? endIndex x then None
                         else repeatMatcher n m g y c)).
Proof. reflexivity. Qed.

Lemma charMatcher_step (p : ascii -> bool) (x : MState) (c : Continuation)
    (a : ascii) (s' : string) :
  rest x = String a s' -> p a = true -> charMatcher p x c = c (advance x a s').
Proof. intros E P. unfold charMatcher. now rewrite E, P. Qed.

Lemma succ_eqb_self (e : nat) : (S e =? e) = false.
Proof. apply Nat.eqb_neq. lia. Qed.

(** A greedy star, and a greedy option, succeed where what follows them
    succeeds on the spot. *)
Lemma greedy_star_zero (n : nat) (m : Matcher) (x : MState) (c : Continuation) :
  c x <> None -> repeatMatcher n m true x c <> None.
Proof.
  destruct n; [auto|]. rewrite repeatMatcher_S. intros H.
  destruct (m x _); simpl; [discriminate | exact H].
Qed.

Lemma greedy_quest_zero (i : bool) (r : Regex) (x : MState) (c : Continuation) :
  c x <> None -> compile i (Quest true r) x c <> None.
Proof.
  simpl. intros H. destruct (compile i r x _); simpl; [discriminate | exact H].
Qed.

(** A lazy star of any code unit gets to every place further on where
    what follows it succeeds. *)
Lemma lazy_any_complete (u : string) :
  forall n x c r,
    rest x = u ++ r -> String.length u <= n ->
    c (advanceBy x u) <> None ->
    repeatMatcher n (charMatcher (fun _ => true)) false x c <> None.
Proof.
  induction u as [|a u IH]; intros n x c r H Hn Hc.
  - simpl in Hc. destruct n; [exact Hc|]. rewrite repeatMatcher_S.
    destruct (c x); simpl; [discriminate | contradiction].
  - destruct n as [|n]; [simpl in Hn; lia|]. rewrite repeatMatcher_S.
    destruct (c x) as [res|] eqn:Ec; simpl orTry; [discriminate|].
    rewrite (charMatcher_step _ x _ a (u ++ r) H eq_refl).
    cbn [advance endIndex]. rewrite succ_eqb_self.
    apply (IH n _ c r).
    + reflexivity.
    + simpl in Hn. lia.
    + simpl in Hc. rewrite H in Hc. exact Hc.
Qed.

(** A greedy star of a class stops where the class stops, when what
    follows it would also succeed one code unit of the class further on. *)
Lemma greedy_class_max (p : ascii -> bool) (c : Continuation) :
  (forall y a s', rest y = String a s' -> p a = true ->
     c y <> None -> c (advance y a s') <> None) ->
  forall n x res,
    String.length (rest x) <= n ->
    repeatMatcher n (charMatcher p) true x c = Some res ->
    exists y w,
      consumes x y w /\ every p w = true /\ captures y = captures x /\
      c y = Some res /\
      (forall a s', rest y = String a s' -> p a = false).
Proof.
  intros Hmono. induction n as [|n IH]; intros x res Hlen H.
  - exists x, "". repeat split; auto.
    intros a s' E. rewrite E in Hlen. simpl in Hlen. lia.
  - rewrite repeatMatcher_S in H. apply orTry_Some in H as [H | [Hnone H]].
    + apply charMatcher_sound in H as (a & s' & E & P & H).
      cbn [advance endIndex] in H. rewrite succ_eqb_self in H.
      apply IH in H as (y & w & [R Ey] & Pw & C & Hc & Hmax);
        [| simpl; rewrite E in Hlen; simpl in Hlen; lia].
      exists y, (String a w). simpl in *.
      repeat split; auto;
        first [now rewrite E, R | simpl; lia | now rewrite P].
    + exists x, "". repeat split; auto.
      intros a s' E. destruct (p a) eqn:P; [exfalso | reflexivity].
      rewrite (charMatcher_step p x _ a s' E P) in Hnone.
      cbn [advance endIndex] in Hnone. rewrite succ_eqb_self in Hnone.
      revert Hnone. apply greedy_star_zero.
      apply (Hmono x a s' E P). rewrite H. discriminate.
Qed.

End RegExpFacts.

(** ** The fence scan *)

Module SegmenterFacts.

Import JS JSFacts RegExp RegExpFacts Segmenter SegmenterSpec.
Local Open Scope string_scope.
Local Open Scope nat_scope.

Lemma Span_cat_inv (i : bool) (r1 r2 : Regex) (x z : MState) :
  Span i (Cat r1 r2) x z -> exists y, Span i r1 x y /\ Span i r2 y z.
Proof. intros H; inversion H; subst; eauto. Qed.

Lemma Span_grp_inv (i : bool) (n : nat) (r : Regex) (x z : MState) :
  Span i (Grp n r) x z -> exists y, Span i r x y /\ z = close n x y.
Proof. intros H; inversion H; subst; eauto. Qed.

Lemma synced_consumes (input : string) (x y : MState) (w : string) :
  synced input x -> consumes x y w ->
  synced input y /\ substring (endIndex x) (endIndex y) input = w.
Proof.
  unfold synced. intros Hx [R E]. rewrite R in Hx. symmetry in Hx. split.
  - rewrite E. symmetry. eapply drop_span; eauto.
  - rewrite E. eapply substring_span; eauto.
Qed.

Lemma search_sound (m : Matcher) (s : string) :
  forall i p mt, search m i p s = Some mt ->
    exists pre s' p',
      s = pre ++ s' /\ index mt = i + String.length pre /\
      m (mkMState (index mt) p' s' []) (fun y => Some y) = Some (final mt).
Proof.
  induction s as [|a s IH]; intros i p mt H; simpl in H.
  - destruct (m (mkMState i p "" []) (fun y => Some y)) eqn:E; [|discriminate].
    injection H as <-. exists "", "", p. simpl. repeat split; auto.
  - destruct (m (mkMState i p (String a s) []) (fun y => Some y)) eqn:E.
    + injection H as <-. exists "", (String a s), p. simpl. repeat split; auto.
    + apply IH in H as (pre & s' & p' & -> & Hi & Hm).
      exists (String a pre), s', p'. simpl. repeat split; auto. lia.
Qed.

(** What [exec] returns is a match of the pattern, at or after [lastIndex]. *)
Lemma exec_sound (i : bool) (r : Regex) (input : string) (from : nat) (mt : Match) :
  exec i r input from = Some mt ->
  exists x0,
    endIndex x0 = index mt /\ captures x0 = [] /\ synced input x0 /\
    Span i r x0 (final mt) /\
    from <= index mt /\
    index mt <= String.length input /\
    substring from (index mt) input ++ rest x0 = drop from input.
Proof.
  unfold exec. destruct (String.length input <? from) eqn:L; [discriminate|].
  apply Nat.ltb_ge in L. intros H.
  apply search_sound in H as (pre & s' & p' & Hs & Hi & Hm).
  apply compile_sound in Hm as (y & Hspan & Hy). injection Hy as ->.
  exists (mkMState (index mt) p' s' []). simpl. unfold synced; simpl.
  repeat split; auto.
  - rewrite Hi. symmetry. eapply drop_span; eauto.
  - lia.
  - apply (f_equal String.length) in Hs.
    rewrite length_drop, length_append in Hs. lia.
  - rewrite Hi, (substring_span from pre s' input Hs). now rewrite Hs.
Qed.

(** A match lies in the input, at or after the place the search began. *)
Lemma exec_bounds (i : bool) (r : Regex) (input : string) (from : nat) (mt : Match) :
  exec i r input from = Some mt ->
  from <= index mt /\ index mt <= lastIndexOf mt /\
  lastIndexOf mt <= String.length input /\
  exists x0, endIndex x0 = index mt /\ Span i r x0 (final mt).
Proof.
  intros H. apply exec_sound in H as (x0 & E0 & _ & S0 & Hspan & Hfrom & Hidx & _).
  destruct (Span_consumes _ _ _ _ Hspan) as (w & R & E).
  unfold synced in S0. rewrite S0 in R. apply (f_equal String.length) in R.
  rewrite length_drop, length_append in R. unfold lastIndexOf.
  repeat split; try lia. eauto.
Qed.

Lemma blank_newline_opt (w : string) :
  w = "" \/ w = String newline "" -> blank w = true.
Proof. intros [-> | ->]; reflexivity. Qed.

(** A match of [codeBlockRegex] is a fenced region; its groups are the tag
    and the body. *)
Lemma codeBlockRegex_match (fullText : string) (from : nat) (m : Match) :
  codeBlockRegex_exec fullText from = Some m ->
  exists g : Region,
    wellFormed g /\
    matched fullText m = regionText g /\
    group fullText m 1 = Some (tag g) /\
    group fullText m 2 = Some (body g) /\
    from <= index m /\
    lastIndexOf m = index m + String.length (regionText g) /\
    lastIndexOf m <= String.length fullText /\
    drop from fullText =
      substring from (index m) fullText ++ regionText g
        ++ drop (lastIndexOf m) fullText.
Proof.
  unfold codeBlockRegex_exec. intros H.
  apply exec_sound in H as (x0 & E0 & C0 & S0 & Hspan & Hfrom & _ & Hdrop).
  unfold codeBlockRegex in Hspan.
  apply Span_cat_inv in Hspan as (x1 & H1 & Hspan).
  apply Span_cat_inv in Hspan as (x2 & H2 & Hspan).
  apply Span_cat_inv in Hspan as (x3 & H3 & Hspan).
  apply Span_cat_inv in Hspan as (x4 & H4 & Hspan).
  apply Span_cat_inv in Hspan as (x5 & H5 & Hspan).
  apply Span_cat_inv in Hspan as (x6 & H6 & Hspan).
  apply Span_cat_inv in Hspan as (x7 & H7 & H8).
  apply Span_lit in H1 as [K1 C1].
  apply Span_grp_inv in H2 as (y2 & H2 & ->).
  apply Span_star_class in H2 as (t & K2 & P2 & C2).
  apply Span_star_class in H3 as (wa & K3 & P3 & C3).
  apply Span_quest_chr in H4 as (na & K4 & P4 & C4).
  apply Span_grp_inv in H5 as (y5 & H5 & ->).
  apply Span_star_class in H5 as (b & K5 & _ & C5).
  apply Span_quest_chr in H6 as (nb & K6 & P6 & C6).
  apply Span_star_class in H7 as (wb & K7 & P7 & C7).
  apply Span_lit in H8 as [K8 C8].
  assert (K2' : consumes x1 (close 1 x1 y2) t) by exact K2.
  assert (K5' : consumes x4 (close 2 x4 y5) b) by exact K5.
  destruct (synced_consumes _ _ _ _ S0 K1) as [S1 _].
  destruct (synced_consumes _ _ _ _ S1 K2) as [S2 G1].
  assert (S2' : synced fullText (close 1 x1 y2)) by exact S2.
  destruct (synced_consumes _ _ _ _ S2' K3) as [S3 _].
  destruct (synced_consumes _ _ _ _ S3 K4) as [S4 _].
  destruct (synced_consumes _ _ _ _ S4 K5) as [S5 G2].
  pose proof (consumes_trans _ _ _ _ _ K3 K4) as Ka.
  pose proof (consumes_trans _ _ _ _ _ K6 K7) as Kb.
  pose proof (consumes_trans _ _ _ _ _ K1
               (consumes_trans _ _ _ _ _ K2'
                 (consumes_trans _ _ _ _ _ Ka
                   (consumes_trans _ _ _ _ _ K5'
                     (consumes_trans _ _ _ _ _ Kb K8))))) as Kall.
  destruct (synced_consumes _ _ _ _ S0 Kall) as [Sf Gall].
  assert (Hcaps : captures (final m) =
            [(2, (endIndex x4, endIndex y5)); (1, (endIndex x1, endIndex y2))]).
  { rewrite C8, C7, C6. simpl. rewrite C5, C4, C3. simpl. now rewrite C2, C1, C0. }
  exists (mkRegion t (wa ++ na) b (nb ++ wb)).
  unfold wellFormed, regionText, matched, group, lastIndexOf; simpl.
  rewrite Hcaps. simpl. rewrite <- E0.
  repeat split.
  - exact P2.
  - rewrite blank_append, <- every_blank, P3. now rewrite (blank_newline_opt _ P4).
  - rewrite blank_append, <- (every_blank wb), P7.
    now rewrite (blank_newline_opt _ P6).
  - exact Gall.
  - now rewrite G1.
  - now rewrite G2.
  - lia.
  - now destruct Kall as [_ ->].
  - destruct Kall as [R E]. rewrite E. unfold synced in S0. rewrite S0 in R.
    apply (f_equal String.length) in R.
    rewrite length_drop, length_append in R. simpl in R. simpl. lia.
  - rewrite <- Hdrop, <- E0. f_equal. destruct Kall as [-> _].
    unfold synced in Sf. rewrite Sf. simpl. now rewrite !append_assoc.
Qed.

Lemma region_length (g : Region) : 6 <= String.length (regionText g).
Proof.
  unfold regionText. rewrite !length_append. simpl. lia.
Qed.

Lemma isNil_app {A : Type} (l1 l2 : list A) :
  negb (isNil (l1 ++ l2)%list) = negb (isNil l1) || negb (isNil l2).
Proof. destruct l1, l2; reflexivity. Qed.

Lemma appendTextBefore_spec (fullText : string) (m : Match) (l : Locals) :
  lastIndex l <= index m ->
  let l1 := appendTextBefore fullText m l in
  let shown := pieceSegments fullText
                 (Gap (substring (lastIndex l) (index m) fullText)) in
  children l1 = (children l ++ shown)%list /\
  contentAdded l1 = contentAdded l || negb (isNil shown).
Proof.
  intros Hle. unfold appendTextBefore. simpl.
  destruct (lastIndex l <? index m) eqn:Lt.
  - destruct (truthy (trim (substring (lastIndex l) (index m) fullText)));
      simpl; rewrite ?app_nil_r, ?orb_true_r, ?orb_false_r; auto.
  - apply Nat.ltb_ge in Lt.
    assert (index m = lastIndex l) as -> by lia.
    unfold substring. rewrite Nat.min_id, Nat.max_id, Nat.sub_diag. simpl.
    rewrite app_nil_r, orb_false_r. auto.
Qed.

Lemma appendCodeBlock_spec (fullText : string) (m : Match) (l : Locals) :
  let l2 := appendCodeBlock fullText m l in
  let shown := pieceSegments fullText (Fenced m) in
  children l2 = (children l ++ shown)%list /\
  contentAdded l2 = contentAdded l || negb (isNil shown).
Proof.
  unfold appendCodeBlock. simpl.
  destruct (truthy (codeContentOf fullText m)); simpl;
    rewrite ?app_nil_r, ?orb_true_r, ?orb_false_r; auto.
Qed.

Lemma appendTextAfter_spec (fullText : string) (l : Locals) :
  let l3 := appendTextAfter fullText l in
  let shown := pieceSegments fullText (Gap (substringFrom (lastIndex l) fullText)) in
  children l3 = (children l ++ shown)%list /\
  contentAdded l3 = contentAdded l || negb (isNil shown).
Proof.
  unfold appendTextAfter, substringFrom. simpl.
  destruct (lastIndex l <? String.length fullText) eqn:Lt.
  - destruct (truthy (trim (drop (lastIndex l) fullText))); simpl;
      rewrite ?app_nil_r, ?orb_true_r, ?orb_false_r; auto.
  - apply Nat.ltb_ge in Lt. rewrite (drop_all _ _ Lt). simpl.
    rewrite app_nil_r, orb_false_r. auto.
Qed.

Lemma whileLoop_pieces (fuel : nat) (fullText : string) :
  forall l : Locals,
    lastIndex l <= String.length fullText ->
    String.length fullText - lastIndex l <= fuel ->
    exists l',
      whileLoop fuel fullText l = Some l' /\
      children (appendTextAfter fullText l') =
        (children l ++
         flat_map (pieceSegments fullText) (pieces fuel fullText (lastIndex l)))%list /\
      contentAdded (appendTextAfter fullText l') =
        contentAdded l
        || negb (isNil (flat_map (pieceSegments fullText)
                          (pieces fuel fullText (lastIndex l)))) /\
      concatText fullText (pieces fuel fullText (lastIndex l)) =
        drop (lastIndex l) fullText.
Proof.
  induction fuel as [|fuel IH]; intros l Hle Hfuel.
  - assert (E : lastIndex l = String.length fullText) by lia.
    simpl. destruct (codeBlockRegex_exec fullText (lastIndex l)) as [m|] eqn:X.
    + apply codeBlockRegex_match in X as (g & _ & _ & _ & _ & ? & ? & ? & _).
      pose proof (region_length g). lia.
    + exists l. split; [reflexivity|].
      destruct (appendTextAfter_spec fullText l) as [H1 H2].
      cbn [flat_map concatText pieceText].
      rewrite H1, H2, app_nil_r, append_nil_r. auto.
  - simpl. destruct (codeBlockRegex_exec fullText (lastIndex l)) as [m|] eqn:X.
    + pose proof X as X'.
      apply codeBlockRegex_match in X'
        as (g & _ & Hm & _ & _ & Hfrom & Hlast & Hend & Hdrop).
      pose proof (region_length g) as Hlen.
      destruct (IH (loopBody fullText m l)) as (l' & Hl' & Hch & Hca & Hcat);
        [simpl; lia | simpl; lia |].
      exists l'. split; [exact Hl'|].
      destruct (appendTextBefore_spec fullText m l Hfrom) as [Hb1 Hb2].
      destruct (appendCodeBlock_spec fullText m (appendTextBefore fullText m l))
        as [Hc1 Hc2].
      cbn [lastIndex loopBody children contentAdded] in Hch, Hca, Hcat.
      cbn [concatText flat_map pieceText].
      rewrite Hch, Hca, Hcat, Hc1, Hc2, Hb1, Hb2, !isNil_app.
      repeat split.
      * now rewrite <- !app_assoc.
      * now rewrite !orb_assoc.
      * now rewrite Hm, Hdrop.
    + exists l. split; [reflexivity|].
      destruct (appendTextAfter_spec fullText l) as [H1 H2].
      cbn [flat_map concatText pieceText].
      rewrite H1, H2, app_nil_r, append_nil_r. auto.
Qed.

(** The scan always ends, the pieces are the whole text in order, and what
    is appended to the node is what the pieces show as. *)
Lemma formatAndDisplayAIResponse_pieces (fullText : string) :
  concatText fullText (piecesOf fullText) = fullText /\
  formatAndDisplayAIResponse fullText = Some (shown fullText).
Proof.
  destruct (whileLoop_pieces (String.length fullText) fullText (mkLocals 0 [] false))
    as (l' & Hl' & Hch & Hca & Hcat); simpl; try lia.
  simpl in Hch, Hca, Hcat. split; [exact Hcat|].
  unfold formatAndDisplayAIResponse, shown, piecesOf. rewrite Hl'. f_equal.
  unfold appendFallback. rewrite Hca.
  destruct (flat_map (pieceSegments fullText)
              (pieces (String.length fullText) fullText 0)) eqn:E;
    simpl; rewrite Hch; reflexivity.
Qed.

Lemma pieces_In (fuel : nat) (fullText : string) (m : Match) :
  forall from, In (Fenced m) (pieces fuel fullText from) ->
    exists from', codeBlockRegex_exec fullText from' = Some m.
Proof.
  induction fuel as [|fuel IH]; intros from H; simpl in H;
    destruct (codeBlockRegex_exec fullText from) as [m0|] eqn:X.
  - contradiction.
  - destruct H as [H | []]. discriminate.
  - destruct H as [H | [H | H]]; [discriminate | | eauto].
    injection H as <-. eauto.
  - destruct H as [H | []]. discriminate.
Qed.

Lemma wordChar_not_space (c : ascii) : isWordChar c = true -> isWhiteSpace c = false.
Proof.
  destruct c as [[] [] [] [] [] [] [] []]; vm_compute; congruence.
Qed.

Lemma trimStart_word (t : string) : every isWordChar t = true -> trimStart t = t.
Proof.
  destruct t as [|c t]; simpl; [reflexivity|].
  intros H. apply andb_prop in H as [Hc _].
  now rewrite (wordChar_not_space c Hc).
Qed.

Lemma trimEnd_word (t : string) : every isWordChar t = true -> trimEnd t = t.
Proof.
  induction t as [|c t IH]; simpl; [reflexivity|].
  intros H. apply andb_prop in H as [Hc Ht]. rewrite (IH Ht).
  destruct t; [now rewrite (wordChar_not_space c Hc) | reflexivity].
Qed.

Lemma trim_word (t : string) : every isWordChar t = true -> trim t = t.
Proof.
  intros H. unfold trim. rewrite (trimStart_word t H). now apply trimEnd_word.
Qed.

(** A blank text has no fence in it. *)
Lemma blank_no_match (fullText : string) (from : nat) :
  blank fullText = true -> codeBlockRegex_exec fullText from = None.
Proof.
  intros B. destruct (codeBlockRegex_exec fullText from) as [m|] eqn:X; [|reflexivity].
  apply codeBlockRegex_match in X as (g & _ & _ & _ & _ & _ & _ & _ & Hdrop).
  rewrite <- (take_drop from fullText), blank_append in B.
  apply andb_prop in B as [_ B]. rewrite Hdrop, !blank_append in B.
  apply andb_prop in B as [_ B]. apply andb_prop in B as [B _].
  unfold regionText in B. simpl in B. discriminate.
Qed.

(** *** The tag of a region *)

Lemma codeBlockRegex_parts :
  codeBlockRegex =
    Cat (lit fence) (Cat (Grp 1 (Star true (Class isWordChar))) afterTag).
Proof. reflexivity. Qed.

(** What follows the tag succeeds wherever a closing marker is still to
    come. *)
Lemma afterTag_complete (z : MState) (u tail : string) :
  rest z = u ++ fence ++ tail ->
  compile false afterTag z (fun y => Some y) <> None.
Proof.
  intros H. unfold afterTag.
  change (compile false (Cat (Star true (Class isWhiteSpace)) ?r) z ?c)
    with (repeatMatcher (String.length (rest z)) (charMatcher isWhiteSpace) true z
            (fun y => compile false r y c)).
  apply greedy_star_zero.
  change (compile false (Cat (Quest true (Chr newline)) ?r) z ?c)
    with (compile false (Quest true (Chr newline)) z (fun y => compile false r y c)).
  apply greedy_quest_zero.
  change (compile false (Cat (Grp 2 (Star false (Class (fun _ => true)))) ?r) z ?c)
    with (repeatMatcher (String.length (rest z)) (charMatcher (fun _ => true)) false z
            (fun y => compile false r (close 2 z y) c)).
  apply (lazy_any_complete u _ z _ (fence ++ tail) H).
  { rewrite H, length_append. lia. }
  destruct (advanceBy_consumes u z (fence ++ tail) H) as [[R E] C].
  assert (Hrest : rest (close 2 z (advanceBy z u)) = fence ++ tail).
  { simpl. rewrite H in R. symmetry. now apply (append_cancel_l u). }
  set (y := close 2 z (advanceBy z u)) in *.
  change (compile false (Cat (Quest true (Chr newline)) ?r) y ?c)
    with (compile false (Quest true (Chr newline)) y (fun y' => compile false r y' c)).
  apply greedy_quest_zero.
  change (compile false (Cat (Star true (Class isWhiteSpace)) ?r) y ?c)
    with (repeatMatcher (String.length (rest y)) (charMatcher isWhiteSpace) true y
            (fun y' => compile false r y' c)).
  apply greedy_star_zero.
  rewrite (lit_complete fence y _ tail Hrest). discriminate.
Qed.

(** Where what follows the tag succeeds, a closing marker is to come. *)
Lemma afterTag_shape (z res : MState) :
  compile false afterTag z (fun y => Some y) = Some res ->
  exists u,
    rest z = u ++ fence ++ rest res /\
    exists a b, captures res = (2, (a, b)) :: captures z.
Proof.
  intros H. apply compile_sound in H as (y & Hspan & Hy). injection Hy as ->.
  unfold afterTag in Hspan.
  apply Span_cat_inv in Hspan as (x3 & H3 & Hspan).
  apply Span_cat_inv in Hspan as (x4 & H4 & Hspan).
  apply Span_cat_inv in Hspan as (x5 & H5 & Hspan).
  apply Span_cat_inv in Hspan as (x6 & H6 & Hspan).
  apply Span_cat_inv in Hspan as (x7 & H7 & H8).
  apply Span_star_class in H3 as (wa & K3 & _ & C3).
  apply Span_quest_chr in H4 as (na & K4 & _ & C4).
  apply Span_grp_inv in H5 as (y5 & H5 & ->).
  apply Span_star_class in H5 as (b & K5 & _ & C5).
  apply Span_quest_chr in H6 as (nb & K6 & _ & C6).
  apply Span_star_class in H7 as (wb & K7 & _ & C7).
  apply Span_lit in H8 as [K8 C8].
  assert (K5' : consumes x4 (close 2 x4 y5) b) by exact K5.
  pose proof (consumes_trans _ _ _ _ _ K3
               (consumes_trans _ _ _ _ _ K4
                 (consumes_trans _ _ _ _ _ K5'
                   (consumes_trans _ _ _ _ _ K6 K7)))) as [R _].
  destruct K8 as [R8 _].
  exists (wa ++ na ++ b ++ nb ++ wb). split.
  - now rewrite R, R8.
  - exists (endIndex x4), (endIndex y5).
    rewrite C8, C7, C6. simpl. now rewrite C5, C4, C3.
Qed.


End SegmenterFacts.

(** ** The segmenter and its specification *)

Module SegmenterClaims.

Import JS JSFacts RegExp RegExpFacts Segmenter SegmenterFacts SegmenterSpec.
Local Open Scope string_scope.
Local Open Scope nat_scope.

(** C2. The example of the specification: a line of prose, a fenced block
    tagged [js], a line of prose give exactly those three segments. *)
Theorem segment_example :
  formatAndDisplayAIResponse ex_spec
  = Some [Prose "Here:"; Code "js" "console.log(1)"; Prose "done"].
Proof. vm_compute. reflexivity. Qed.


(** A matched region, piece by piece: its shape, its tag, the text between
    tag and closing marker, and what it shows as. *)
Lemma fenced_region_facts (fullText : string) (m : Match) :
  In (Fenced m) (piecesOf fullText) ->
  exists g : Region,
    wellFormed g /\
    matched fullText m = regionText g /\
    declaredTag fullText m = tag g /\
    fencedText fullText m = gap1 g ++ body g ++ gap2 g /\
    languageOf fullText m = orElse (declaredTag fullText m) "plaintext" /\
    codeContentOf fullText m = trim (fencedText fullText m) /\
    pieceSegments fullText (Fenced m) =
      (if blank (fencedText fullText m) then []
       else [Code (languageOf fullText m) (codeContentOf fullText m)]).
Proof.
  intros Hin. pose proof Hin as Hex.
  apply pieces_In in Hex as (from & X).
  apply codeBlockRegex_match in X
    as (g & Hwf & Hm & G1 & G2 & Hfrom & Hlast & Hend & Hdrop).
  destruct Hwf as (Wt & W1 & W2).
  assert (Htag : declaredTag fullText m = tag g).
  { unfold declaredTag. now rewrite G1. }
  assert (Hinner : fencedText fullText m = gap1 g ++ body g ++ gap2 g).
  { unfold fencedText. rewrite Htag.
    assert (Hd : drop (index m) fullText =
                 regionText g ++ drop (lastIndexOf m) fullText).
    { unfold matched in Hm. rewrite substring_le in Hm by lia.
      rewrite <- (take_drop (lastIndexOf m - index m) (drop (index m) fullText)).
      rewrite Hm, drop_drop. do 2 f_equal. lia. }
    unfold regionText in Hd, Hlast.
    assert (Hd' : drop (index m + 3 + String.length (tag g)) fullText =
                  (gap1 g ++ body g ++ gap2 g)
                    ++ (fence ++ drop (lastIndexOf m) fullText)).
    { replace (index m + 3 + String.length (tag g))
        with (index m + String.length (fence ++ tag g))
        by (rewrite length_append; simpl; lia).
      apply drop_span with (t := (gap1 g ++ body g ++ gap2 g)
                                   ++ fence ++ drop (lastIndexOf m) fullText).
      rewrite Hd. now rewrite !append_assoc. }
    rewrite <- (substring_span _ _ _ _ Hd'). f_equal.
    rewrite Hlast, !length_append. simpl. lia. }
  assert (Hlang : languageOf fullText m = orElse (declaredTag fullText m) "plaintext").
  { unfold languageOf. rewrite Htag, G1. now rewrite (trim_word _ Wt). }
  assert (Hcode : codeContentOf fullText m = trim (fencedText fullText m)).
  { unfold codeContentOf. rewrite G2, Hinner. symmetry. now apply trim_pad. }
  exists g. repeat split; auto.
  simpl. rewrite Hcode at 1. rewrite trim_truthy_blank.
  now destruct (blank (fencedText fullText m)).
Qed.



















End SegmenterClaims.

(** ** Markdown rendering *)

Module MarkdownFacts.

Import JS JSFacts RegExp RegExpFacts SegmenterFacts Markdown.
Local Open Scope string_scope.
Local Open Scope nat_scope.

Lemma Span_lit_length (i : bool) (s : string) :
  forall x y, Span i (lit s) x y -> endIndex y = endIndex x + String.length s.
Proof.
  induction s as [|ch s IH]; intros x y H; simpl in H.
  - inversion H; subst. simpl. lia.
  - apply Span_cat_inv in H as (z & H1 & H2).
    inversion H1; subst. apply IH in H2. simpl in *. lia.
Qed.

(** A match of [scriptRegex] is not empty. *)
Lemma scriptRegex_progress (text : string) (pos : nat) (m : Match) :
  exec true scriptRegex text pos = Some m ->
  pos < lastIndexOf m /\ lastIndexOf m <= String.length text.
Proof.
  intros H. apply exec_bounds in H as (Hfrom & _ & Hend & x0 & E0 & Hspan).
  unfold scriptRegex in Hspan. apply Span_cat_inv in Hspan as (x1 & H1 & H2).
  apply Span_lit_length in H1. simpl in H1.
  destruct (Span_consumes _ _ _ _ H2) as (w & _ & E).
  unfold lastIndexOf in *. lia.
Qed.

Lemma replaceFrom_total (fuel : nat) (text : string) :
  forall pos, pos <= String.length text -> String.length text - pos <= fuel ->
    exists s, replaceFrom fuel text pos = Some s.
Proof.
  induction fuel as [|fuel IH]; intros pos Hle Hfuel; simpl;
    destruct (exec true scriptRegex text pos) as [m|] eqn:X; eauto.
  - apply scriptRegex_progress in X. lia.
  - apply scriptRegex_progress in X as [Hlt Hend].
    destruct (IH (lastIndexOf m)) as [tail ->]; [lia | lia | eauto].
Qed.

(** The removal of script blocks always gives a text. *)
Lemma removeScripts_total (text : string) : exists s, removeScripts text = Some s.
Proof. apply replaceFrom_total; lia. Qed.

(** [parseMarkdown] never fails: it is the conversion of the text without
    the matches of [scriptRegex], or, when the conversion throws, the text
    it was given. *)
Lemma parseMarkdown_spec (marked_parse : string -> option string) (text : string) :
  exists sanitizedText,
    removeScripts text = Some sanitizedText /\
    parseMarkdown marked_parse text =
      match marked_parse sanitizedText with
      | Some html => html
      | None => text
      end.
Proof.
  destruct (removeScripts_total text) as [s Hs].
  exists s. split; [exact Hs|]. unfold parseMarkdown. now rewrite Hs.
Qed.

(** C10. One pass of the removal takes the inner block out of
    [nested_script] and leaves a script block, which is what the converter
    is given; a converter that lets markup through gives it back, and when
    the converter throws the text comes back with its script block. *)
Theorem parseMarkdown_keeps_script :
  removeScripts script_block = Some "" /\
  removeScripts nested_script = Some script_block /\
  parseMarkdown (fun s => Some s) nested_script = script_block /\
  parseMarkdown (fun _ => None) script_block = script_block.
Proof. repeat split; vm_compute; reflexivity. Qed.

End MarkdownFacts.

(** ** The controller *)

Module ControllerFacts.

Import JS JSFacts.
Local Open Scope string_scope.
Local Open Scope nat_scope.

#[local] Opaque Markdown.parseMarkdown showZ Segmenter.formatAndDisplayAIResponse
  JS.trim String.append.

(** The keyword scan takes the first keyword the message starts with. *)
Lemma scanKeywords_find (keywords : list string) (lower text : string) :
  scanKeywords keywords lower text =
    match List.find (fun k => startsWith lower k) keywords with
    | Some keyword => (true, trim (substringFrom (String.length keyword) text))
    | None => (false, "")
    end.
Proof.
  induction keywords as [|k ks IH]; simpl; [reflexivity|].
  destruct (startsWith lower k); [reflexivity | exact IH].
Qed.

Lemma classify_find (text : string) :
  classify text =
    match List.find (fun k => startsWith (toLowerCase text) k)
            IMAGE_GENERATION_KEYWORDS with
    | Some keyword =>
        let imagePrompt := trim (substringFrom (String.length keyword) text) in
        if truthy imagePrompt then ImagePath imagePrompt else TextPath text
    | None => TextPath text
    end.
Proof.
  unfold classify. rewrite scanKeywords_find.
  destruct (find _ IMAGE_GENERATION_KEYWORDS); reflexivity.
Qed.

Section WithWorld.

Variable API_KEY : option string.
Variable marked_parse : string -> option string.
Variable now : nat -> Z.

(** What [handleSendMessage] does to an accepted input. *)
Lemma handleSendMessage_accepted (a : App) :
  truthyOpt API_KEY = true ->
  truthy (trim (messageInput_value a)) = true ->
  let text := trim (messageInput_value a) in
  let userMessage :=
    mkMessage ("user-" ++ showZ (now (clock a))) user (Some text) None None false
      (now (S (clock a))) in
  exists (p : Pending) (bubble : MessageDiv) (a' : App),
    handleSendMessage API_KEY marked_parse now a = (Some p, a') /\
    p = match classify text with
        | ImagePath imagePrompt => AwaitGenerateImages (S (nextRef a)) imagePrompt
        | TextPath t => AwaitSendMessageStream (S (nextRef a)) t
        end /\
    localStorage a' = Some (loadChatHistory a ++ [userMessage])%list /\
    chatContainer a' =
      (chatContainer a ++
        [(nextRef a,
          mkDiv (id userMessage) user false
            [MarkdownContent false (parseMarkdown marked_parse text)]);
         (S (nextRef a), bubble)])%list /\
    nextRef a' = S (S (nextRef a)) /\
    messageInput_value a' = "" /\
    messageInput_disabled a' = true /\
    sendButton_disabled a' = true /\
    chat a' = chat a /\
    clock a' = S (S (S (S (clock a)))).
Proof.
  intros HK HT. unfold handleSendMessage. rewrite HK. cbn [negb].
  destruct a as [ls cc nr v d1 d2 st ab ch clk]. cbn [messageInput_value] in *.
  cbv beta zeta delta [bind get]. cbn [messageInput_value]. rewrite HT. cbn [negb].
  destruct (classify (trim v)) as [imagePrompt | t];
    cbn; rewrite HT; cbn;
    eexists _, _, _; (split; [reflexivity|]); cbn;
    repeat split; rewrite <- app_assoc; reflexivity.
Qed.

Ltac run_page a :=
  destruct a as [ls cc nr v d1 d2 st ab ch clk]; cbn;
  eexists; (split; [reflexivity|]); cbn; repeat split.

Lemma final_finishes (b : NodeRef) (acc : string) (first : bool) (a : App) :
  finishesWith marked_parse now (AwaitNextChunk b acc first) StreamEnd a
    (mkMessage ("ai-" ++ showZ (now (clock a))) model
       (Some (orElse (trim acc) emptyResponseMarker)) None None false
       (now (S (clock a)))).
Proof. unfold finishesWith, settledBy. run_page a. Qed.

Lemma chunk_rejected_finishes (b : NodeRef) (acc : string) (first : bool)
    (error : Thrown) (a : App) :
  finishesWith marked_parse now (AwaitNextChunk b acc first) (Rejected error) a (textError now error a).
Proof.
  unfold finishesWith, settledBy, textError.
  destruct a as [ls cc nr v d1 d2 st ab ch clk].
  unfold resume, handleTextMessage_catch, bind, get, contains. cbn.
  destruct (existsb (fun kd => fst kd =? b) cc); cbn;
    eexists; (split; [reflexivity|]); cbn; repeat split.
Qed.

Lemma open_rejected_finishes (b : NodeRef) (text : string) (error : Thrown) (a : App) :
  finishesWith marked_parse now (AwaitSendMessageStream b text) (Rejected error) a (textError now error a).
Proof.
  unfold finishesWith, settledBy, textError.
  destruct a as [ls cc nr v d1 d2 st ab ch clk].
  unfold resume, handleTextMessage_catch, bind, get, contains. cbn.
  destruct (existsb (fun kd => fst kd =? b) cc); cbn;
    eexists; (split; [reflexivity|]); cbn; repeat split.
Qed.

Lemma image_rejected_finishes (b : NodeRef) (prompt : string) (error : Thrown) (a : App) :
  finishesWith marked_parse now (AwaitGenerateImages b prompt) (Rejected error) a (imageError now error a).
Proof. unfold finishesWith, settledBy, imageError. run_page a. Qed.

Lemma image_response_finishes (b : NodeRef) (prompt : string)
    (response : GenerateImagesResponse) (a : App) :
  finishesWith marked_parse now (AwaitGenerateImages b prompt) (ImagesResponse response) a
    (imageMessage now prompt response a).
Proof.
  unfold finishesWith, settledBy, imageMessage, imageError.
  destruct a as [ls cc nr v d1 d2 st ab ch clk].
  unfold resume, handleImageGeneration_response, bind. cbn.
  destruct (firstImageBytes response) as [error | [bytes|]]; cbn;
    eexists; (split; [reflexivity|]); cbn; repeat split.
Qed.

Lemma map_fst_update (b : NodeRef) (f : MessageDiv -> MessageDiv)
    (l : list (NodeRef * MessageDiv)) :
  map fst (map (fun kd => if fst kd =? b then (fst kd, f (snd kd)) else kd) l)
    = map fst l.
Proof.
  rewrite map_map. apply map_ext. intros [k d]; cbn. now destruct (k =? b).
Qed.

(** A chunk changes the placeholder node and nothing else. *)
Lemma chunk_step (b : NodeRef) (acc : string) (first : bool)
    (chunkText : option string) (a : App) :
  exists a',
    resume marked_parse now (AwaitNextChunk b acc first) (Chunk chunkText) a
      = (Some (AwaitNextChunk b
                 (if truthyOpt chunkText then acc ++ valueOf chunkText else acc) true),
         a') /\
    localStorage a' = localStorage a /\
    nextRef a' = nextRef a /\
    messageInput_value a' = messageInput_value a /\
    messageInput_disabled a' = messageInput_disabled a /\
    sendButton_disabled a' = sendButton_disabled a /\
    statusMessage a' = statusMessage a /\
    chat a' = chat a /\
    clock a' = clock a /\
    map fst (chatContainer a') = map fst (chatContainer a).
Proof.
  destruct a as [ls cc nr v d1 d2 st ab ch clk].
  unfold resume, handleTextMessage_chunk, bind, updateNode, modify, ret.
  destruct chunkText as [[|c t]|], first; cbn;
    eexists; (split; [reflexivity|]); cbn;
    rewrite ?map_map; cbn; repeat split;
    apply map_ext; intros [k d]; cbn;
    repeat (destruct (k =? b); cbn; try reflexivity).
Qed.

Lemma settledBy_frame (a0 a a' : App) (m : StoredMessage) :
  localStorage a = localStorage a0 ->
  messageInput_value a = messageInput_value a0 ->
  chat a = chat a0 ->
  settledBy a a' m -> settledBy a0 a' m.
Proof.
  unfold settledBy, loadChatHistory. intros H1 H2 H3 (S1 & S2 & S3 & S4 & S5 & S6 & S7).
  rewrite <- H1, <- H2, <- H3. auto 10.
Qed.

Lemma stream_settles (chunks : list (option string)) (failure : option Thrown) :
  forall (b : NodeRef) (acc : string) (first : bool) (a : App),
  exists a',
    settleAll marked_parse now (AwaitNextChunk b acc first)
      (map Chunk chunks
         ++ [match failure with Some error => Rejected error | None => StreamEnd end])%list
      a = (None, a') /\
    settledBy a a' (streamMessage now acc chunks failure a).
Proof.
  induction chunks as [|c chunks IH]; intros b acc first a.
  - cbn [map]. rewrite app_nil_l. cbn [settleAll]. unfold bind.
    destruct failure as [error|]; cbn [accumulate streamMessage].
    + destruct (chunk_rejected_finishes b acc first error a) as (a' & -> & H). exists a'. split; [reflexivity | exact H].
    + destruct (final_finishes b acc first a) as (a' & -> & H). exists a'. split; [reflexivity | exact H].
  - cbn [map]. rewrite <- app_comm_cons. cbn [settleAll]. unfold bind.
    destruct (chunk_step b acc first c a)
      as (a1 & -> & L & N & V & D1 & D2 & St & Ch & Ck & _).
    destruct (IH b (if truthyOpt c then acc ++ valueOf c else acc) true a1)
      as (a' & -> & H).
    exists a'. split; [reflexivity|].
    apply (settledBy_frame a a1 a'); auto.
    cbn [accumulate].
    unfold streamMessage, replyMessage, textError in *. now rewrite Ck in H.
Qed.

Lemma request_settles (svc : Service) (p : Pending) (a : App) :
  (forall b acc first, p <> AwaitNextChunk b acc first) ->
  exists a',
    settleAll marked_parse now p (settlements svc p) a = (None, a') /\
    settledBy a a' (outcomeMessage now svc p a).
Proof.
  intros Hp. destruct p as [b text | b acc first | b prompt];
    [| exfalso; eapply Hp; reflexivity |]; cbn [settlements outcomeMessage].
  - destruct (sendMessageStream svc text) as [error | chunks failure];
      cbn [streamSettlements].
    + cbn [settleAll]. unfold bind.
      destruct (open_rejected_finishes b text error a) as (a' & -> & H). exists a'. split; [reflexivity | exact H].
    + change (settleAll marked_parse now (AwaitSendMessageStream b text)
                (StreamOpened :: ?l) a)
        with (settleAll marked_parse now (AwaitNextChunk b "" false) l a).
      apply stream_settles.
  - cbn [settleAll]. unfold bind.
    destruct (generateImages svc prompt) as [error | response].
    + destruct (image_rejected_finishes b prompt error a) as (a' & -> & H). exists a'. split; [reflexivity | exact H].
    + destruct (image_response_finishes b prompt response a) as (a' & -> & H). exists a'. split; [reflexivity | exact H].
Qed.

Lemma outcomeMessage_kind (svc : Service) (p : Pending) (a : App) :
  exists k, kindOf (outcomeMessage now svc p a) = Some k.
Proof.
  destruct p as [b text | b acc first | b prompt]; cbn [outcomeMessage].
  - destruct (sendMessageStream svc text) as [error | chunks [error|]];
      cbn; eauto.
  - cbn; eauto.
  - destruct (generateImages svc prompt) as [error | response]; [cbn; eauto|].
    unfold imageMessage.
    destruct (firstImageBytes response) as [error | [bytes|]]; cbn; eauto.
Qed.

(** An accepted turn, with what it leaves behind. *)
Lemma turn_accepted (svc : Service) (a : App) :
  truthyOpt API_KEY = true ->
  truthy (trim (messageInput_value a)) = true ->
  exists (a1 a' : App),
    handleSendMessage API_KEY marked_parse now a = (Some (requestOf a), a1) /\
    clock a1 = S (S (S (S (clock a)))) /\
    turn API_KEY marked_parse now svc a = (None, a') /\
    localStorage a' =
      Some (loadChatHistory a
              ++ [userMessageOf now a; outcomeMessage now svc (requestOf a) a1])%list /\
    messageInput_value a' = "" /\
    messageInput_disabled a' = false /\
    sendButton_disabled a' = false /\
    statusMessage a' = None /\
    chat a' = chat a.
Proof.
  intros HK HT.
  destruct (handleSendMessage_accepted a HK HT)
    as (p & bubble & a1 & Hsend & Hp & Hls & Hcc & Hnr & Hv & Hd1 & Hd2 & Hch & Hclk).
  assert (Hreq : p = requestOf a) by exact Hp. clear Hp. subst p.
  destruct (request_settles svc (requestOf a) a1)
    as (a' & Hsettle & S1 & S2 & S3 & S4 & S5 & S6 & S7).
  { unfold requestOf. destruct (classify _); discriminate. }
  exists a1, a'. unfold turn, bind. rewrite Hsend. cbv beta iota. rewrite Hsettle.
  repeat split; auto; try congruence.
  rewrite S1. unfold loadChatHistory at 1. rewrite Hls.
  now rewrite <- app_assoc.
Qed.

End WithWorld.


End ControllerFacts.

(** ** Failure, replay and serialization *)

Module TurnFacts.

Import JS JSFacts ControllerFacts.
Local Open Scope string_scope.
Local Open Scope nat_scope.

#[local] Opaque Markdown.parseMarkdown showZ Segmenter.formatAndDisplayAIResponse
  JS.trim String.append.

Lemma without_absent (b : NodeRef) (l : list (NodeRef * MessageDiv)) :
  existsb (fun kd => fst kd =? b) l = false -> without b l = l.
Proof.
  unfold without. induction l as [|[k d] l IH]; cbn; [reflexivity|].
  destruct (k =? b); cbn; [discriminate|]. intros H. now rewrite (IH H).
Qed.

Lemma without_not_In (b : NodeRef) (l : list (NodeRef * MessageDiv)) :
  existsb (fun kd => fst kd =? b) (without b l) = false.
Proof.
  unfold without. induction l as [|[k d] l IH]; cbn; [reflexivity|].
  destruct (k =? b) eqn:E; cbn; [exact IH | now rewrite E, IH].
Qed.

(** C7. When the stream fails after it was opened, whatever text had
    arrived by then: the call returns; the placeholder node is taken off the
    page and a new node, the error's, is put at the end; the error message,
    and nothing else, is added to the store.  The outcome is the same
    whatever text had arrived: none of it is kept. *)
Theorem mid_stream_failure_replaces_placeholder
    (marked_parse : string -> option string) (now : nat -> Z)
    (b : NodeRef) (acc : string) (first : bool) (error : Thrown) (a : App) :
  b < nextRef a ->
  let errorMsg := textError now error a in
  exists a',
    resume marked_parse now (AwaitNextChunk b acc first) (Rejected error) a
      = (None, a') /\
    resume marked_parse now (AwaitNextChunk b "" false) (Rejected error) a
      = (None, a') /\
    chatContainer a' =
      (without b (chatContainer a)
         ++ [(nextRef a, errorNode marked_parse errorMsg)])%list /\
    contains b a' = false /\
    localStorage a' = Some (loadChatHistory a ++ [errorMsg])%list /\
    role errorMsg = model /\
    isError errorMsg = true /\
    textContent errorMsg =
      Some (errorMessageOr error "Could not get a response from the AI.") /\
    messageInput_disabled a' = false /\
    sendButton_disabled a' = false.
Proof.
  intros Hb. destruct a as [ls cc nr v d1 d2 st ab ch clk]. cbn in Hb.
  unfold resume, handleTextMessage_catch, bind, get, contains, textError,
    errorNode, without.
  cbn.
  assert (Hnew : (nr =? b) = false) by (apply Nat.eqb_neq; lia).
  pose proof (without_not_In b cc) as Wn. unfold without in Wn.
  pose proof (without_absent b cc) as Wa. unfold without in Wa.
  destruct (existsb (fun kd => fst kd =? b) cc) eqn:E; cbn;
    eexists; (split; [reflexivity|]); (split; [reflexivity|]); cbn;
    repeat split;
    rewrite ?(Wa eq_refl); try reflexivity;
    rewrite existsb_app; cbn; rewrite Hnew, !orb_false_r;
    first [exact Wn | exact E].
Qed.

Lemma upstreamContext_app (h1 h2 : list StoredMessage) :
  upstreamContext (h1 ++ h2) = (upstreamContext h1 ++ upstreamContext h2)%list.
Proof. unfold upstreamContext. now rewrite filter_app, map_app. Qed.

Lemma forEachStored_context (marked_parse : string -> option string)
    (history : list StoredMessage) :
  forall (geminiHistory : list Content) (a : App),
    fst (forEachStored marked_parse history geminiHistory a)
      = (geminiHistory ++ upstreamContext history)%list /\
    chat (snd (forEachStored marked_parse history geminiHistory a)) = chat a /\
    localStorage (snd (forEachStored marked_parse history geminiHistory a))
      = localStorage a.
Proof.
  induction history as [|msg history IH]; intros g a.
  - cbn. now rewrite app_nil_r.
  - cbn [forEachStored]. unfold bind.
    destruct (addMessageToChat marked_parse msg false a) as [r a1] eqn:E.
    assert (Ha1 : chat a1 = chat a /\ localStorage a1 = localStorage a).
    { unfold addMessageToChat, appendChild in E. injection E as _ <-.
      destruct a; split; reflexivity. }
    destruct Ha1 as [Hc Hl].
    change (msg :: history) with ([msg] ++ history)%list.
    rewrite upstreamContext_app, app_assoc.
    assert (Hstep :
      (match textContent msg with
       | Some t =>
           if truthy t && negb (isError msg)
           then (g ++ [mkContent (role msg) t])%list else g
       | None => g
       end) = (g ++ upstreamContext [msg])%list).
    { unfold upstreamContext, replayable, toContent.
      destruct msg as [i r0 [t|] iu al ie ts]; cbn; [|now rewrite app_nil_r].
      destruct (truthy t && negb ie); cbn;
        [reflexivity | now rewrite app_nil_r]. }
    rewrite Hstep.
    destruct (IH (g ++ upstreamContext [msg])%list a1) as (H1 & H2 & H3).
    rewrite H1, H2, H3, Hc, Hl. repeat split.
Qed.

Lemma populateChatFromHistory_context (marked_parse : string -> option string) (a : App) :
  chat (exec_ (populateChatFromHistory marked_parse) a)
    = Some (upstreamContext (loadChatHistory a)).
Proof.
  unfold exec_, populateChatFromHistory, bind, get, initializeChat, modify.
  destruct (forEachStored marked_parse (loadChatHistory a) [] a) as [g a1] eqn:E.
  destruct (forEachStored_context marked_parse (loadChatHistory a) [] a) as (H1 & _).
  rewrite E in H1. cbn in H1. subst g. destruct a1; reflexivity.
Qed.

Lemma loaded_context (API_KEY : option string) (marked_parse : string -> option string)
    (now : nat -> Z) (storage : option (list StoredMessage)) (value : string) :
  chat (loaded API_KEY marked_parse now storage value)
    = Some (upstreamContext (stored storage)).
Proof.
  unfold loaded, pageLoad, exec_.
  unfold bind at 1.
  match goal with
  | |- chat (snd (let (_, s') := ?first ?a0 in _)) = _ =>
      destruct (first a0) as [u a1] eqn:E;
      assert (Hls : localStorage a1 = storage)
  end.
  { destruct (truthyOpt API_KEY); cbn in E; injection E as _ <-; reflexivity. }
  change (chat (exec_ (populateChatFromHistory marked_parse) a1)
            = Some (upstreamContext (stored storage))).
  rewrite populateChatFromHistory_context. unfold loadChatHistory, stored.
  now rewrite Hls.
Qed.

Lemma truthy_orElse_marker (s : string) : truthy (orElse s emptyResponseMarker) = true.
Proof. unfold orElse. destruct (truthy s) eqn:E; [exact E | reflexivity]. Qed.

(** C8. The context the session starts with is the stored messages that
    have a text and are not errors, in stored order.  After [hi] was sent
    and the stream has ended, a reload rebuilds the context of before,
    followed by the user's [hi] and the reply of the model. *)
Theorem replay_rebuilds_context
    (API_KEY : option string) (marked_parse : string -> option string)
    (now now' : nat -> Z) :
  (forall storage value,
     chat (loaded API_KEY marked_parse now storage value)
       = Some (map toContent (filter replayable (stored storage)))) /\
  (forall (svc : Service) (a : App) (chunks : list (option string)) (value : string),
     truthyOpt API_KEY = true ->
     trim (messageInput_value a) = "hi" ->
     sendMessageStream svc "hi" = Opened chunks None ->
     exists a',
       turn API_KEY marked_parse now svc a = (None, a') /\
       chat (loaded API_KEY marked_parse now' (localStorage a') value)
         = Some (upstreamContext (loadChatHistory a)
                   ++ [mkContent user "hi";
                       mkContent model
                         (orElse (trim (accumulate "" chunks))
                                 "[AI gave an empty response]")])%list).
Proof.
  split; [intros; apply loaded_context|].
  intros svc a chunks value HK Hhi Hsvc.
  destruct (turn_accepted API_KEY marked_parse now svc a HK)
    as (a1 & a' & _ & _ & Hturn & Hls & _).
  { now rewrite Hhi. }
  exists a'. split; [exact Hturn|].
  rewrite loaded_context, Hls. cbn [stored]. f_equal.
  rewrite upstreamContext_app. f_equal.
  unfold requestOf, userMessageOf. rewrite Hhi.
  change (classify "hi") with (TextPath "hi").
  cbn [outcomeMessage]. rewrite Hsvc. cbn [streamMessage].
  unfold upstreamContext, replayable, toContent, replyMessage. cbn.
  now rewrite (truthy_orElse_marker (trim (accumulate "" chunks))).
Qed.

Section Serialization.

Variable API_KEY : option string.
Variable marked_parse : string -> option string.
Variable now : nat -> Z.

(** What [handleSendMessage] does to the input and the button: when it
    starts no request it leaves them as they are, and when it starts one it
    has the key, disables both and empties the input. *)
Lemma handleSendMessage_flags (a : App) :
  match fst (handleSendMessage API_KEY marked_parse now a) with
  | None =>
      messageInput_disabled (snd (handleSendMessage API_KEY marked_parse now a))
        = messageInput_disabled a /\
      sendButton_disabled (snd (handleSendMessage API_KEY marked_parse now a))
        = sendButton_disabled a
  | Some _ =>
      messageInput_disabled (snd (handleSendMessage API_KEY marked_parse now a)) = true /\
      sendButton_disabled (snd (handleSendMessage API_KEY marked_parse now a)) = true /\
      messageInput_value (snd (handleSendMessage API_KEY marked_parse now a)) = "" /\
      truthyOpt API_KEY = true
  end.
Proof.
  destruct (truthyOpt API_KEY) eqn:HK.
  - destruct (truthy (trim (messageInput_value a))) eqn:HT.
    + destruct (handleSendMessage_accepted API_KEY marked_parse now a HK HT)
        as (p & bubble & a' & -> & _ & _ & _ & _ & Hv & Hd1 & Hd2 & _).
      cbn [fst snd]. auto.
    + unfold handleSendMessage. rewrite HK. cbn [negb]. unfold bind, get.
      rewrite HT. cbn. auto.
  - unfold handleSendMessage. rewrite HK. cbn [negb].
    destruct a; cbn. auto.
Qed.

(** A blank input is turned away, and the page is as it was. *)
Lemma handleSendMessage_blank (a : App) :
  truthyOpt API_KEY = true ->
  truthy (trim (messageInput_value a)) = false ->
  handleSendMessage API_KEY marked_parse now a = (None, a).
Proof.
  intros HK HT. unfold handleSendMessage. rewrite HK. cbn [negb]. unfold bind, get.
  now rewrite HT.
Qed.

(** What a settlement does to the input and the button. *)
Lemma resume_flags (p : Pending) (r : Settled) (a : App) :
  answers p r = true ->
  messageInput_value (snd (resume marked_parse now p r a)) = messageInput_value a /\
  match fst (resume marked_parse now p r a) with
  | Some _ =>
      messageInput_disabled (snd (resume marked_parse now p r a))
        = messageInput_disabled a /\
      sendButton_disabled (snd (resume marked_parse now p r a))
        = sendButton_disabled a
  | None =>
      messageInput_disabled (snd (resume marked_parse now p r a)) = false /\
      sendButton_disabled (snd (resume marked_parse now p r a)) = false
  end.
Proof.
  destruct p as [b text | b acc first | b prompt], r as [| c | | response | error];
    cbn [answers]; try discriminate; intros _.
  - cbn. auto.
  - destruct (open_rejected_finishes marked_parse now b text error a)
      as (a' & -> & _ & _ & V & D1 & D2 & _). cbn [fst snd]. auto.
  - destruct (chunk_step marked_parse now b acc first c a)
      as (a' & -> & _ & _ & V & D1 & D2 & _). cbn [fst snd]. auto.
  - destruct (final_finishes marked_parse now b acc first a)
      as (a' & -> & _ & _ & V & D1 & D2 & _). cbn [fst snd]. auto.
  - destruct (chunk_rejected_finishes marked_parse now b acc first error a)
      as (a' & -> & _ & _ & V & D1 & D2 & _). cbn [fst snd]. auto.
  - destruct (image_response_finishes marked_parse now b prompt response a)
      as (a' & -> & _ & _ & V & D1 & D2 & _). cbn [fst snd]. auto.
  - destruct (image_rejected_finishes marked_parse now b prompt error a)
      as (a' & -> & _ & _ & V & D1 & D2 & _). cbn [fst snd]. auto.
Qed.

Lemma loaded_flags (storage : option (list StoredMessage)) (value : string) :
  enabled (loaded API_KEY marked_parse now storage value).
Proof.
  assert (Hadd : forall msg isNew a,
    messageInput_disabled (snd (addMessageToChat marked_parse msg isNew a))
      = messageInput_disabled a /\
    sendButton_disabled (snd (addMessageToChat marked_parse msg isNew a))
      = sendButton_disabled a).
  { intros msg isNew a. destruct a; split; reflexivity. }
  assert (Heach : forall history g a,
    messageInput_disabled (snd (forEachStored marked_parse history g a))
      = messageInput_disabled a /\
    sendButton_disabled (snd (forEachStored marked_parse history g a))
      = sendButton_disabled a).
  { induction history as [|msg history IH]; intros g a; [split; reflexivity|].
    cbn [forEachStored]. unfold bind.
    destruct (addMessageToChat marked_parse msg false a) as [r a1] eqn:E.
    destruct (Hadd msg false a) as [H1 H2]. rewrite E in H1, H2. cbn in H1, H2.
    rewrite <- H1, <- H2. apply IH. }
  unfold loaded, pageLoad, exec_. unfold bind at 1.
  match goal with
  | |- enabled (snd (let (_, s') := ?first ?a0 in _)) =>
      destruct (first a0) as [u a1] eqn:E;
      assert (Hfl : messageInput_disabled a1 = false /\ sendButton_disabled a1 = false)
  end.
  { destruct (truthyOpt API_KEY); cbn in E; injection E as _ <-; split; reflexivity. }
  unfold populateChatFromHistory, bind, get, initializeChat, modify.
  destruct (forEachStored marked_parse (loadChatHistory a1) [] a1) as [g a2] eqn:E2.
  destruct (Heach (loadChatHistory a1) [] a1) as [H1 H2]. rewrite E2 in H1, H2.
  cbn in H1, H2. destruct Hfl as [F1 F2]. rewrite F1 in H1. rewrite F2 in H2.
  destruct a2; cbn in *. split; assumption.
Qed.

Lemma clearChat_flags (a : App) :
  messageInput_disabled (exec_ (clearChat marked_parse now) a) = messageInput_disabled a /\
  sendButton_disabled (exec_ (clearChat marked_parse now) a) = sendButton_disabled a /\
  messageInput_value (exec_ (clearChat marked_parse now) a) = messageInput_value a.
Proof. destruct a; repeat split; reflexivity. Qed.

Lemma step_serialized (w w' : World) :
  serialized API_KEY w -> step API_KEY marked_parse now w w' -> serialized API_KEY w'.
Proof.
  intros Inv Hstep.
  destruct Hstep as [w value Hen | w Hen | w Hen | w | w before after p r Hp Hans].
  - destruct Inv as [(P & D1 & D2) | (p & P & D1 & D2 & V & K)]; [|congruence].
    left. destruct w as [a ps]; destruct a; cbn in *. auto.
  - destruct Inv as [(P & D1 & D2) | (p & P & D1 & D2 & V & K)]; [|congruence].
    pose proof (handleSendMessage_flags (app w)) as F. cbn [app pendings]. rewrite P.
    destruct (fst (handleSendMessage API_KEY marked_parse now (app w))) as [q|].
    + right. exists q. cbn. tauto.
    + left. cbn. destruct F as [F1 F2]. rewrite F1, F2. auto.
  - destruct Inv as [(P & D1 & D2) | (p & P & D1 & D2 & V & K)]; [|congruence].
    pose proof (handleSendMessage_flags (app w)) as F. cbn [app pendings]. rewrite P.
    destruct (fst (handleSendMessage API_KEY marked_parse now (app w))) as [q|].
    + right. exists q. cbn. tauto.
    + left. cbn. destruct F as [F1 F2]. rewrite F1, F2. auto.
  - destruct (clearChat_flags (app w)) as (C1 & C2 & C3).
    destruct Inv as [(P & D1 & D2) | (p & P & D1 & D2 & V & K)]; [left | right].
    + cbn [app pendings]. rewrite C1, C2. auto.
    + exists p. cbn [app pendings]. rewrite C1, C2, C3. auto.
  - destruct Inv as [(P & D1 & D2) | (q & P & D1 & D2 & V & K)].
    + rewrite P in Hp. destruct before; discriminate.
    + rewrite P in Hp.
      assert (before = [] /\ after = [] /\ q = p) as (-> & -> & ->).
      { destruct before as [|x before]; cbn in Hp.
        - injection Hp as -> <-. auto.
        - injection Hp as _ Hp. destruct before; discriminate. }
      destruct (resume_flags p r (app w) Hans) as [RV RF].
      unfold serialized. cbn [app pendings].
      destruct (fst (resume marked_parse now p r (app w))) as [p'|];
        cbn [started app]; destruct RF as [R1 R2]; rewrite R1, R2, RV.
      * right. exists p'. auto.
      * left. auto.
Qed.

Lemma reachable_serialized (w : World) :
  reachable API_KEY marked_parse now w -> serialized API_KEY w.
Proof.
  induction 1 as [storage value | w w' _ IH Hstep].
  - left. cbn. split; [reflexivity | apply loaded_flags].
  - eapply step_serialized; eauto.
Qed.

End Serialization.

(** C9. While a turn is outstanding, on every page that can be reached:
    exactly one request is on its way; the button and the input are
    disabled, so the page raises no click and no key for them; and a call of
    [handleSendMessage] returns at once, starts no request and leaves the
    page, with its store and its nodes, exactly as it was. *)
Theorem busy_submit_has_no_effect
    (API_KEY : option string) (marked_parse : string -> option string)
    (now : nat -> Z) (w : World) :
  reachable API_KEY marked_parse now w ->
  pendings w <> [] ->
  (exists p, pendings w = [p]) /\
  sendButton_disabled (app w) = true /\
  messageInput_disabled (app w) = true /\
  handleSendMessage API_KEY marked_parse now (app w) = (None, app w).
Proof.
  intros Hr Hbusy.
  destruct (reachable_serialized API_KEY marked_parse now w Hr)
    as [(P & _) | (p & P & D1 & D2 & V & K)]; [contradiction|].
  repeat split; eauto.
  apply handleSendMessage_blank; [exact K|]. now rewrite V.
Qed.

End TurnFacts.

Module ControllerClaims.

Import JS JSFacts ControllerFacts TurnFacts.
Local Open Scope string_scope.
Local Open Scope nat_scope.




Lemma mid_stream_failure_witness :
  exists a',
    resume marked0 now0 (AwaitNextChunk 1 "Hel" true)
      (Rejected (ErrorObject "network down")) (app busy0) = (None, a') /\
    contains 1 a' = false /\
    localStorage a'
      = Some (loadChatHistory (app busy0)
                ++ [textError now0 (ErrorObject "network down") (app busy0)])%list.
Proof.
  destruct (mid_stream_failure_replaces_placeholder marked0 now0 1 "Hel" true
              (ErrorObject "network down") (app busy0))
    as (a' & H1 & _ & _ & H4 & H5 & _).
  - vm_compute. lia.
  - exists a'. repeat split; assumption.
Defined.

Lemma replay_rebuilds_context_witness :
  exists a',
    turn key0 marked0 now0 svc0 page0 = (None, a') /\
    chat (loaded key0 marked0 now0 (localStorage a') "")
      = Some (upstreamContext (loadChatHistory page0)
                ++ [mkContent user "hi";
                    mkContent model
                      (orElse (trim (accumulate ""
                                       [Some "Hel"; None; Some "lo"]))
                              "[AI gave an empty response]")])%list.
Proof.
  apply (proj2 (replay_rebuilds_context key0 marked0 now0 now0)
           svc0 page0 [Some "Hel"; None; Some "lo"] "");
    vm_compute; reflexivity.
Defined.

Lemma busy0_reachable : reachable key0 marked0 now0 busy0.
Proof.
  apply (reachable_step key0 marked0 now0 (mkWorld page0 [])).
  - apply (reachable_step key0 marked0 now0
             (mkWorld (loaded key0 marked0 now0 None "") [])).
    + apply reachable_load.
    + exact (step_input key0 marked0 now0
               (mkWorld (loaded key0 marked0 now0 None "") []) "hi" eq_refl).
  - exact (step_click key0 marked0 now0 (mkWorld page0 []) eq_refl).
Qed.

Lemma busy_submit_has_no_effect_witness :
  pendings busy0 <> [] /\
  handleSendMessage key0 marked0 now0 (app busy0) = (None, app busy0).
Proof.
  assert (Hbusy : pendings busy0 <> []) by (vm_compute; discriminate).
  split; [exact Hbusy|].
  apply (busy_submit_has_no_effect key0 marked0 now0 busy0 busy0_reachable Hbusy).
Defined.

End ControllerClaims.

(** ** More on strings *)

Module StringFacts.

Import JS JSFacts.
Local Open Scope string_scope.
Local Open Scope nat_scope.

Lemma trimEnd_idem (s : string) : trimEnd (trimEnd s) = trimEnd s.
Proof.
  induction s as [|c s IH]; simpl; [reflexivity|].
  destruct (trimEnd s) as [|d t] eqn:E.
  - destruct (isWhiteSpace c) eqn:W; simpl; [reflexivity | now rewrite W].
  - simpl in *. now rewrite IH.
Qed.

Lemma trimStart_head (s : string) :
  match trimStart s with
  | String c _ => isWhiteSpace c = false
  | EmptyString => True
  end.
Proof.
  induction s as [|c s IH]; simpl; [exact I|].
  destruct (isWhiteSpace c) eqn:W; [exact IH | exact W].
Qed.

Lemma trimEnd_head (s : string) :
  match s with
  | String c _ => isWhiteSpace c = false -> trimStart (trimEnd s) = trimEnd s
  | EmptyString => True
  end.
Proof.
  destruct s as [|c s]; [exact I|]. intros W. simpl.
  destruct (trimEnd s); rewrite ?W; simpl; now rewrite W.
Qed.

Lemma trim_idem (s : string) : trim (trim s) = trim s.
Proof.
  unfold trim at 1 3.
  pose proof (trimStart_head s) as H. pose proof (trimEnd_head (trimStart s)) as K.
  unfold trim.
  destruct (trimStart s) as [|c t]; [reflexivity|].
  rewrite (K H). apply trimEnd_idem.
Qed.

Lemma prefix_cons (a b : ascii) (s1 s2 : string) :
  String.prefix (String a s1) (String b s2) = Ascii.eqb a b && String.prefix s1 s2.
Proof.
  change (String.prefix (String a s1) (String b s2))
    with (match Ascii.ascii_dec a b with
          | left _ => String.prefix s1 s2
          | right _ => false
          end).
  destruct (Ascii.ascii_dec a b) as [->|n].
  - now rewrite Ascii.eqb_refl.
  - apply Ascii.eqb_neq in n. now rewrite n.
Qed.

Lemma prefix_correct (k s : string) :
  String.prefix k s = true <-> exists tail, s = k ++ tail.
Proof.
  revert s. induction k as [|a k IH]; intros s.
  - simpl. split; [intros _; now exists s | destruct s; reflexivity].
  - destruct s as [|b s].
    + simpl. split; [discriminate | intros [tail H]; discriminate].
    + rewrite prefix_cons. split.
      * intros H. apply andb_prop in H as [E H]. apply Ascii.eqb_eq in E. subst b.
        apply IH in H as [tail ->]. now exists tail.
      * intros [tail H]. simpl in H. injection H as -> ->.
        rewrite Ascii.eqb_refl. simpl. apply IH. now exists tail.
Qed.

Lemma take_length_le (j : nat) (s : string) :
  j <= String.length s -> String.length (take j s) = j.
Proof. intros H. rewrite length_take. lia. Qed.

Lemma trimStart_decomp (s : string) : exists w, s = w ++ trimStart s.
Proof.
  induction s as [|c s [w IH]]; simpl; [now exists ""|].
  destruct (isWhiteSpace c); [| now exists ""].
  exists (String c w). simpl. now rewrite <- IH.
Qed.

Lemma trimEnd_decomp (s : string) : exists w, s = trimEnd s ++ w.
Proof.
  induction s as [|c s [w IH]]; simpl; [now exists ""|].
  destruct (trimEnd s) as [|d t] eqn:E.
  - simpl in IH. subst w.
    destruct (isWhiteSpace c); [now exists (String c s) | now exists s].
  - exists w. rewrite IH at 1. reflexivity.
Qed.

Lemma trim_decomp (s : string) : exists w1 w2, s = w1 ++ trim s ++ w2.
Proof.
  destruct (trimStart_decomp s) as [w1 H1].
  destruct (trimEnd_decomp (trimStart s)) as [w2 H2].
  exists w1, w2. unfold trim. now rewrite <- H2.
Qed.

Lemma every_drop (p : ascii -> bool) (k : nat) :
  forall s, every p s = true -> every p (drop k s) = true.
Proof.
  induction k as [|k IH]; intros s H; [exact H|].
  destruct s as [|c s]; [exact H|]. simpl in *.
  apply andb_prop in H as [_ H]. auto.
Qed.

End StringFacts.

(** ** The shape of the segments *)

Module SegmentShape.

Import JS JSFacts StringFacts RegExp RegExpFacts Segmenter SegmenterFacts SegmenterSpec.
Local Open Scope string_scope.
Local Open Scope nat_scope.

Lemma fallbackText_tidy (fullText : string) : tidy (Prose (fallbackText fullText)).
Proof.
  unfold fallbackText, tidy.
  destruct (String.eqb (trim fullText) "") eqn:E.
  - split; reflexivity.
  - split; [| apply trim_idem].
    destruct (trim fullText); [discriminate | reflexivity].
Qed.

Lemma pieceSegments_tidy (fullText : string) (p : Piece) :
  In p (piecesOf fullText) -> Forall tidy (pieceSegments fullText p).
Proof.
  intros Hin. destruct p as [text | m]; simpl.
  - destruct (truthy (trim text)) eqn:T; constructor; [|constructor].
    split; [exact T | apply trim_idem].
  - destruct (truthy (codeContentOf fullText m)) eqn:T; constructor; [|constructor].
    apply pieces_In in Hin as (from & X).
    apply codeBlockRegex_match in X as (g & (Wt & _) & _ & G1 & G2 & _).
    unfold tidy, languageOf, codeContentOf in *. rewrite G1, G2 in *.
    rewrite (trim_word _ Wt).
    repeat split; [exact T | apply trim_idem | |].
    + unfold orElse. destruct (truthy (tag g)) eqn:E; [exact E | reflexivity].
    + unfold orElse. destruct (truthy (tag g)); [exact Wt | reflexivity].
Qed.

(** X1. Whatever the text, the call returns with at least one child in the
    message node, and every child is tidy: no prose and no code is empty or
    has whitespace at its ends, and a language is a run of word characters. *)
Theorem segments_are_tidy (fullText : string) :
  exists segments,
    formatAndDisplayAIResponse fullText = Some segments /\
    segments <> [] /\
    Forall tidy segments.
Proof.
  destruct (formatAndDisplayAIResponse_pieces fullText) as [_ Hf].
  exists (shown fullText). split; [exact Hf|]. unfold shown.
  destruct (flat_map (pieceSegments fullText) (piecesOf fullText)) as [|x l] eqn:E;
    simpl.
  - split; [discriminate|]. constructor; [apply fallbackText_tidy | constructor].
  - split; [discriminate|]. rewrite <- E.
    apply Forall_flat_map. apply Forall_forall. intros p Hp.
    now apply pieceSegments_tidy.
Qed.

End SegmentShape.

(** ** Where the fence scan finds a region *)

Module FenceScan.

Import JS JSFacts RegExp RegExpFacts Segmenter SegmenterFacts SegmenterSpec.
Local Open Scope string_scope.
Local Open Scope nat_scope.

(** The search gets to every place where the matcher succeeds. *)
Lemma search_complete (m : Matcher) (pre s' : string) :
  (forall i p, m (mkMState i p s' []) (fun y => Some y) <> None) ->
  forall i p, search m i p (pre ++ s') <> None.
Proof.
  intros Hm. induction pre as [|a pre IH]; intros i p.
  - simpl. destruct s' as [|b s']; simpl;
      destruct (m _ (fun y => Some y)) eqn:E; try discriminate;
      exfalso; exact (Hm i p E).
  - simpl. destruct (m _ (fun y => Some y)); [discriminate | apply IH].
Qed.

(** The pattern succeeds at an opening marker that has a closing marker
    after it. *)
Lemma codeBlockRegex_complete (x : MState) (v w : string) :
  rest x = fence ++ v ++ fence ++ w ->
  compile false codeBlockRegex x (fun y => Some y) <> None.
Proof.
  intros H. rewrite codeBlockRegex_parts.
  change (compile false (Cat (lit fence) ?r) ?x ?c)
    with (compile false (lit fence) x (fun y => compile false r y c)).
  rewrite (lit_complete fence x _ (v ++ fence ++ w) H).
  destruct (advanceBy_consumes fence x (v ++ fence ++ w) H) as [[R E] C].
  set (x1 := advanceBy x fence) in *.
  assert (R1 : rest x1 = v ++ fence ++ w).
  { rewrite H in R. now apply (append_cancel_l fence). }
  change (compile false (Cat (Grp 1 (Star true (Class isWordChar))) afterTag) x1 ?c)
    with (repeatMatcher (String.length (rest x1)) (charMatcher isWordChar) true x1
            (fun y => compile false afterTag (close 1 x1 y) c)).
  apply greedy_star_zero.
  apply (afterTag_complete _ v w). exact R1.
Qed.

Lemma length_lt_drop (from : nat) (s : string) :
  String.length s < from -> drop from s = "".
Proof. intros H. apply drop_all. lia. Qed.

Lemma twoFences_not_nil : ~ twoFences "".
Proof.
  intros (u & v & w & H). apply (f_equal String.length) in H.
  rewrite !length_append in H. simpl in H. lia.
Qed.

(** The scan finds a region exactly where an opening and a closing marker
    are still to come. *)
Lemma exec_iff_twoFences (fullText : string) (from : nat) :
  (exists m, codeBlockRegex_exec fullText from = Some m)
  <-> twoFences (drop from fullText).
Proof.
  split.
  - intros [m X].
    apply codeBlockRegex_match in X as (g & _ & _ & _ & _ & _ & _ & _ & Hdrop).
    exists (substring from (index m) fullText),
           (tag g ++ gap1 g ++ body g ++ gap2 g),
           (drop (lastIndexOf m) fullText).
    rewrite Hdrop. unfold regionText. now rewrite !append_assoc.
  - intros (u & v & w & H).
    unfold codeBlockRegex_exec, exec.
    destruct (String.length fullText <? from) eqn:L.
    + apply Nat.ltb_lt in L. rewrite (length_lt_drop _ _ L) in H.
      exfalso. apply twoFences_not_nil. now exists u, v, w.
    + rewrite H.
      destruct (search (compile false codeBlockRegex) from
                  (charBefore from fullText) (u ++ fence ++ v ++ fence ++ w))
        as [m|] eqn:E; [eauto|].
      exfalso. revert E. apply search_complete.
      intros i p. now apply (codeBlockRegex_complete _ v w).
Qed.

(** A text in which no region is found is shown as one prose segment. *)
Lemma unclosed_is_prose (fullText : string) :
  ~ twoFences fullText ->
  formatAndDisplayAIResponse fullText = Some [Prose (fallbackText fullText)].
Proof.
  intros H.
  assert (X : codeBlockRegex_exec fullText 0 = None).
  { destruct (codeBlockRegex_exec fullText 0) as [m|] eqn:E; [|reflexivity].
    exfalso. apply H. apply (exec_iff_twoFences fullText 0). eauto. }
  destruct (formatAndDisplayAIResponse_pieces fullText) as [_ Hf].
  rewrite Hf. unfold shown, piecesOf, fallbackText.
  destruct (String.length fullText); simpl; rewrite X; simpl;
    unfold substringFrom; simpl;
    destruct (trim fullText) eqn:T; reflexivity.
Qed.

(** X2. A text without a closed fence, as a reply that was cut short in the
    middle of a code block is, is shown as one prose segment; a scan finds a
    region exactly where two markers are still to come. *)
Theorem fence_scan_needs_two_markers (fullText : string) :
  (forall from,
     (exists m, codeBlockRegex_exec fullText from = Some m)
     <-> twoFences (drop from fullText)) /\
  (~ twoFences fullText ->
   formatAndDisplayAIResponse fullText = Some [Prose (fallbackText fullText)]).
Proof.
  split; [intros from; apply exec_iff_twoFences | apply unclosed_is_prose].
Qed.

Lemma ex_unclosed_one_marker : ~ twoFences ex_unclosed.
Proof.
  intros H. apply (exec_iff_twoFences ex_unclosed 0) in H as [m X].
  vm_compute in X. discriminate.
Qed.

Lemma fence_scan_needs_two_markers_witness :
  formatAndDisplayAIResponse ex_unclosed = Some [Prose ex_unclosed].
Proof.
  exact (proj2 (fence_scan_needs_two_markers ex_unclosed) ex_unclosed_one_marker).
Defined.

End FenceScan.

(** ** The closing marker of a region *)

Module ClosingMarker.

Import JS JSFacts StringFacts RegExp RegExpFacts Segmenter SegmenterFacts SegmenterSpec.
Import FenceParts SegmentShape FenceScan.
Local Open Scope string_scope.
Local Open Scope nat_scope.

Lemma afterTag_parts :
  afterTag = Cat (Star true (Class isWhiteSpace)) afterGap.
Proof. reflexivity. Qed.

(** *** Where a marker begins *)

Lemma fenceAt_shift (w t : string) (j : nat) :
  fenceAt (String.length w + j) (w ++ t) = fenceAt j t.
Proof.
  unfold fenceAt. f_equal.
  induction w as [|c w IH]; simpl; [reflexivity | exact IH].
Qed.

Lemma fenceAt_space (a : ascii) (s : string) :
  isWhiteSpace a = true -> fenceAt 0 (String a s) = false.
Proof.
  intros W. unfold fenceAt, startsWith, fence. cbn [drop].
  rewrite prefix_cons.
  destruct (Ascii.eqb "`" a) eqn:E; [|reflexivity].
  apply Ascii.eqb_eq in E. subst a. vm_compute in W. discriminate.
Qed.

Lemma fenceAt_blank (w t : string) (k : nat) :
  blank w = true -> k < String.length w -> fenceAt k (w ++ t) = false.
Proof.
  revert k. induction w as [|c w IH]; intros k B Hk; simpl in *; [lia|].
  apply andb_prop in B as [Wc Bw].
  destruct k as [|k].
  - now apply fenceAt_space.
  - change (fenceAt (S k) (String c (w ++ t))) with (fenceAt k (w ++ t)).
    apply IH; [exact Bw | lia].
Qed.

Lemma fenceAt_prefix (s : string) :
  fenceAt 0 s = true -> exists tail, s = fence ++ tail.
Proof. unfold fenceAt, startsWith. cbn [drop]. apply prefix_correct. Qed.

(** *** The closing part of the pattern *)

Lemma closing_complete (y : MState) (tail : string) :
  rest y = fence ++ tail ->
  compile false closing y (fun y' => Some y') <> None.
Proof.
  intros H. unfold closing.
  change (compile false (Cat (Quest true (Chr newline)) ?r) y ?c)
    with (compile false (Quest true (Chr newline)) y (fun y' => compile false r y' c)).
  apply greedy_quest_zero.
  change (compile false (Cat (Star true (Class isWhiteSpace)) ?r) y ?c)
    with (repeatMatcher (String.length (rest y)) (charMatcher isWhiteSpace) true y
            (fun y' => compile false r y' c)).
  apply greedy_star_zero.
  rewrite (lit_complete fence y _ tail H). discriminate.
Qed.

Lemma closing_shape (y res : MState) :
  compile false closing y (fun y' => Some y') = Some res ->
  exists B, blank B = true /\ rest y = B ++ fence ++ rest res.
Proof.
  intros H. apply compile_sound in H as (z & Hspan & Hz). injection Hz as ->.
  unfold closing in Hspan.
  apply Span_cat_inv in Hspan as (x6 & H6 & Hspan).
  apply Span_cat_inv in Hspan as (x7 & H7 & H8).
  apply Span_quest_chr in H6 as (nb & K6 & P6 & _).
  apply Span_star_class in H7 as (wb & K7 & P7 & _).
  apply Span_lit in H8 as [[R8 _] _].
  destruct (consumes_trans _ _ _ _ _ K6 K7) as [R _].
  exists (nb ++ wb). split.
  - rewrite blank_append, <- (every_blank wb), P7.
    now rewrite (blank_newline_opt _ P6).
  - now rewrite R, R8, !append_assoc.
Qed.

(** *** The lazy body stops at the first place where the rest succeeds *)

Lemma lazy_any_first (c : Continuation) :
  forall n x res,
    repeatMatcher n (charMatcher (fun _ => true)) false x c = Some res ->
    exists u r,
      rest x = u ++ r /\
      c (advanceBy x u) = Some res /\
      (forall j, j < String.length u -> c (advanceBy x (take j u)) = None).
Proof.
  induction n as [|n IH]; intros x res H.
  - exists "", (rest x). repeat split; auto. simpl. intros j Hj. lia.
  - rewrite repeatMatcher_S in H. apply orTry_Some in H as [H | [Hnone H]].
    + exists "", (rest x). repeat split; auto. simpl. intros j Hj. lia.
    + apply charMatcher_sound in H as (a & s' & E & _ & H).
      cbn [advance endIndex] in H. rewrite succ_eqb_self in H.
      apply IH in H as (u & r & R & Hc & Hmin). simpl in R.
      assert (Ea : advance x a (drop 1 (rest x)) = advance x a s')
        by (rewrite E; reflexivity).
      exists (String a u), r. repeat split.
      * rewrite E, R. reflexivity.
      * cbn [advanceBy]. now rewrite Ea.
      * intros j Hj. destruct j as [|j]; cbn [take advanceBy]; [exact Hnone|].
        rewrite Ea. apply Hmin. simpl in Hj. lia.
Qed.

Lemma advanceBy_rest (w : string) :
  forall x r, rest x = w ++ r -> rest (advanceBy x w) = r.
Proof.
  intros x r H. destruct (advanceBy_consumes w x r H) as [[R _] _].
  rewrite H in R. symmetry. now apply (append_cancel_l w).
Qed.

(** The body: the closing marker it stops at is the first that begins in
    what the body runs over. *)
Lemma bodyOn_first (y res : MState) :
  compile false bodyOn y (fun y' => Some y') = Some res ->
  exists U,
    rest y = U ++ fence ++ rest res /\
    (forall k, k < String.length U -> fenceAt k (rest y) = false).
Proof.
  unfold bodyOn.
  change (compile false (Cat (Grp 2 (Star false (Class (fun _ => true)))) closing) y ?c)
    with (repeatMatcher (String.length (rest y)) (charMatcher (fun _ => true)) false y
            (fun y' => compile false closing (close 2 y y') c)).
  intros H. apply lazy_any_first in H as (u & r & R & Hc & Hmin).
  apply closing_shape in Hc as (B & HB & HR).
  cbn [close rest] in HR. rewrite (advanceBy_rest u y r R) in HR. subst r.
  exists (u ++ B). split; [now rewrite R, !append_assoc|].
  intros k Hk. rewrite length_append in Hk. rewrite R.
  destruct (Nat.lt_ge_cases k (String.length u)) as [Hu | Hu].
  - destruct (fenceAt k (u ++ B ++ fence ++ rest res)) eqn:F; [exfalso | reflexivity].
    specialize (Hmin k Hu).
    assert (Hsplit : rest y = take k u ++ (drop k u ++ B ++ fence ++ rest res)).
    { rewrite R. rewrite <- (take_drop k u) at 1. now rewrite append_assoc. }
    pose proof (advanceBy_rest (take k u) y _ Hsplit) as Hrest.
    rewrite <- (take_drop k u), append_assoc in F.
    rewrite <- (Nat.add_0_r k) in F at 1.
    rewrite <- (take_length_le k u) in F at 1 by lia.
    rewrite fenceAt_shift in F.
    apply fenceAt_prefix in F as [tail Ht].
    revert Hmin. apply (closing_complete _ tail). simpl. now rewrite Hrest.
  - replace k with (String.length u + (k - String.length u)) by lia.
    rewrite fenceAt_shift. apply fenceAt_blank; [exact HB | lia].
Qed.


(** *** From the tag to the closing marker *)

Lemma afterGap_complete (z : MState) (u tail : string) :
  rest z = u ++ fence ++ tail ->
  compile false afterGap z (fun y => Some y) <> None.
Proof.
  intros H. unfold afterGap.
  change (compile false (Cat (Quest true (Chr newline)) ?r) z ?c)
    with (compile false (Quest true (Chr newline)) z (fun y => compile false r y c)).
  apply greedy_quest_zero. unfold bodyOn.
  change (compile false (Cat (Grp 2 (Star false (Class (fun _ => true)))) ?r) z ?c)
    with (repeatMatcher (String.length (rest z)) (charMatcher (fun _ => true)) false z
            (fun y => compile false r (close 2 z y) c)).
  apply (lazy_any_complete u _ z _ (fence ++ tail) H).
  { rewrite H, length_append. lia. }
  apply (closing_complete _ tail). cbn [close rest].
  now apply (advanceBy_rest u z).
Qed.

Lemma afterGap_shape (z res : MState) :
  compile false afterGap z (fun y => Some y) = Some res ->
  exists u, rest z = u ++ fence ++ rest res.
Proof.
  intros H. apply compile_sound in H as (y & Hspan & Hy). injection Hy as ->.
  unfold afterGap, bodyOn, closing in Hspan.
  apply Span_cat_inv in Hspan as (x4 & H4 & Hspan).
  apply Span_cat_inv in Hspan as (x5 & H5 & Hspan).
  apply Span_cat_inv in Hspan as (x6 & H6 & Hspan).
  apply Span_cat_inv in Hspan as (x7 & H7 & H8).
  apply Span_quest_chr in H4 as (na & K4 & _ & _).
  apply Span_grp_inv in H5 as (y5 & H5 & ->).
  apply Span_star_class in H5 as (b & K5 & _ & _).
  apply Span_quest_chr in H6 as (nb & K6 & _ & _).
  apply Span_star_class in H7 as (wb & K7 & _ & _).
  apply Span_lit in H8 as [[R8 _] _].
  assert (K5' : consumes x4 (close 2 x4 y5) b) by exact K5.
  destruct (consumes_trans _ _ _ _ _ K4
             (consumes_trans _ _ _ _ _ K5'
               (consumes_trans _ _ _ _ _ K6 K7))) as [R _].
  exists (na ++ b ++ nb ++ wb). now rewrite R, R8.
Qed.

Lemma newline_is_space : isWhiteSpace newline = true.
Proof. reflexivity. Qed.

(** After the tag: the closing marker of the match is the first marker
    that begins there. *)
Lemma afterTag_first (z res : MState) :
  compile false afterTag z (fun y => Some y) = Some res ->
  exists U,
    rest z = U ++ fence ++ rest res /\
    (forall k, k < String.length U -> fenceAt k (rest z) = false).
Proof.
  rewrite afterTag_parts.
  change (compile false (Cat (Star true (Class isWhiteSpace)) afterGap) z ?c)
    with (repeatMatcher (String.length (rest z)) (charMatcher isWhiteSpace) true z
            (fun y => compile false afterGap y c)).
  intros H.
  apply greedy_class_max in H as (y & W & [RW EW] & PW & _ & Hy & Hmax); [| | lia].
  - unfold afterGap in Hy.
    change (compile false (Cat (Quest true (Chr newline)) bodyOn) y ?c)
      with (orTry (charMatcher (fun a => Ascii.eqb a newline) y
                     (fun y' => if endIndex y' =? endIndex y then None
                                else compile false bodyOn y' c))
                  (fun _ => compile false bodyOn y c)) in Hy.
    apply orTry_Some in Hy as [Hy | [_ Hy]].
    + apply charMatcher_sound in Hy as (a & s' & E & P & _).
      apply Ascii.eqb_eq in P. subst a.
      pose proof (Hmax newline s' E) as F. rewrite newline_is_space in F.
      discriminate.
    + apply bodyOn_first in Hy as (U & RU & HU).
      exists (W ++ U). split; [now rewrite RW, RU, append_assoc|].
      intros k Hk. rewrite length_append in Hk. rewrite RW.
      rewrite every_blank in PW.
      destruct (Nat.lt_ge_cases k (String.length W)) as [Hu | Hu].
      * now apply fenceAt_blank.
      * replace k with (String.length W + (k - String.length W)) by lia.
        rewrite fenceAt_shift. apply HU. lia.
  - intros y a s' E P Hsome.
    destruct (compile false afterGap y (fun y0 => Some y0)) as [r|] eqn:Er;
      [|contradiction].
    apply afterGap_shape in Er as (u & Hu). rewrite E in Hu.
    destruct u as [|b u].
    + simpl in Hu. injection Hu as -> _. discriminate.
    + simpl in Hu. injection Hu as <- Hs'.
      apply (afterGap_complete _ u (rest r)). exact Hs'.
Qed.

(** The match seen from the end of its tag. *)
Lemma match_after_tag (fullText : string) (from : nat) (m : Match) :
  codeBlockRegex_exec fullText from = Some m ->
  exists z,
    rest z = drop (index m + 3 + String.length (declaredTag fullText m)) fullText /\
    compile false afterTag z (fun y => Some y) = Some (final m) /\
    rest (final m) = drop (lastIndexOf m) fullText.
Proof.
  unfold codeBlockRegex_exec, exec.
  destruct (String.length fullText <? from) eqn:L; [discriminate|].
  intros H. apply search_sound in H as (pre & s0 & p0 & Hs & Hi & Hm).
  assert (S0 : synced fullText (mkMState (index m) p0 s0 [])).
  { unfold synced. simpl. rewrite Hi. symmetry. eapply drop_span; eauto. }
  rewrite codeBlockRegex_parts in Hm.
  change (compile false (Cat (lit fence) ?r) ?x ?c)
    with (compile false (lit fence) x (fun y => compile false r y c)) in Hm.
  apply compile_sound in Hm as (x1 & H1 & Hm).
  apply Span_lit in H1 as [K1 C1]. simpl in C1.
  destruct (synced_consumes _ _ _ _ S0 K1) as [S1 _].
  change (compile false (Cat (Grp 1 (Star true (Class isWordChar))) afterTag) x1 ?c)
    with (repeatMatcher (String.length (rest x1)) (charMatcher isWordChar) true x1
            (fun y => compile false afterTag (close 1 x1 y) c)) in Hm.
  apply greedy_class_max in Hm as (y & w & Kw & Pw & Cw & Hy & Hmax); [| | lia].
  - destruct (synced_consumes _ _ _ _ S1 Kw) as [Sy Gw].
    pose proof Hy as Hshape.
    apply afterTag_shape in Hshape as (u & _ & a2 & b2 & Hcap).
    assert (Htag : declaredTag fullText m = w).
    { unfold declaredTag, group. rewrite Hcap. simpl. now rewrite Gw. }
    exists (close 1 x1 y). split; [|split; [exact Hy|]].
    + cbn [close rest]. unfold synced in Sy. rewrite Sy. f_equal.
      destruct K1 as [_ E1]. destruct Kw as [_ Ew]. simpl in E1.
      rewrite Htag. lia.
    + pose proof Hy as Hsp. apply compile_sound in Hsp as (yf & Hspan & Hyf).
      injection Hyf as ->.
      destruct (Span_consumes _ _ _ _ Hspan) as (wf & Kf).
      assert (Sz : synced fullText (close 1 x1 y)) by exact Sy.
      destruct (synced_consumes _ _ _ _ Sz Kf) as [Sf _]. exact Sf.
  - intros y a s' E P Hsome.
    destruct (compile false afterTag (close 1 x1 y) (fun y0 => Some y0))
      as [res|] eqn:Er; [|contradiction].
    apply afterTag_shape in Er as (u & Hu & _). simpl in Hu. rewrite E in Hu.
    destruct u as [|b u].
    + simpl in Hu. injection Hu as -> _. discriminate.
    + simpl in Hu. injection Hu as <- Hs'.
      apply (afterTag_complete _ u (rest res)). simpl. exact Hs'.
Qed.

Lemma fenceAt_drop (a k : nat) (s : string) :
  fenceAt k (drop a s) = fenceAt (a + k) s.
Proof. unfold fenceAt. now rewrite drop_drop. Qed.

Lemma fenceAt_inside (a b : string) : fenceAt (String.length a) (a ++ fence ++ b) = true.
Proof.
  rewrite <- (Nat.add_0_r (String.length a)), fenceAt_shift.
  unfold fenceAt, startsWith. cbn [drop]. apply prefix_correct. now exists b.
Qed.

Lemma fenceAt_split (j : nat) (s : string) :
  fenceAt j s = true ->
  exists a b, s = a ++ fence ++ b /\ String.length a = j.
Proof.
  unfold fenceAt, startsWith. intros H. apply prefix_correct in H as [tail H].
  exists (take j s), tail. split.
  - rewrite <- H. symmetry. apply take_drop.
  - rewrite length_take.
    assert (String.length (drop j s) = String.length s - j) by apply length_drop.
    rewrite H, length_append in H0. simpl in H0. lia.
Qed.

(** X4. The closing marker of a region is the first marker that begins after
    its tag: none begins in the text between the tag and the closing
    marker, and the code that is shown has no marker in it. *)
Theorem closing_marker_is_the_first (fullText : string) (m : Match) :
  In (Fenced m) (piecesOf fullText) ->
  (forall k, k < String.length (fencedText fullText m) ->
     fenceAt (index m + 3 + String.length (declaredTag fullText m) + k) fullText
       = false) /\
  fenceAt (index m + 3 + String.length (declaredTag fullText m)
             + String.length (fencedText fullText m)) fullText = true /\
  (forall k, fenceAt k (codeContentOf fullText m) = false).
Proof.
  intros Hin. pose proof Hin as Hex. apply pieces_In in Hex as (from & X).
  destruct (match_after_tag fullText from m X) as (z & Rz & Hz & Rf).
  apply afterTag_first in Hz as (U & RU & HU).
  rewrite Rz in RU, HU. rewrite Rf in RU.
  set (start := index m + 3 + String.length (declaredTag fullText m)) in *.
  assert (HUlen : String.length U + 3 + (String.length fullText - lastIndexOf m)
                  = String.length fullText - start).
  { apply (f_equal String.length) in RU.
    rewrite length_drop, !length_append, length_drop in RU. simpl in RU. lia. }
  apply codeBlockRegex_match in X as (g & _ & _ & _ & _ & _ & Hlast & Hend & _).
  assert (Hinner : fencedText fullText m = U).
  { unfold fencedText. fold start.
    replace (lastIndexOf m - 3) with (start + String.length U) by lia.
    eapply substring_span; eauto. }
  rewrite Hinner. repeat split.
  - intros k Hk. rewrite <- fenceAt_drop. now apply HU.
  - rewrite <- fenceAt_drop, RU. apply fenceAt_inside.
  - intros k.
    destruct (fenceAt k (codeContentOf fullText m)) eqn:F; [exfalso | reflexivity].
    destruct (SegmenterClaims.fenced_region_facts fullText m Hin)
      as (_ & _ & _ & _ & _ & _ & Hcode & _).
    rewrite Hcode, Hinner in F.
    apply fenceAt_split in F as (a & b & Hab & Ha).
    destruct (trim_decomp U) as (w1 & w2 & HUw).
    rewrite Hab in HUw.
    assert (Hpos : String.length w1 + String.length a < String.length U).
    { rewrite HUw. rewrite !length_append. simpl. lia. }
    specialize (HU _ Hpos). rewrite RU in HU.
    rewrite HUw in HU at 1.
    replace (((w1 ++ (a ++ fence ++ b) ++ w2) ++ fence ++ drop (lastIndexOf m) fullText))
      with ((w1 ++ a) ++ fence ++ (b ++ w2 ++ fence ++ drop (lastIndexOf m) fullText))
      in HU by (now rewrite !append_assoc).
    rewrite <- length_append, fenceAt_inside in HU. discriminate.
Qed.

Lemma closing_marker_is_the_first_witness :
  In (Fenced ex_spec_match) (piecesOf ex_spec) /\
  (forall k, fenceAt k (codeContentOf ex_spec ex_spec_match) = false).
Proof.
  assert (Hin : In (Fenced ex_spec_match) (piecesOf ex_spec)).
  { vm_compute. right. left. reflexivity. }
  split; [exact Hin|].
  exact (proj2 (proj2 (closing_marker_is_the_first ex_spec ex_spec_match Hin))).
Defined.

End ClosingMarker.

(** ** The opening marker of a region *)

Module OpeningMarker.

Import JS JSFacts StringFacts RegExp RegExpFacts Segmenter SegmenterFacts SegmenterSpec.
Import FenceParts FenceScan ClosingMarker.
Local Open Scope string_scope.
Local Open Scope nat_scope.

(** The search returns the first place where the matcher succeeds. *)
Lemma search_first (m : Matcher) (s : string) :
  forall i p mt,
    search m i p s = Some mt ->
    forall k, i <= k < index mt ->
      exists p', m (mkMState k p' (drop (k - i) s) []) (fun y => Some y) = None.
Proof.
  induction s as [|a s IH]; intros i p mt H k Hk; simpl in H.
  - destruct (m (mkMState i p "" []) (fun y => Some y)); [|discriminate].
    injection H as <-. simpl in Hk. lia.
  - destruct (m (mkMState i p (String a s) []) (fun y => Some y)) eqn:E.
    + injection H as <-. simpl in Hk. lia.
    + destruct (Nat.eq_dec k i) as [->|Hne].
      * exists p. now rewrite Nat.sub_diag.
      * destruct (IH (S i) (Some a) mt H k) as [p' Hp']; [lia|].
        exists p'. replace (k - i) with (S (k - S i)) by lia. exact Hp'.
Qed.

Lemma drop_split (a b : nat) (s : string) :
  a <= b -> drop a s = substring a b s ++ drop b s.
Proof.
  intros H. rewrite substring_le by exact H.
  rewrite <- (take_drop (b - a) (drop a s)) at 1.
  rewrite drop_drop. do 2 f_equal. lia.
Qed.

(** X3. A region begins at the first marker at or after the place where the
    scan starts: no marker begins between that place and the region. *)
Theorem opening_marker_is_the_first (fullText : string) (from : nat) (m : Match) :
  codeBlockRegex_exec fullText from = Some m ->
  fenceAt (index m) fullText = true /\
  (forall k, from <= k < index m -> fenceAt k fullText = false).
Proof.
  intros X. pose proof X as X'.
  apply codeBlockRegex_match in X'
    as (g & _ & _ & _ & _ & Hfrom & Hlast & Hend & Hdrop).
  assert (Hreg : drop (index m) fullText
                 = regionText g ++ drop (lastIndexOf m) fullText).
  { rewrite (drop_split from (index m) fullText Hfrom) in Hdrop.
    now apply append_cancel_l in Hdrop. }
  split.
  - rewrite <- (Nat.add_0_r (index m)), <- fenceAt_drop, Hreg.
    unfold regionText. rewrite append_assoc.
    unfold fenceAt, startsWith. cbn [drop]. apply prefix_correct. eauto.
  - intros k Hk.
    destruct (fenceAt k fullText) eqn:F; [exfalso | reflexivity].
    unfold codeBlockRegex_exec, exec in X.
    destruct (String.length fullText <? from) eqn:L; [discriminate|].
    destruct (search_first _ _ _ _ _ X k Hk) as [p' Hnone].
    rewrite drop_drop in Hnone.
    replace (from + (k - from)) with k in Hnone by lia.
    revert Hnone.
    rewrite <- (Nat.add_0_r k), <- fenceAt_drop in F.
    apply fenceAt_prefix in F as [tail Ht].
    assert (Htail : tail = drop (k + 3) fullText).
    { rewrite <- drop_drop, Ht. reflexivity. }
    assert (Hin : drop (index m + 3) fullText
                  = (tag g ++ gap1 g ++ body g ++ gap2 g)
                      ++ fence ++ drop (lastIndexOf m) fullText).
    { rewrite <- drop_drop, Hreg. unfold regionText. cbn [drop append fence].
      now rewrite !append_assoc. }
    apply (codeBlockRegex_complete _
             (substring (k + 3) (index m + 3) fullText
                ++ tag g ++ gap1 g ++ body g ++ gap2 g)
             (drop (lastIndexOf m) fullText)).
    cbn [rest]. rewrite Ht, Htail. f_equal.
    rewrite (drop_split (k + 3) (index m + 3) fullText) by lia.
    rewrite Hin. now rewrite !append_assoc.
Qed.

Lemma opening_marker_is_the_first_witness :
  fenceAt 6 ex_spec = true /\
  (forall k, 0 <= k < 6 -> fenceAt k ex_spec = false).
Proof.
  apply (opening_marker_is_the_first ex_spec 0 ex_spec_match).
  vm_compute. reflexivity.
Defined.

End OpeningMarker.

(** ** What the removal of script blocks does *)

Module ScriptRemoval.

Import JS JSFacts StringFacts RegExp RegExpFacts SegmenterFacts SegmenterSpec Markdown MarkdownFacts.
Import ClosingMarker.
Local Open Scope string_scope.
Local Open Scope nat_scope.

Lemma canonical_lt (a : ascii) : chrEq true a "<" = true -> a = "<"%char.
Proof.
  destruct a as [[] [] [] [] [] [] [] []]; vm_compute; intros H;
    first [reflexivity | discriminate].
Qed.

Lemma canonical_t_word (a : ascii) : chrEq true a "t" = true -> isWordChar a = true.
Proof.
  destruct a as [[] [] [] [] [] [] [] []]; vm_compute; intros H;
    first [reflexivity | discriminate].
Qed.

Lemma notLt_chrEq (a : ascii) : notLt a = true -> chrEq true a "<" = false.
Proof.
  intros N. destruct (chrEq true a "<") eqn:E; [|reflexivity].
  apply canonical_lt in E. subst a. discriminate.
Qed.

(** The pattern begins with [<]: it fails where there is none. *)
Lemma scriptRegex_head (x : MState) (c : Continuation) :
  (forall a s', rest x = String a s' -> notLt a = true) ->
  compile true scriptRegex x c = None.
Proof.
  intros H. unfold scriptRegex. cbn [lit].
  change (compile true (Cat (Cat (Chr "<") ?l) ?r) x c)
    with (charMatcher (fun a => chrEq true a "<") x
            (fun y => compile true l y (fun y' => compile true r y' c))).
  unfold charMatcher. destruct (rest x) as [|a s'] eqn:E; [reflexivity|].
  now rewrite (notLt_chrEq a (H a s' eq_refl)).
Qed.

(** A match begins at a [<]. *)
Lemma scriptRegex_begins (text : string) (pos : nat) (m : Match) :
  exec true scriptRegex text pos = Some m ->
  pos <= index m /\ exists s', drop (index m) text = String "<" s'.
Proof.
  intros H. apply exec_sound in H as (x0 & E0 & _ & S0 & Hspan & Hfrom & _).
  split; [exact Hfrom|].
  unfold scriptRegex in Hspan. cbn [lit] in Hspan.
  apply Span_cat_inv in Hspan as (x1 & H1 & _).
  apply Span_cat_inv in H1 as (x2 & H1 & _).
  inversion H1 as [ch x a s' E P | | | | | | | | | | |]; subst.
  apply canonical_lt in P. subst a.
  exists s'. unfold synced in S0. now rewrite <- E0, <- S0.
Qed.

Lemma exec_without_lt (text : string) (pos : nat) :
  every notLt (drop pos text) = true -> exec true scriptRegex text pos = None.
Proof.
  intros H. destruct (exec true scriptRegex text pos) as [m|] eqn:X; [|reflexivity].
  apply scriptRegex_begins in X as (Hle & s' & Hd).
  apply (every_drop notLt (index m - pos)) in H.
  rewrite drop_drop in H. replace (pos + (index m - pos)) with (index m) in H by lia.
  rewrite Hd in H. discriminate.
Qed.

Lemma replaceFrom_without_lt (fuel : nat) (text : string) (pos : nat) :
  every notLt (drop pos text) = true ->
  replaceFrom fuel text pos = Some (drop pos text).
Proof.
  intros H. destruct fuel; simpl; now rewrite (exec_without_lt text pos H).
Qed.

(** X5. A text without [<] goes to the converter as it is. *)
Theorem text_without_markup_is_kept
    (marked_parse : string -> option string) (text : string) :
  every notLt text = true ->
  removeScripts text = Some text /\
  parseMarkdown marked_parse text =
    match marked_parse text with
    | Some html => html
    | None => text
    end.
Proof.
  intros H.
  assert (R : removeScripts text = Some text)
    by (apply (replaceFrom_without_lt _ text 0); exact H).
  split; [exact R|]. unfold parseMarkdown. now rewrite R.
Qed.

Lemma text_without_markup_is_kept_witness :
  removeScripts "if a > b then **stop**" = Some "if a > b then **stop**".
Proof.
  apply (text_without_markup_is_kept (fun s => Some s) "if a > b then **stop**").
  reflexivity.
Defined.


(** *** A script block without markup in it *)

(** A literal under the flag [i] takes a text that is the same but for the
    case of its letters. *)
Lemma lit_complete_ci (s : string) :
  forall s' x c r,
    rest x = s' ++ r -> sameLetters s' s = true ->
    compile true (lit s) x c = c (advanceBy x s').
Proof.
  induction s as [|ch s IH]; intros s' x c r H L;
    destruct s' as [|a s']; try discriminate; [reflexivity|].
  simpl in L. apply andb_prop in L as [La Ls].
  cbn [lit].
  change (compile true (Cat (Chr ch) (lit s)) x c)
    with (charMatcher (fun b => chrEq true b ch) x
            (fun y => compile true (lit s) y c)).
  rewrite (charMatcher_step _ x _ a (s' ++ r) H La).
  rewrite (IH s' (advance x a (s' ++ r)) c r eq_refl Ls).
  cbn [advanceBy]. rewrite H. reflexivity.
Qed.

(** A greedy star of a class takes the whole run of the class, when what
    follows succeeds there. *)
Lemma greedy_class_exact (p : ascii -> bool) (c : Continuation) (w : string) :
  forall n x r res,
    rest x = w ++ r -> every p w = true ->
    (forall a s', r = String a s' -> p a = false) ->
    String.length (rest x) <= n ->
    c (advanceBy x w) = Some res ->
    repeatMatcher n (charMatcher p) true x c = Some res.
Proof.
  induction w as [|a w IH]; intros n x r res H Pw Hr Hn Hc.
  - simpl in H, Hc. destruct n; [exact Hc|]. rewrite repeatMatcher_S.
    unfold charMatcher. rewrite H. destruct r as [|b s']; simpl; [exact Hc|].
    now rewrite (Hr b s' eq_refl).
  - simpl in Pw. apply andb_prop in Pw as [Pa Pw].
    destruct n as [|n]; [rewrite H in Hn; simpl in Hn; lia|].
    rewrite repeatMatcher_S.
    rewrite (charMatcher_step p x _ a (w ++ r) H Pa).
    cbn [advance endIndex]. rewrite succ_eqb_self.
    rewrite (IH n (advance x a (w ++ r)) r res eq_refl Pw Hr).
    + reflexivity.
    + rewrite H in Hn. simpl in *. lia.
    + cbn [advanceBy] in Hc. rewrite H in Hc. exact Hc.
Qed.

(** The search passes over a text without [<]. *)
Lemma search_skip (pre s : string) :
  every notLt pre = true ->
  forall i p, exists p',
    search (compile true scriptRegex) i p (pre ++ s)
      = search (compile true scriptRegex) (i + String.length pre) p' s.
Proof.
  induction pre as [|a pre IH]; intros N i p.
  - exists p. simpl. now rewrite Nat.add_0_r.
  - simpl in N. apply andb_prop in N as [Na Np].
    destruct (IH Np (S i) (Some a)) as [p' Hp'].
    exists p'. cbn [append search].
    rewrite scriptRegex_head.
    + rewrite Hp'. simpl. f_equal. lia.
    + cbn [rest]. intros b s' E. injection E as <- _. exact Na.
Qed.

Lemma advanceBy_app (w1 w2 : string) :
  forall x, advanceBy x (w1 ++ w2) = advanceBy (advanceBy x w1) w2.
Proof.
  induction w1 as [|a w1 IH]; intros x; simpl; [reflexivity | apply IH].
Qed.

Lemma advanceBy_endIndex (w : string) :
  forall x, endIndex (advanceBy x w) = endIndex x + String.length w.
Proof.
  induction w as [|a w IH]; intros x; simpl; [lia|]. rewrite IH. simpl. lia.
Qed.

Lemma sameLetters_length (a b : string) :
  sameLetters a b = true -> String.length a = String.length b.
Proof.
  revert b. induction a as [|x a IH]; intros [|y b] H; try discriminate;
    [reflexivity|].
  simpl in H. apply andb_prop in H as [_ H]. simpl. f_equal. auto.
Qed.

Lemma search_here (m : Matcher) (i : nat) (p : option ascii) (s : string) (y : MState) :
  m (mkMState i p s []) (fun y' => Some y') = Some y ->
  search m i p s = Some (mkMatch i y).
Proof. intros H. destruct s; simpl; now rewrite H. Qed.

Lemma ltb_ge_0 (n : nat) : (n <? 0) = false.
Proof. apply Nat.ltb_ge. lia. Qed.

(** The block is matched, from its [<] to the end of its closing tag. *)
Lemma scriptRegex_block (o mid cl post : string) (x : MState) :
  rest x = o ++ mid ++ cl ++ post ->
  sameLetters o "<script" = true ->
  sameLetters cl "</script>" = true ->
  every notLt mid = true ->
  startsWithWord mid = false ->
  compile true scriptRegex x (fun y => Some y)
    = Some (advanceBy x (o ++ mid ++ cl)).
Proof.
  intros R Lo Lc Nm Wm. unfold scriptRegex.
  change (compile true (Cat (lit "<script") ?r) x ?c)
    with (compile true (lit "<script") x (fun y => compile true r y c)).
  rewrite (lit_complete_ci "<script" o x _ (mid ++ cl ++ post) R Lo).
  pose proof (advanceBy_rest o x _ R) as R1.
  assert (Hcl : exists c1 cl', cl = String c1 cl' /\ c1 = "<"%char).
  { destruct cl as [|c1 cl']; [discriminate|]. simpl in Lc.
    apply andb_prop in Lc as [L1 _]. apply canonical_lt in L1. eauto. }
  destruct Hcl as (c1 & cl' & Ecl & Ec1).
  assert (Hprev : isWordAt (prev (advanceBy x o)) = true).
  { destruct o as [|o1 [|o2 [|o3 [|o4 [|o5 [|o6 [|o7 [|o8 o]]]]]]]];
      simpl in Lo; try discriminate;
      try (rewrite !andb_false_r in Lo; discriminate).
    cbn [advanceBy advance prev isWordAt].
    apply canonical_t_word.
    do 6 (apply andb_prop in Lo as [_ Lo]).
    change (chrEq true o7 "t" && true = true) in Lo.
    now rewrite andb_true_r in Lo. }
  assert (Hnext : isWordAt (next (advanceBy x o)) = false).
  { unfold next. rewrite R1. destruct mid as [|b mid]; simpl.
    - rewrite Ecl, Ec1. reflexivity.
    - exact Wm. }
  set (x1 := advanceBy x o) in *.
  change (compile true (Cat WordB ?r) x1 ?c)
    with (if xorb (isWordAt (prev x1)) (isWordAt (next x1))
          then compile true r x1 c else None).
  rewrite Hprev, Hnext. cbn [xorb].
  change (compile true (Cat (Star true (Class notLt)) ?r) x1 ?c)
    with (repeatMatcher (String.length (rest x1)) (charMatcher notLt) true x1
            (fun y => compile true r y c)).
  pose proof (advanceBy_rest mid x1 _ R1) as R2.
  set (x2 := advanceBy x1 mid) in *.
  assert (Hclose : compile true (lit "</script>") x2 (fun y => Some y)
                   = Some (advanceBy x2 cl))
    by (apply (lit_complete_ci "</script>" cl x2 _ post R2 Lc)).
  rewrite (greedy_class_exact notLt _ mid _ x1 (cl ++ post) (advanceBy x2 cl) R1 Nm).
  - unfold x2, x1. now rewrite !advanceBy_app.
  - intros a s' E. rewrite Ecl, Ec1 in E. injection E as <- _. reflexivity.
  - lia.
  - fold x2.
    change (compile true (Cat (Star true ?g) (lit "</script>")) x2 ?c)
      with (repeatMatcher (String.length (rest x2)) (compile true g) true x2
              (fun y => compile true (lit "</script>") y c)).
    assert (Hlen : exists n, String.length (rest x2) = S n).
    { rewrite R2, Ecl. simpl. eauto. }
    destruct Hlen as [n ->]. rewrite repeatMatcher_S.
    change (compile true (NonCap (Cat (NegAhead (lit "</script>")) ?r)) x2 ?d)
      with (match compile true (lit "</script>") x2 (fun y => Some y) with
            | Some _ => None
            | None => compile true r x2 d
            end).
    rewrite Hclose. reflexivity.
Qed.

(** X6. A script block that has no [<] in it, in a text that has none either,
    is taken out, tags and all, whatever the case of the letters of its
    tags. *)
Theorem flat_script_block_is_removed (pre o mid cl post : string) :
  every notLt pre = true ->
  every notLt mid = true ->
  every notLt post = true ->
  sameLetters o "<script" = true ->
  sameLetters cl "</script>" = true ->
  startsWithWord mid = false ->
  removeScripts (pre ++ o ++ mid ++ cl ++ post) = Some (pre ++ post).
Proof.
  intros Npre Nmid Npost Lo Lc Wm.
  set (text := pre ++ o ++ mid ++ cl ++ post).
  set (block := o ++ mid ++ cl).
  assert (Htext : text = pre ++ block ++ post).
  { unfold text, block. now rewrite !append_assoc. }
  assert (Hlen : String.length text
                 = String.length pre + String.length block + String.length post).
  { rewrite Htext, !length_append. lia. }
  assert (Hblock : 0 < String.length block).
  { unfold block. rewrite !length_append, (sameLetters_length _ _ Lo). simpl. lia. }
  assert (Hexec : exists m,
    exec true scriptRegex text 0 = Some m /\
    index m = String.length pre /\
    lastIndexOf m = String.length pre + String.length block).
  { destruct (search_skip pre (o ++ mid ++ cl ++ post) Npre 0 (charBefore 0 text))
      as [p' Hs].
    fold text in Hs. cbn [Nat.add] in Hs.
    set (x0 := mkMState (String.length pre) p' (o ++ mid ++ cl ++ post) []) in *.
    assert (Hm : compile true scriptRegex x0 (fun y => Some y)
                 = Some (advanceBy x0 block))
      by (apply (scriptRegex_block o mid cl post); auto).
    exists (mkMatch (String.length pre) (advanceBy x0 block)).
    split; [|split; [reflexivity|]].
    - unfold exec. rewrite ltb_ge_0. cbn [drop]. rewrite Hs.
      now apply search_here.
    - unfold lastIndexOf. cbn [final]. now rewrite advanceBy_endIndex. }
  destruct Hexec as (m & Hm & Hi & Hl).
  unfold removeScripts. fold text.
  destruct (String.length text) as [|fuel] eqn:Ef; [lia|].
  cbn [replaceFrom]. rewrite Hm.
  assert (Hpost : drop (lastIndexOf m) text = post).
  { rewrite Hl, Htext, <- append_assoc, <- length_append.
    apply drop_append_length. }
  rewrite (replaceFrom_without_lt fuel text (lastIndexOf m));
    [| now rewrite Hpost].
  rewrite Hpost, Hi. f_equal. f_equal.
  unfold substring. rewrite Nat.min_0_l, Nat.max_0_l, Nat.sub_0_r. cbn [drop].
  rewrite Htext. apply take_append_length.
Qed.

Lemma flat_script_block_is_removed_witness :
  removeScripts
    (ex_script_pre ++ ex_script_open ++ ex_script_mid ++ ex_script_close
       ++ ex_script_post)
    = Some (ex_script_pre ++ ex_script_post).
Proof.
  apply (flat_script_block_is_removed ex_script_pre ex_script_open ex_script_mid
           ex_script_close ex_script_post); reflexivity.
Defined.

End ScriptRemoval.

(** ** Submitting *)

Module SubmitFacts.

Import JS JSFacts StringFacts ControllerFacts TurnFacts.
Local Open Scope string_scope.
Local Open Scope nat_scope.

#[local] Opaque Markdown.parseMarkdown showZ Segmenter.formatAndDisplayAIResponse
  JS.trim String.append.

Lemma toLowerCase_take (n : nat) :
  forall s, toLowerCase (take n s) = take n (toLowerCase s).
Proof.
  induction n as [|n IH]; intros [|c s]; simpl; try reflexivity.
  now rewrite IH.
Qed.

Lemma toLowerCase_length (s : string) :
  String.length (toLowerCase s) = String.length s.
Proof. induction s as [|c s IH]; simpl; [reflexivity | now rewrite IH]. Qed.

(** X7. The prompt of an image request is what follows the keyword in the
    input as the user wrote it, trimmed, and it is not empty; the keyword
    may be written in any case.  A text request carries the input as it
    is. *)
Theorem image_prompt_is_the_rest (text : string) :
  (forall imagePrompt,
     classify text = ImagePath imagePrompt ->
     exists k rest,
       text = k ++ rest /\
       In (toLowerCase k) IMAGE_GENERATION_KEYWORDS /\
       imagePrompt = trim rest /\
       imagePrompt <> "") /\
  (forall t, classify text = TextPath t -> t = text).
Proof.
  rewrite classify_find.
  destruct (find (fun k => startsWith (toLowerCase text) k) IMAGE_GENERATION_KEYWORDS)
    as [keyword|] eqn:F.
  - apply find_some in F as [Hin Hp].
    unfold startsWith in Hp. apply prefix_correct in Hp as [tail Ht].
    cbv zeta. unfold substringFrom.
    destruct (truthy (trim (drop (String.length keyword) text))) eqn:T; split;
      try (intros ? H; congruence).
    intros p H. injection H as <-.
    exists (take (String.length keyword) text), (drop (String.length keyword) text).
    repeat split.
    + symmetry. apply take_drop.
    + rewrite toLowerCase_take, Ht.
      rewrite take_append_length. exact Hin.
    + intros E. rewrite E in T. discriminate.
  - split; intros ? H; congruence.
Qed.

Lemma image_prompt_is_the_rest_witness :
  exists k rest,
    "Draw A Picture Of  a red fox " = k ++ rest /\
    In (toLowerCase k) IMAGE_GENERATION_KEYWORDS /\
    "a red fox" = trim rest /\
    "a red fox" <> "".
Proof.
  apply (proj1 (image_prompt_is_the_rest "Draw A Picture Of  a red fox ")).
  vm_compute. reflexivity.
Defined.


Section WithPage.

Variable API_KEY : option string.
Variable marked_parse : string -> option string.
Variable now : nat -> Z.

(** Without a key, [handleSendMessage] puts an error on the page and does
    nothing else. *)
Lemma handleSendMessage_no_key (a : App) :
  truthyOpt API_KEY = false ->
  exists a',
    handleSendMessage API_KEY marked_parse now a = (None, a') /\
    chatContainer a' =
      (chatContainer a ++ [(nextRef a, bubbleOf marked_parse (noKeyMessage now a))])%list /\
    localStorage a' = localStorage a /\
    messageInput_value a' = messageInput_value a /\
    messageInput_disabled a' = messageInput_disabled a /\
    sendButton_disabled a' = sendButton_disabled a /\
    statusMessage a' = statusMessage a /\
    chat a' = chat a.
Proof.
  intros HK. unfold handleSendMessage. rewrite HK. cbn [negb].
  destruct a as [ls cc nr v d1 d2 st ab ch clk]. cbn.
  eexists. split; [reflexivity|]. cbn. repeat split.
Qed.


End WithPage.



(** X9. Without a key the page never sends anything: a submit shows an error,
    even on a blank input, and leaves the input, the store and the session
    as they are; no page that can be reached has a request on its way. *)
Theorem missing_key_blocks_every_submit
    (API_KEY : option string) (marked_parse : string -> option string)
    (now : nat -> Z) :
  truthyOpt API_KEY = false ->
  (forall a, exists a',
     handleSendMessage API_KEY marked_parse now a = (None, a') /\
     chatContainer a' =
       (chatContainer a
          ++ [(nextRef a, bubbleOf marked_parse (noKeyMessage now a))])%list /\
     localStorage a' = localStorage a /\
     messageInput_value a' = messageInput_value a /\
     chat a' = chat a) /\
  (forall w, reachable API_KEY marked_parse now w ->
     pendings w = [] /\ enabled (app w)).
Proof.
  intros HK. split.
  - intros a.
    destruct (handleSendMessage_no_key API_KEY marked_parse now a HK)
      as (a' & E & C & L & V & _ & _ & _ & Ch).
    exists a'. auto.
  - intros w Hr.
    destruct (reachable_serialized API_KEY marked_parse now w Hr)
      as [(P & D1 & D2) | (p & _ & _ & _ & _ & K)].
    + split; [exact P | split; assumption].
    + congruence.
Qed.

Lemma missing_key_blocks_every_submit_witness :
  exists a',
    handleSendMessage None marked0 now0 (loaded None marked0 now0 None "hi")
      = (None, a') /\
    localStorage a' = None /\
    messageInput_value a' = "hi".
Proof.
  destruct (proj1 (missing_key_blocks_every_submit None marked0 now0 eq_refl)
              (loaded None marked0 now0 None "hi"))
    as (a' & E & _ & L & V & _).
  exists a'. repeat split; assumption.
Defined.

End SubmitFacts.

(** ** The store *)

Module HistoryFacts.

Import JS JSFacts StringFacts ControllerFacts TurnFacts SubmitFacts.
Local Open Scope string_scope.
Local Open Scope nat_scope.

#[local] Opaque Markdown.parseMarkdown showZ Segmenter.formatAndDisplayAIResponse
  JS.trim String.append.

Section WithPage.

Variable API_KEY : option string.
Variable marked_parse : string -> option string.
Variable now : nat -> Z.

(** What a call of [handleSendMessage] does to the store. *)
Lemma handleSendMessage_store (a : App) :
  exists l,
    loadChatHistory (snd (handleSendMessage API_KEY marked_parse now a))
      = (loadChatHistory a ++ l)%list /\
    List.length l <= 1.
Proof.
  destruct (truthyOpt API_KEY) eqn:HK.
  - destruct (truthy (trim (messageInput_value a))) eqn:HT.
    + destruct (handleSendMessage_accepted API_KEY marked_parse now a HK HT)
        as (p & bubble & a' & E & _ & L & _).
      rewrite E. cbn [snd]. eexists. unfold loadChatHistory at 1. rewrite L.
      split; [reflexivity | simpl; lia].
    + rewrite (handleSendMessage_blank API_KEY marked_parse now a HK HT).
      exists []. cbn [snd]. rewrite app_nil_r. split; [reflexivity | simpl; lia].
  - destruct (handleSendMessage_no_key API_KEY marked_parse now a HK)
      as (a' & E & _ & L & _).
    rewrite E. cbn [snd]. exists []. unfold loadChatHistory. rewrite L, app_nil_r.
    split; [reflexivity | simpl; lia].
Qed.

(** What a settlement does to the store. *)
Lemma resume_store (p : Pending) (r : Settled) (a : App) :
  answers p r = true ->
  exists l,
    loadChatHistory (snd (resume marked_parse now p r a))
      = (loadChatHistory a ++ l)%list /\
    List.length l <= 1.
Proof.
  assert (Hsame : forall a', localStorage a' = localStorage a ->
    exists l, loadChatHistory a' = (loadChatHistory a ++ l)%list /\ List.length l <= 1).
  { intros a' L. exists []. unfold loadChatHistory. rewrite L, app_nil_r.
    split; [reflexivity | simpl; lia]. }
  assert (Hone : forall a' m, settledBy a a' m ->
    exists l, loadChatHistory a' = (loadChatHistory a ++ l)%list /\ List.length l <= 1).
  { intros a' m (L & _). exists [m]. unfold loadChatHistory at 1. rewrite L.
    split; [reflexivity | simpl; lia]. }
  destruct p as [b text | b acc first | b prompt], r as [| c | | response | error];
    cbn [answers]; try discriminate; intros _.
  - apply Hsame. reflexivity.
  - destruct (open_rejected_finishes marked_parse now b text error a)
      as (a' & -> & H). cbn [snd]. eauto.
  - destruct (chunk_step marked_parse now b acc first c a)
      as (a' & -> & L & _). cbn [snd]. eauto.
  - destruct (final_finishes marked_parse now b acc first a)
      as (a' & -> & H). cbn [snd]. eauto.
  - destruct (chunk_rejected_finishes marked_parse now b acc first error a)
      as (a' & -> & H). cbn [snd]. eauto.
  - destruct (image_response_finishes marked_parse now b prompt response a)
      as (a' & -> & H). cbn [snd]. eauto.
  - destruct (image_rejected_finishes marked_parse now b prompt error a)
      as (a' & -> & H). cbn [snd]. eauto.
Qed.


End WithPage.

(** X10. No event of the page rewrites the store: clearing removes it, and
    every other event leaves it as it is or adds one message at its end. *)
Theorem history_only_grows
    (API_KEY : option string) (marked_parse : string -> option string)
    (now : nat -> Z) (w w' : World) :
  step API_KEY marked_parse now w w' ->
  (w' = mkWorld (exec_ (clearChat marked_parse now) (app w)) (pendings w) /\
   localStorage (app w') = None)
  \/
  (exists l,
     loadChatHistory (app w') = (loadChatHistory (app w) ++ l)%list /\
     List.length l <= 1).
Proof.
  intros Hstep.
  destruct Hstep as [w value Hen | w Hen | w Hen | w | w before after p r Hp Hans].
  - right. exists []. cbn [app]. rewrite app_nil_r.
    destruct w as [a ps]; destruct a; split; [reflexivity | simpl; lia].
  - right. cbn [app]. apply handleSendMessage_store.
  - right. cbn [app]. apply handleSendMessage_store.
  - left. split; [reflexivity|]. cbn [app]. destruct (app w); reflexivity.
  - right. cbn [app]. now apply resume_store.
Qed.

Lemma history_only_grows_witness :
  exists l,
    loadChatHistory (app busy0) = (loadChatHistory page0 ++ l)%list /\
    List.length l <= 1.
Proof.
  destruct (history_only_grows key0 marked0 now0 (mkWorld page0 []) busy0
              (step_click key0 marked0 now0 (mkWorld page0 []) eq_refl))
    as [[_ H] | H]; [vm_compute in H; discriminate | exact H].
Defined.



End HistoryFacts.

(** ** The nodes of the page *)

Module NodeFacts.

Import JS JSFacts StringFacts ControllerFacts TurnFacts SubmitFacts HistoryFacts.
Local Open Scope string_scope.
Local Open Scope nat_scope.

#[local] Opaque Markdown.parseMarkdown showZ Segmenter.formatAndDisplayAIResponse
  JS.trim String.append.

(** *** Changing and removing a node *)

Lemma updated_app (r : NodeRef) (f : MessageDiv -> MessageDiv)
    (l1 l2 : list (NodeRef * MessageDiv)) :
  updated r f (l1 ++ l2)%list = (updated r f l1 ++ updated r f l2)%list.
Proof. apply map_app. Qed.

Lemma updated_other (r : NodeRef) (f : MessageDiv -> MessageDiv)
    (l : list (NodeRef * MessageDiv)) :
  Forall (fun kd => fst kd <> r) l -> updated r f l = l.
Proof.
  induction 1 as [|[k d] l Hk _ IH]; [reflexivity|].
  unfold updated in *. cbn [map fst snd]. rewrite IH.
  apply Nat.eqb_neq in Hk. cbn [fst] in Hk. now rewrite Hk.
Qed.

Lemma updated_last (r : NodeRef) (f : MessageDiv -> MessageDiv)
    (l : list (NodeRef * MessageDiv)) (d : MessageDiv) :
  Forall (fun kd => fst kd <> r) l ->
  updated r f (l ++ [(r, d)])%list = (l ++ [(r, f d)])%list.
Proof.
  intros H. rewrite updated_app, (updated_other r f l H).
  unfold updated. cbn. now rewrite Nat.eqb_refl.
Qed.

Lemma updated_updated (r : NodeRef) (f g : MessageDiv -> MessageDiv)
    (l : list (NodeRef * MessageDiv)) :
  updated r f (updated r g l) = updated r (fun d => f (g d)) l.
Proof.
  unfold updated. rewrite map_map. apply map_ext. intros [k d]. cbn [fst snd].
  destruct (k =? r) eqn:E; cbn [fst snd]; now rewrite E.
Qed.

Lemma updated_ext (r : NodeRef) (f g : MessageDiv -> MessageDiv)
    (l : list (NodeRef * MessageDiv)) :
  (forall d, f d = g d) -> updated r f l = updated r g l.
Proof.
  intros H. unfold updated. apply map_ext. intros [k d]. cbn [fst snd].
  now rewrite H.
Qed.

Lemma without_last (r : NodeRef) (l : list (NodeRef * MessageDiv)) (d : MessageDiv) :
  Forall (fun kd => fst kd <> r) l -> without r (l ++ [(r, d)])%list = l.
Proof.
  intros H. unfold without. rewrite filter_app. cbn. rewrite Nat.eqb_refl. cbn.
  rewrite app_nil_r. induction H as [|[k e] l Hk _ IH]; [reflexivity|].
  cbn. apply Nat.eqb_neq in Hk. cbn [fst] in Hk. rewrite Hk. cbn. now rewrite IH.
Qed.

Lemma attached_other (a : App) (r : NodeRef) :
  attached a -> nextRef a <= r -> Forall (fun kd => fst kd <> r) (chatContainer a).
Proof.
  unfold attached. intros H Hr. eapply Forall_impl; [|exact H].
  intros kd Hk. cbn in Hk. unfold NodeRef in *. lia.
Qed.

(** *** What [addMessageToChat] appends *)

Lemma addMessageToChat_bubble (marked_parse : string -> option string)
    (message : StoredMessage) (isNew : bool) :
  addMessageToChat marked_parse message isNew
    = appendChild (bubbleOf marked_parse message).
Proof. reflexivity. Qed.

(** The loop of [populateChatFromHistory] appends one node for each stored
    message, in order, and changes nothing else on the page. *)
Lemma forEachStored_nodes (marked_parse : string -> option string)
    (history : list StoredMessage) :
  forall (geminiHistory : list Content) (a : App),
    let a' := snd (forEachStored marked_parse history geminiHistory a) in
    chatContainer a' =
      (chatContainer a
         ++ combine (seq (nextRef a) (List.length history))
              (map (bubbleOf marked_parse) history))%list /\
    nextRef a' = nextRef a + List.length history /\
    messageInput_value a' = messageInput_value a /\
    statusMessage a' = statusMessage a /\
    ariaBusy a' = ariaBusy a /\
    clock a' = clock a.
Proof.
  induction history as [|msg history IH]; intros g a.
  - cbn. rewrite app_nil_r, Nat.add_0_r. repeat split.
  - cbn [forEachStored]. unfold bind.
    rewrite addMessageToChat_bubble. unfold appendChild. cbv beta iota zeta.
    match goal with
    | |- context [forEachStored _ _ ?g' ?a1'] =>
        destruct (IH g' a1') as (H1 & H2 & H3 & H4 & H5 & H6)
    end.
    rewrite H1, H2, H3, H4, H5, H6.
    destruct a as [ls cc nr v d1 d2 st ab ch clk]. cbn.
    rewrite <- app_assoc. repeat split. lia.
Qed.


Lemma populateChatFromHistory_nodes (marked_parse : string -> option string) (a : App) :
  let a' := exec_ (populateChatFromHistory marked_parse) a in
  chatContainer a' =
    (chatContainer a
       ++ combine (seq (nextRef a) (List.length (loadChatHistory a)))
            (map (bubbleOf marked_parse) (loadChatHistory a)))%list /\
  nextRef a' = nextRef a + List.length (loadChatHistory a) /\
  localStorage a' = localStorage a /\
  messageInput_value a' = messageInput_value a /\
  statusMessage a' = statusMessage a /\
  ariaBusy a' = ariaBusy a.
Proof.
  unfold exec_, populateChatFromHistory, bind, get, initializeChat, modify.
  destruct (forEachStored_nodes marked_parse (loadChatHistory a) [] a)
    as (H1 & H2 & H3 & H4 & H5 & _).
  destruct (forEachStored_context marked_parse (loadChatHistory a) [] a)
    as (_ & _ & H6).
  destruct (forEachStored marked_parse (loadChatHistory a) [] a) as [g a1].
  cbn [snd] in *. destruct a1; cbn in *. auto 10.
Qed.

Lemma map_snd_combine_seq {A B : Type} (f : A -> B) (l : list A) (n : nat) :
  map snd (combine (seq n (List.length l)) (map f l)) = map f l.
Proof.
  revert n. induction l as [|x l IH]; intros n; cbn; [reflexivity|].
  now rewrite IH.
Qed.

Lemma combine_seq_below {A B : Type} (f : A -> B) (l : list A) (n : nat) :
  Forall (fun kd => fst kd < n + List.length l)
    (combine (seq n (List.length l)) (map f l)).
Proof.
  revert n. induction l as [|x l IH]; intros n; cbn; constructor.
  - cbn. lia.
  - eapply Forall_impl; [|apply (IH (S n))]. intros kd H. cbn in *. lia.
Qed.

Lemma bubbleOf_text (marked_parse : string -> option string)
    (m : StoredMessage) (text : string) :
  textContent m = Some text -> text <> "" -> isError m = false ->
  bubbleOf marked_parse m =
    mkDiv (id m) (role m) false
      [MarkdownContent false (Markdown.parseMarkdown marked_parse text)].
Proof.
  intros T N Er. unfold bubbleOf, contentOf, createMessageDiv, withChildren.
  rewrite T, Er. cbn. destruct text; [contradiction | reflexivity].
Qed.

(** The page after the script has run. *)
Lemma loaded_nodes
    (API_KEY : option string) (marked_parse : string -> option string)
    (now : nat -> Z) (storage : option (list StoredMessage)) (value : string) :
  let a := loaded API_KEY marked_parse now storage value in
  map snd (chatContainer a) =
    ((if truthyOpt API_KEY then []
      else [bubbleOf marked_parse (configurationError now)])
       ++ map (bubbleOf marked_parse) (stored storage))%list /\
  localStorage a = storage /\
  messageInput_value a = value /\
  statusMessage a = None /\
  attached a /\
  ariaBusy a = false.
Proof.
  cbv zeta.
  assert (Hload : exists a1,
    loaded API_KEY marked_parse now storage value
      = exec_ (populateChatFromHistory marked_parse) a1 /\
    chatContainer a1
      = (if truthyOpt API_KEY then []
         else [(0, bubbleOf marked_parse (configurationError now))]) /\
    nextRef a1 = (if truthyOpt API_KEY then 0 else 1) /\
    localStorage a1 = storage /\ messageInput_value a1 = value /\
    statusMessage a1 = None /\ ariaBusy a1 = false).
  { unfold loaded, pageLoad, exec_. unfold bind at 1.
    destruct (truthyOpt API_KEY); cbn [negb]; eexists;
      (split; [reflexivity|]); repeat split. }
  destruct Hload as (a1 & -> & C1 & N1 & L1 & V1 & S1 & A1).
  destruct (populateChatFromHistory_nodes marked_parse a1)
    as (H1 & H2 & H3 & H4 & H5 & H6).
  assert (Hh : loadChatHistory a1 = stored storage).
  { unfold loadChatHistory, stored. now rewrite L1. }
  rewrite Hh in H1, H2.
  repeat split.
  - rewrite H1, C1, map_app, map_snd_combine_seq.
    now destruct (truthyOpt API_KEY).
  - now rewrite H3.
  - now rewrite H4.
  - now rewrite H5.
  - unfold attached. rewrite H1, H2, C1, N1. apply Forall_app. split.
    + destruct (truthyOpt API_KEY); [constructor|].
      constructor; [cbn; lia | constructor].
    + apply combine_seq_below.
  - now rewrite H6.
Qed.

(** X12. A reload shows the store: one node for each stored message, in stored
    order, built as [addMessageToChat] builds it, after the configuration
    error when there is no key.  A stored text comes back as one block of
    markdown, whatever segments it was shown in before.  The store and the
    input are as they were, and nothing shows in the status line. *)
Theorem reload_shows_the_store
    (API_KEY : option string) (marked_parse : string -> option string)
    (now : nat -> Z) (storage : option (list StoredMessage)) (value : string) :
  let a := loaded API_KEY marked_parse now storage value in
  map snd (chatContainer a) =
    ((if truthyOpt API_KEY then []
      else [bubbleOf marked_parse (configurationError now)])
       ++ map (bubbleOf marked_parse) (stored storage))%list /\
  (forall m text,
     textContent m = Some text -> text <> "" -> isError m = false ->
     bubbleOf marked_parse m =
       mkDiv (id m) (role m) false
         [MarkdownContent false (Markdown.parseMarkdown marked_parse text)]) /\
  localStorage a = storage /\
  messageInput_value a = value /\
  statusMessage a = None.
Proof.
  destruct (loaded_nodes API_KEY marked_parse now storage value)
    as (H1 & H2 & H3 & H4 & _).
  cbv zeta. repeat split; auto. apply bubbleOf_text.
Qed.

Lemma reload_shows_the_store_witness :
  map snd (chatContainer (loaded key0 marked0 now0 (Some [ex_stored_reply]) "")) =
    [mkDiv "ai-5" model false
       [MarkdownContent false
          (Markdown.parseMarkdown marked0 SegmenterSpec.ex_spec)]].
Proof.
  destruct (reload_shows_the_store key0 marked0 now0 (Some [ex_stored_reply]) "")
    as (H1 & H2 & _).
  rewrite H1. cbn [truthyOpt key0 stored map app].
  rewrite (H2 ex_stored_reply SegmenterSpec.ex_spec eq_refl); [reflexivity | | reflexivity].
  vm_compute. discriminate.
Defined.

(** *** Clearing *)

Section Clearing.

Variable marked_parse : string -> option string.
Variable now : nat -> Z.

Lemma clearChat_page (a : App) :
  let a' := exec_ (clearChat marked_parse now) a in
  localStorage a' = None /\
  chat a' = Some [] /\
  chatContainer a' = [(nextRef a, bubbleOf marked_parse (clearedNotice now a))] /\
  nextRef a' = S (nextRef a) /\
  clock a' = S (S (clock a)) /\
  messageInput_value a' = messageInput_value a /\
  messageInput_disabled a' = messageInput_disabled a /\
  sendButton_disabled a' = sendButton_disabled a /\
  statusMessage a' = statusMessage a /\
  ariaBusy a' = ariaBusy a.
Proof. destruct a. cbn. repeat split. Qed.

End Clearing.

(** X13. Clearing, once the user has confirmed it, removes the store, starts
    the session without a context and leaves one node on the page, the
    notice, which is not stored; the input and the status are left as they
    are.  After a reload nothing of the conversation comes back.  When the
    user does not confirm, nothing happens. *)
Theorem clear_chat_forgets_everything
    (marked_parse : string -> option string) (now : nat -> Z) (a : App) :
  confirmClearChat marked_parse now false a = (tt, a) /\
  (let a' := exec_ (confirmClearChat marked_parse now true) a in
   localStorage a' = None /\
   chat a' = Some [] /\
   chatContainer a' = [(nextRef a, bubbleOf marked_parse (clearedNotice now a))] /\
   messageInput_value a' = messageInput_value a /\
   messageInput_disabled a' = messageInput_disabled a /\
   sendButton_disabled a' = sendButton_disabled a /\
   statusMessage a' = statusMessage a /\
   (forall API_KEY now' value,
      truthyOpt API_KEY = true ->
      chatContainer (loaded API_KEY marked_parse now' (localStorage a') value) = [] /\
      chat (loaded API_KEY marked_parse now' (localStorage a') value) = Some [])).
Proof.
  split; [reflexivity|].
  change (exec_ (confirmClearChat marked_parse now true) a)
    with (exec_ (clearChat marked_parse now) a).
  destruct (clearChat_page marked_parse now a)
    as (L & Ch & C & _ & _ & V & D1 & D2 & St & _).
  cbv zeta. rewrite L. repeat split; auto.
  - destruct (loaded_nodes API_KEY marked_parse now' None value) as (H1 & _).
    rewrite H in H1. cbn in H1.
    destruct (chatContainer (loaded API_KEY marked_parse now' None value));
      [reflexivity | discriminate].
  - now rewrite loaded_context.
Qed.

Lemma clear_chat_forgets_everything_witness :
  chatContainer
    (loaded key0 marked0 now0
       (localStorage (exec_ (confirmClearChat marked0 now0 true) (app busy0))) "")
    = [].
Proof.
  destruct (clear_chat_forgets_everything marked0 now0 (app busy0))
    as (_ & _ & _ & _ & _ & _ & _ & _ & H).
  exact (proj1 (H key0 now0 "" eq_refl)).
Defined.

(** X14. Clearing does not stop a request that is on its way.  When the stream
    ends after the chat was cleared, the reply is stored, alone in the
    store, and is not shown: the page has the notice and nothing else.  A
    reload then starts the session from the reply of the model, without the
    message of the user that it answers. *)
Theorem clear_during_a_turn_keeps_the_reply
    (API_KEY : option string) (marked_parse : string -> option string)
    (now now' : nat -> Z)
    (b : NodeRef) (acc : string) (first : bool) (a : App) (value : string) :
  b < nextRef a ->
  let a1 := exec_ (clearChat marked_parse now) a in
  exists a',
    resume marked_parse now (AwaitNextChunk b acc first) StreamEnd a1 = (None, a') /\
    localStorage a' = Some [replyMessage now acc a1] /\
    chatContainer a' = [(nextRef a, bubbleOf marked_parse (clearedNotice now a))] /\
    messageInput_disabled a' = false /\
    sendButton_disabled a' = false /\
    chat (loaded API_KEY marked_parse now' (localStorage a') value)
      = Some [mkContent model (orElse (trim acc) "[AI gave an empty response]")].
Proof.
  intros Hb. cbv zeta.
  destruct a as [ls cc nr v d1 d2 st ab ch clk]. cbn in Hb.
  assert (Hne : (nr =? b) = false) by (apply Nat.eqb_neq; unfold NodeRef in *; lia).
  eexists. split; [reflexivity|].
  rewrite loaded_context. cbn.
  rewrite Hne. cbn. rewrite Hne. cbn. rewrite Hne. cbn.
  repeat split.
  unfold upstreamContext, replayable, toContent. cbn.
  now rewrite truthy_orElse_marker.
Qed.

Lemma clear_during_a_turn_witness :
  exists a',
    resume marked0 now0 (AwaitNextChunk 1 "Hello" true) StreamEnd
      (exec_ (clearChat marked0 now0) (app busy0)) = (None, a') /\
    localStorage a'
      = Some [replyMessage now0 "Hello" (exec_ (clearChat marked0 now0) (app busy0))] /\
    List.length (chatContainer a') = 1.
Proof.
  destruct (clear_during_a_turn_keeps_the_reply key0 marked0 now0 now0
              1 "Hello" true (app busy0) "")
    as (a' & H1 & H2 & H3 & _).
  - vm_compute. lia.
  - exists a'. split; [exact H1|]. split; [exact H2|]. now rewrite H3.
Defined.

End NodeFacts.

(** ** What a turn shows *)

Module TurnNodes.

Import JS JSFacts StringFacts ControllerFacts TurnFacts SubmitFacts HistoryFacts NodeFacts.
Local Open Scope string_scope.
Local Open Scope nat_scope.

Lemma append_nil_l (s : string) : "" ++ s = s.
Proof. reflexivity. Qed.

Lemma truthy_append_r (s t : string) : truthy t = true -> truthy (s ++ t) = true.
Proof. destruct s, t; simpl; congruence. Qed.

(** A stored reply is its own trimmed text, and is not empty. *)
Lemma reply_text_trimmed (acc : string) :
  truthy (orElse (trim acc) emptyResponseMarker) = true /\
  trim (orElse (trim acc) emptyResponseMarker) = orElse (trim acc) emptyResponseMarker.
Proof.
  unfold orElse. destruct (truthy (trim acc)) eqn:E.
  - split; [exact E | apply trim_idem].
  - split; reflexivity.
Qed.

Lemma fallbackText_trimmed (text : string) :
  truthy text = true -> trim text = text -> Segmenter.fallbackText text = text.
Proof.
  intros T E. unfold Segmenter.fallbackText. rewrite E.
  destruct text; [discriminate | reflexivity].
Qed.

(** The text of an error of an image request is never empty. *)
Lemma outcomeMessage_error (now : nat -> Z) (svc : Service) (p : Pending) (a : App) :
  forImage p = true ->
  kindOf (outcomeMessage now svc p a) = Some ErrorMessage ->
  exists X, textContent (outcomeMessage now svc p a) = Some X /\ truthy X = true.
Proof.
  destruct p as [b text | b acc first | b prompt]; try discriminate.
  intros _. cbn [outcomeMessage].
  destruct (generateImages svc prompt) as [error | response].
  - intros _. eexists; split; reflexivity.
  - unfold imageMessage.
    destruct (firstImageBytes response) as [error | [bytes|]]; cbn;
      try discriminate; intros _; eexists; split; reflexivity.
Qed.

#[local] Opaque Markdown.parseMarkdown showZ Segmenter.formatAndDisplayAIResponse
  JS.trim String.append.

Section WithPage.

Variable marked_parse : string -> option string.
Variable now : nat -> Z.

(** *** While the stream runs *)

(** The nodes after a chunk. *)
Lemma chunk_nodes (b : NodeRef) (acc : string) (first : bool)
    (chunkText : option string) (a : App) :
  chatContainer (snd (resume marked_parse now (AwaitNextChunk b acc first)
                        (Chunk chunkText) a))
    = (if truthyOpt chunkText
       then updated b
              (withChildren
                 [MarkdownContent false
                    (Markdown.parseMarkdown marked_parse (acc ++ valueOf chunkText))])
       else fun l => l)
        ((if first then fun l => l
          else updated b (withChildren [MarkdownContent false ""]))
           (chatContainer a)).
Proof.
  destruct a as [ls cc nr v d1 d2 st ab ch clk].
  unfold resume, handleTextMessage_chunk, bind, updateNode, modify, ret.
  destruct chunkText as [[|c t]|], first; reflexivity.
Qed.

Lemma withChildren_twice (l1 l2 : list Element) (d : MessageDiv) :
  withChildren l1 (withChildren l2 d) = withChildren l1 d.
Proof. reflexivity. Qed.

(** One chunk more: the placeholder shows the text so far. *)
Lemma chunk_shown (b : NodeRef) (acc : string) (first : bool)
    (chunkText : option string) (a : App) (C0 : list (NodeRef * MessageDiv)) :
  (if first
   then chatContainer a = updated b (withChildren (streamed marked_parse acc)) C0
   else chatContainer a = C0 /\ acc = "") ->
  chatContainer (snd (resume marked_parse now (AwaitNextChunk b acc first)
                        (Chunk chunkText) a))
    = updated b
        (withChildren
           (streamed marked_parse
              (if truthyOpt chunkText then acc ++ valueOf chunkText else acc)))
        C0.
Proof.
  intros H. rewrite chunk_nodes.
  destruct first.
  - rewrite H. destruct (truthyOpt chunkText) eqn:T; [|reflexivity].
    rewrite updated_updated. apply updated_ext. intros d.
    rewrite withChildren_twice. unfold streamed.
    rewrite truthy_append_r; [reflexivity|].
    destruct chunkText as [t|]; [exact T | discriminate].
  - destruct H as [-> ->]. destruct (truthyOpt chunkText) eqn:T.
    + rewrite updated_updated. apply updated_ext. intros d.
      rewrite withChildren_twice. unfold streamed.
      rewrite truthy_append_r; [reflexivity|].
      destruct chunkText as [t|]; [exact T | discriminate].
    + reflexivity.
Qed.

Lemma chunks_shown (b : NodeRef) (C0 : list (NodeRef * MessageDiv))
    (chunks : list (option string)) :
  forall (acc : string) (first : bool) (a : App),
    chunks <> [] ->
    (if first
     then chatContainer a = updated b (withChildren (streamed marked_parse acc)) C0
     else chatContainer a = C0 /\ acc = "") ->
    exists a',
      settleAll marked_parse now (AwaitNextChunk b acc first) (map Chunk chunks) a
        = (Some (AwaitNextChunk b (accumulate acc chunks) true), a') /\
      chatContainer a'
        = updated b (withChildren (streamed marked_parse (accumulate acc chunks))) C0 /\
      localStorage a' = localStorage a /\
      nextRef a' = nextRef a /\
      messageInput_value a' = messageInput_value a /\
      messageInput_disabled a' = messageInput_disabled a /\
      sendButton_disabled a' = sendButton_disabled a /\
      statusMessage a' = statusMessage a /\
      clock a' = clock a.
Proof.
  induction chunks as [|c chunks IH]; intros acc first a Hne H; [contradiction|].
  cbn [map settleAll]. unfold bind.
  pose proof (chunk_shown b acc first c a C0 H) as Hc.
  destruct (chunk_step marked_parse now b acc first c a)
    as (a1 & E & L & N & V & D1 & D2 & St & Ch & Ck & _).
  rewrite E in *. cbn [snd] in Hc. cbv beta iota.
  cbn [accumulate].
  destruct chunks as [|c' chunks].
  - cbn [map settleAll accumulate]. exists a1. repeat split; auto.
  - destruct (IH (if truthyOpt c then acc ++ valueOf c else acc) true a1)
      as (a' & E' & C' & L' & N' & V' & D1' & D2' & St' & Ck');
      [discriminate | exact Hc |].
    exists a'. rewrite E'. repeat split; auto; congruence.
Qed.

End WithPage.

(** X15. While the stream runs, the placeholder shows what has come so far: the
    accumulated text as markdown, rendered anew at every chunk, and nothing at
    all as long as no chunk has had a text.  Nothing is stored and the input
    stays as it is until the stream ends. *)
Theorem stream_shows_what_has_arrived
    (marked_parse : string -> option string) (now : nat -> Z)
    (b : NodeRef) (chunks : list (option string)) (a : App) :
  chunks <> [] ->
  exists a',
    settleAll marked_parse now (AwaitNextChunk b "" false) (map Chunk chunks) a
      = (Some (AwaitNextChunk b (accumulate "" chunks) true), a') /\
    chatContainer a'
      = updated b (withChildren (streamed marked_parse (accumulate "" chunks)))
          (chatContainer a) /\
    localStorage a' = localStorage a /\
    messageInput_value a' = messageInput_value a /\
    messageInput_disabled a' = messageInput_disabled a /\
    sendButton_disabled a' = sendButton_disabled a /\
    statusMessage a' = statusMessage a.
Proof.
  intros Hne.
  destruct (chunks_shown marked_parse now b (chatContainer a) chunks "" false a Hne)
    as (a' & E & C & L & _ & V & D1 & D2 & St & _); [split; reflexivity|].
  exists a'. repeat split; auto.
Qed.

Lemma stream_shows_what_has_arrived_witness :
  exists a',
    settleAll marked0 now0 (AwaitNextChunk 1 "" false)
      (map Chunk [None; Some "Hel"; Some "lo"]) (app busy0)
      = (Some (AwaitNextChunk 1 "Hello" true), a') /\
    chatContainer a'
      = updated 1 (withChildren (streamed marked0 "Hello")) (chatContainer (app busy0)).
Proof.
  destruct (stream_shows_what_has_arrived marked0 now0 1
             [None; Some "Hel"; Some "lo"] (app busy0))
    as (a' & E & C & _); [discriminate|].
  exists a'. split; [exact E | exact C].
Defined.


(** *** When the request ends *)

Section Endings.

Variable API_KEY : option string.
Variable marked_parse : string -> option string.
Variable now : nat -> Z.

Lemma final_nodes (b : NodeRef) (acc : string) (first : bool) (a : App) :
  chatContainer (snd (resume marked_parse now (AwaitNextChunk b acc first) StreamEnd a))
    = updated b
        (fun d => mkDiv ("ai-" ++ showZ (now (clock a))) (roleClass d) (messageError d)
                    (displayAIResponse marked_parse
                       (orElse (trim acc) emptyResponseMarker)))
        (chatContainer a).
Proof.
  destruct a as [ls cc nr v d1 d2 st ab ch clk].
  unfold resume, handleTextMessage_final, bind, updateNode, modify, ret. cbn.
  unfold updated. rewrite !map_map. apply map_ext. intros [k d]. cbn.
  destruct (k =? b) eqn:E; cbn; rewrite ?E; cbn; rewrite ?E; reflexivity.
Qed.

Lemma catch_nodes (p : Pending) (b : NodeRef) (error : Thrown) (a : App) :
  (exists text, p = AwaitSendMessageStream b text)
  \/ (exists acc first, p = AwaitNextChunk b acc first) ->
  chatContainer (snd (resume marked_parse now p (Rejected error) a))
    = (without b (chatContainer a)
         ++ [(nextRef a, bubbleOf marked_parse (textError now error a))])%list.
Proof.
  intros Hp. destruct a as [ls cc nr v d1 d2 st ab ch clk].
  pose proof (without_absent b cc) as Wa. unfold without in *.
  destruct Hp as [[text ->] | (acc & first & ->)];
    unfold resume, handleTextMessage_catch, bind, get, contains, textError; cbn;
    destruct (existsb (fun kd => fst kd =? b) cc) eqn:E; cbn;
    rewrite ?(Wa eq_refl); reflexivity.
Qed.

Lemma image_response_nodes (b : NodeRef) (prompt : string)
    (response : GenerateImagesResponse) (a : App) :
  exists f,
    chatContainer (snd (resume marked_parse now (AwaitGenerateImages b prompt)
                          (ImagesResponse response) a))
      = updated b f (chatContainer a) /\
    forall d,
      dataMessageId (f d) = id (imageMessage now prompt response a) /\
      roleClass (f d) = roleClass d /\
      messageError (f d)
        = messageError d || isError (imageMessage now prompt response a) /\
      shownLive marked_parse true (imageMessage now prompt response a) (f d).
Proof.
  destruct a as [ls cc nr v d1 d2 st ab ch clk].
  unfold resume, handleImageGeneration_response, handleImageGeneration_catch,
    handleImageGeneration_end, imageMessage, imageError, bind, updateNode, modify, ret.
  unfold shownLive.
  destruct (firstImageBytes response) as [error | [bytes|]]; cbn;
    unfold updated; rewrite !map_map.
  - exists (fun d => mkDiv ("err-img-api-" ++ showZ (now clk)) (roleClass d) true
                       [MarkdownContent true
                          (Markdown.parseMarkdown marked_parse
                             ("Error generating image: "
                                ++ errorMessageOr error "Failed to generate image."))]).
    split; [|intros d; cbn; rewrite ?orb_true_r, ?orb_false_r; repeat split].
    apply map_ext. intros [k d]. cbn.
    destruct (k =? b) eqn:E; cbn; rewrite ?E; cbn; rewrite ?E; cbn; rewrite ?E;
      cbn; rewrite ?E; reflexivity.
  - exists (fun d => mkDiv ("ai-img-" ++ showZ (now clk)) (roleClass d) (messageError d)
                       [Img ("data:image/jpeg;base64," ++ bytes)
                            ("Generated image for: " ++ prompt)]).
    split; [|intros d; cbn; rewrite ?orb_true_r, ?orb_false_r; repeat split].
    apply map_ext. intros [k d]. cbn.
    destruct (k =? b) eqn:E; cbn; rewrite ?E; cbn; rewrite ?E; reflexivity.
  - exists (fun d => mkDiv ("err-img-" ++ showZ (now clk)) (roleClass d) true
                       [MarkdownContent true
                          (Markdown.parseMarkdown marked_parse
                             "Sorry, I could not generate an image. The image data might be missing.")]).
    split; [|intros d; cbn; rewrite ?orb_true_r, ?orb_false_r; repeat split].
    apply map_ext. intros [k d]. cbn.
    destruct (k =? b) eqn:E; cbn; rewrite ?E; cbn; rewrite ?E; cbn; rewrite ?E;
      reflexivity.
Qed.

Lemma image_rejected_nodes (b : NodeRef) (prompt : string) (error : Thrown) (a : App) :
  exists f,
    chatContainer (snd (resume marked_parse now (AwaitGenerateImages b prompt)
                          (Rejected error) a))
      = updated b f (chatContainer a) /\
    forall d,
      dataMessageId (f d) = id (imageError now error a) /\
      roleClass (f d) = roleClass d /\
      messageError (f d) = true /\
      shownLive marked_parse true (imageError now error a) (f d).
Proof.
  destruct a as [ls cc nr v d1 d2 st ab ch clk].
  unfold resume, handleImageGeneration_catch, handleImageGeneration_end, imageError,
    bind, updateNode, modify, ret. cbn.
  unfold shownLive.
  unfold updated; rewrite !map_map.
  exists (fun d => mkDiv ("err-img-api-" ++ showZ (now clk)) (roleClass d) true
                     [MarkdownContent true
                        (Markdown.parseMarkdown marked_parse
                           ("Error generating image: "
                              ++ errorMessageOr error "Failed to generate image."))]).
  split; [|intros d; repeat split].
  apply map_ext. intros [k d]. cbn.
  destruct (k =? b) eqn:E; cbn; rewrite ?E; cbn; rewrite ?E; cbn; rewrite ?E;
    reflexivity.
Qed.

Lemma catch_ends (p : Pending) (b : NodeRef) (error : Thrown) (a : App)
    (C0 : list (NodeRef * MessageDiv)) (d : MessageDiv) :
  (exists text, p = AwaitSendMessageStream b text)
  \/ (exists acc first, p = AwaitNextChunk b acc first) ->
  chatContainer a = (C0 ++ [(b, d)])%list ->
  Forall (fun kd => fst kd <> b) C0 ->
  endsAs marked_parse false (snd (resume marked_parse now p (Rejected error) a)) C0
    (textError now error a).
Proof.
  intros Hp Hc H0.
  exists (nextRef a), (bubbleOf marked_parse (textError now error a)).
  rewrite (catch_nodes p b error a Hp), Hc, (without_last b C0 d H0).
  repeat split.
Qed.

Lemma stream_ends (b : NodeRef) (C0 : list (NodeRef * MessageDiv))
    (chunks : list (option string)) (failure : option Thrown) :
  forall (acc : string) (first : bool) (a : App) (d : MessageDiv),
    chatContainer a = (C0 ++ [(b, d)])%list ->
    Forall (fun kd => fst kd <> b) C0 ->
    roleClass d = model ->
    messageError d = false ->
    endsAs marked_parse false
      (snd (settleAll marked_parse now (AwaitNextChunk b acc first)
              (map Chunk chunks
                 ++ [match failure with
                     | Some error => Rejected error
                     | None => StreamEnd
                     end])%list a))
      C0 (streamMessage now acc chunks failure a).
Proof.
  induction chunks as [|c chunks IH]; intros acc first a d Hc H0 Hr He.
  - cbn [map]. rewrite app_nil_l. cbn [settleAll]. unfold bind.
    destruct failure as [error|]; cbn [accumulate streamMessage].
    + destruct (chunk_rejected_finishes marked_parse now b acc first error a)
        as (a' & E & _).
      pose proof (catch_ends (AwaitNextChunk b acc first) b error a C0 d) as H.
      rewrite E in *. cbn [snd] in *. apply H; eauto.
    + destruct (final_finishes marked_parse now b acc first a) as (a' & E & _).
      pose proof (final_nodes b acc first a) as H.
      rewrite E in *. cbn [snd] in *.
      rewrite Hc, (updated_last b _ C0 d H0) in H.
      eexists _, _. split; [exact H|]. cbn. rewrite Hr, He. repeat split.
  - cbn [map]. rewrite <- app_comm_cons. cbn [settleAll]. unfold bind.
    pose proof (chunk_nodes marked_parse now b acc first c a) as Hn.
    destruct (chunk_step marked_parse now b acc first c a)
      as (a1 & E & _ & N & _ & _ & _ & _ & _ & Ck & _).
    rewrite E in *. cbn [snd] in Hn. cbv beta iota.
    assert (Hc1 : exists d1,
      chatContainer a1 = (C0 ++ [(b, d1)])%list /\
      roleClass d1 = model /\ messageError d1 = false).
    { rewrite Hn, Hc.
      destruct (truthyOpt c), first;
        rewrite ?(updated_last b _ C0 _ H0); eexists; (split; [reflexivity|]);
        cbn; auto. }
    destruct Hc1 as (d1 & Hc1 & Hr1 & He1).
    pose proof (IH (if truthyOpt c then acc ++ valueOf c else acc) true a1 d1
                  Hc1 H0 Hr1 He1) as H.
    cbn [accumulate].
    unfold streamMessage, replyMessage, textError in *. now rewrite Ck in H.
Qed.

(** The node of the model when the request has ended. *)
Lemma request_ends (svc : Service) (p : Pending) (b : NodeRef) (a : App)
    (C0 : list (NodeRef * MessageDiv)) (d : MessageDiv) :
  (exists text, p = AwaitSendMessageStream b text)
  \/ (exists prompt, p = AwaitGenerateImages b prompt) ->
  chatContainer a = (C0 ++ [(b, d)])%list ->
  Forall (fun kd => fst kd <> b) C0 ->
  roleClass d = model ->
  messageError d = false ->
  endsAs marked_parse (forImage p)
    (snd (settleAll marked_parse now p (settlements svc p) a)) C0
    (outcomeMessage now svc p a).
Proof.
  intros Hp Hc H0 Hr He.
  destruct Hp as [[text ->] | [prompt ->]]; cbn [settlements outcomeMessage forImage].
  - destruct (sendMessageStream svc text) as [error | chunks failure];
      cbn [streamSettlements].
    + cbn [settleAll]. unfold bind.
      destruct (open_rejected_finishes marked_parse now b text error a)
        as (a' & E & _).
      pose proof (catch_ends (AwaitSendMessageStream b text) b error a C0 d) as H.
      rewrite E in *. cbn [snd] in *. apply H; eauto.
    + change (settleAll marked_parse now (AwaitSendMessageStream b text)
                (StreamOpened :: ?l) a)
        with (settleAll marked_parse now (AwaitNextChunk b "" false) l a).
      now apply (stream_ends b C0 chunks failure "" false a d).
  - cbn [settleAll]. unfold bind.
    destruct (generateImages svc prompt) as [error | response].
    + destruct (image_rejected_finishes marked_parse now b prompt error a)
        as (a' & E & _).
      destruct (image_rejected_nodes b prompt error a) as (f & Hf & Hd).
      rewrite E in *. cbn [snd] in *.
      rewrite Hc, (updated_last b f C0 d H0) in Hf.
      destruct (Hd d) as (I1 & I2 & I3 & I4).
      exists b, (f d). repeat split; auto; congruence.
    + destruct (image_response_finishes marked_parse now b prompt response a)
        as (a' & E & _).
      destruct (image_response_nodes b prompt response a) as (f & Hf & Hd).
      rewrite E in *. cbn [snd] in *.
      rewrite Hc, (updated_last b f C0 d H0) in Hf.
      destruct (Hd d) as (I1 & I2 & I3 & I4).
      exists b, (f d). repeat split; auto; try congruence.
      rewrite I3, He. reflexivity.
Qed.

(** The two nodes an accepted input puts on the page. *)
Lemma handleSendMessage_nodes (a : App) :
  truthyOpt API_KEY = true ->
  truthy (trim (messageInput_value a)) = true ->
  exists (bubble : MessageDiv) (a1 : App),
    handleSendMessage API_KEY marked_parse now a = (Some (requestOf a), a1) /\
    chatContainer a1 =
      (chatContainer a
         ++ [(nextRef a, bubbleOf marked_parse (userMessageOf now a));
             (S (nextRef a), bubble)])%list /\
    roleClass bubble = model /\
    messageError bubble = false.
Proof.
  intros HK HT. unfold handleSendMessage, requestOf. rewrite HK. cbn [negb].
  destruct a as [ls cc nr v d1 d2 st ab ch clk]. cbn [messageInput_value] in *.
  cbv beta zeta delta [bind get]. cbn [messageInput_value]. rewrite HT. cbn [negb].
  unfold bubbleOf, contentOf, userMessageOf. cbn [textContent truthyOpt valueOf isError
    messageInput_value clock].
  rewrite HT.
  destruct (classify (trim v)) as [imagePrompt | t];
    cbn; rewrite HT; cbn;
    eexists _, _; (split; [reflexivity|]); cbn;
    repeat split; rewrite <- ?app_assoc; reflexivity.
Qed.

Lemma outcomeMessage_role (svc : Service) (p : Pending) (a : App) :
  role (outcomeMessage now svc p a) = model.
Proof.
  destruct p as [b text | b acc first | b prompt]; cbn [outcomeMessage].
  - destruct (sendMessageStream svc text) as [error | chunks [error|]]; reflexivity.
  - reflexivity.
  - destruct (generateImages svc prompt) as [error | response]; [reflexivity|].
    unfold imageMessage.
    destruct (firstImageBytes response) as [error | [bytes|]]; reflexivity.
Qed.

(** A text reply is stored trimmed, and is not empty. *)
Lemma outcomeMessage_text (svc : Service) (p : Pending) (a : App) :
  kindOf (outcomeMessage now svc p a) = Some TextMessage ->
  exists acc,
    textContent (outcomeMessage now svc p a)
      = Some (orElse (trim acc) emptyResponseMarker).
Proof.
  destruct p as [b text | b acc first | b prompt]; cbn [outcomeMessage].
  - destruct (sendMessageStream svc text) as [error | chunks [error|]];
      cbn; try discriminate. eauto.
  - cbn. eauto.
  - destruct (generateImages svc prompt) as [error | response]; [discriminate|].
    unfold imageMessage.
    destruct (firstImageBytes response) as [error | [bytes|]]; discriminate.
Qed.

(** An accepted turn, with the node of the model it ends in. *)
Lemma turn_nodes (svc : Service) (a : App) :
  truthyOpt API_KEY = true ->
  blank (messageInput_value a) = false ->
  attached a ->
  exists (a1 a' : App),
    turn API_KEY marked_parse now svc a = (None, a') /\
    localStorage a' =
      Some (loadChatHistory a
              ++ [userMessageOf now a; outcomeMessage now svc (requestOf a) a1])%list /\
    endsAs marked_parse (forImage (requestOf a)) a'
      (chatContainer a
         ++ [(nextRef a, bubbleOf marked_parse (userMessageOf now a))])%list
      (outcomeMessage now svc (requestOf a) a1).
Proof.
  intros HK HB Hat.
  assert (HT : truthy (trim (messageInput_value a)) = true)
    by (now rewrite trim_truthy_blank, HB).
  destruct (turn_accepted API_KEY marked_parse now svc a HK HT)
    as (a1 & a' & Hsend & _ & Hturn & Hls & _).
  destruct (handleSendMessage_nodes a HK HT)
    as (bubble & a1' & Hsend' & Hc & Hr & He).
  rewrite Hsend in Hsend'. injection Hsend' as <-.
  exists a1, a'. split; [exact Hturn|]. split; [exact Hls|].
  assert (Ha' : a' = snd (settleAll marked_parse now (requestOf a)
                            (settlements svc (requestOf a)) a1)).
  { unfold turn, bind in Hturn. rewrite Hsend in Hturn. cbv beta iota in Hturn.
    now rewrite Hturn. }
  rewrite Ha'.
  apply (request_ends svc (requestOf a) (S (nextRef a)) a1 _ bubble).
  - unfold requestOf. destruct (classify _); eauto.
  - rewrite Hc, <- app_assoc. reflexivity.
  - apply Forall_app. split.
    + apply attached_other; [exact Hat | lia].
    + constructor; [cbn; unfold NodeRef in *; lia | constructor].
  - exact Hr.
  - exact He.
Qed.

End Endings.



(** X19. The node of the model at the end of an accepted turn, against the
    node a reload builds from the message that was stored for it.  The two
    are the same node for an image, for a text reply in which no fenced
    region is found, and for an error of a text request.  For an error of an
    image request they differ: the page shows the text of the error as it
    is, a reload shows it with [**Error:**] in front. *)
Theorem reload_repeats_what_was_shown
    (API_KEY : option string) (marked_parse : string -> option string)
    (now : nat -> Z) (svc : Service) (a : App) :
  truthyOpt API_KEY = true ->
  blank (messageInput_value a) = false ->
  attached a ->
  exists (m : StoredMessage) (a' : App) (C0 : list (NodeRef * MessageDiv))
         (r : NodeRef) (d : MessageDiv),
    turn API_KEY marked_parse now svc a = (None, a') /\
    localStorage a' = Some (loadChatHistory a ++ [userMessageOf now a; m])%list /\
    chatContainer a' = (C0 ++ [(r, d)])%list /\
    match kindOf m with
    | Some ImageMessage => d = bubbleOf marked_parse m
    | Some TextMessage =>
        ~ twoFences (valueOf (textContent m)) -> d = bubbleOf marked_parse m
    | Some ErrorMessage =>
        match classify (trim (messageInput_value a)) with
        | TextPath _ => d = bubbleOf marked_parse m
        | ImagePath _ =>
            exists text,
              textContent m = Some text /\
              childNodes d =
                [MarkdownContent true (Markdown.parseMarkdown marked_parse text)] /\
              childNodes (bubbleOf marked_parse m) =
                [MarkdownContent true
                   (Markdown.parseMarkdown marked_parse ("**Error:** " ++ text))]
        end
    | None => False
    end.
Proof.
  intros HK HB Hat.
  destruct (turn_nodes API_KEY marked_parse now svc a HK HB Hat)
    as (a1 & a' & Hturn & Hls & r & d & C & I1 & I2 & I3 & I4).
  set (m := outcomeMessage now svc (requestOf a) a1) in *.
  exists m, a',
    (chatContainer a ++ [(nextRef a, bubbleOf marked_parse (userMessageOf now a))])%list,
    r, d.
  split; [exact Hturn|]. split; [exact Hls|]. split; [exact C|].
  pose proof (outcomeMessage_role now svc (requestOf a) a1) as Hrole. fold m in Hrole.
  assert (Hsame : childNodes d = contentOf marked_parse m -> d = bubbleOf marked_parse m).
  { intros Hch. unfold bubbleOf, withChildren, createMessageDiv. cbn.
    rewrite <- I1, <- I3, <- Hch, Hrole, <- I2. now destruct d. }
  unfold shownLive in I4.
  destruct (kindOf m) as [[| |]|] eqn:K.
  - intros Hno. apply Hsame. rewrite I4.
    destruct (outcomeMessage_text now svc (requestOf a) a1 K) as [acc T].
    fold m in T. rewrite T in *. cbn [valueOf] in *.
    destruct (reply_text_trimmed acc) as [Ht He].
    unfold displayAIResponse.
    rewrite (FenceScan.unclosed_is_prose _ Hno), (fallbackText_trimmed _ Ht He).
    unfold contentOf. rewrite T. cbn [truthyOpt valueOf]. rewrite Ht.
    assert (E : isError m = false).
    { unfold kindOf in K. destruct (isError m), (textContent m), (imageUrl m);
        congruence. }
    rewrite E. reflexivity.
  - apply Hsame, I4.
  - assert (HI : forImage (requestOf a)
                 = match classify (trim (messageInput_value a)) with
                   | ImagePath _ => true
                   | TextPath _ => false
                   end)
      by (unfold requestOf; now destruct (classify _)).
    rewrite HI in I4.
    destruct (classify (trim (messageInput_value a))) as [imagePrompt | t].
    + destruct (outcomeMessage_error now svc (requestOf a) a1 HI K) as (X & T & HX).
      fold m in T. exists X. rewrite T in I4. cbn [valueOf] in I4.
      repeat split; [exact T | exact I4 |].
      unfold bubbleOf, withChildren, contentOf. cbn. rewrite T. cbn. rewrite HX.
      assert (E : isError m = true).
      { unfold kindOf in K. destruct (isError m), (textContent m), (imageUrl m);
          congruence. }
      rewrite E. reflexivity.
    + apply Hsame, I4.
  - destruct (outcomeMessage_kind now svc (requestOf a) a1) as [k Hk].
    fold m in Hk. congruence.
Qed.

Lemma reload_repeats_what_was_shown_witness :
  exists (m : StoredMessage) (a' : App) (C0 : list (NodeRef * MessageDiv))
         (r : NodeRef) (d : MessageDiv),
    turn key0 marked0 now0 svc0 page_picture = (None, a') /\
    chatContainer a' = (C0 ++ [(r, d)])%list /\
    childNodes d =
      [MarkdownContent true
         "Sorry, I could not generate an image. The image data might be missing."] /\
    childNodes (bubbleOf marked0 m) =
      [MarkdownContent true
         "**Error:** Sorry, I could not generate an image. The image data might be missing."].
Proof.
  destruct (reload_repeats_what_was_shown key0 marked0 now0 svc0 page_picture)
    as (m & a' & C0 & r & d & H1 & H2 & H3 & H4).
  - reflexivity.
  - reflexivity.
  - vm_compute. constructor.
  - exists m, a', C0, r, d.
    assert (Ha : a' = snd (turn key0 marked0 now0 svc0 page_picture))
      by (now rewrite H1).
    split; [exact H1|]. split; [exact H3|].
    rewrite Ha in H2. vm_compute in H2. injection H2 as Hm. subst m.
    assert (Hc : classify (trim (messageInput_value page_picture)) = ImagePath "a cat")
      by (vm_compute; reflexivity).
    rewrite Hc in H4. cbn [kindOf isError textContent imageUrl] in H4.
    destruct H4 as (text & T & Hd & Hb). injection T as <-.
    split; [rewrite Hd | rewrite Hb]; vm_compute; reflexivity.
Defined.

End TurnNodes.

(** ** The status line *)

Module StatusFacts.

Import JS JSFacts StringFacts ControllerFacts TurnFacts SubmitFacts HistoryFacts NodeFacts.
Local Open Scope string_scope.
Local Open Scope nat_scope.

#[local] Opaque Markdown.parseMarkdown showZ Segmenter.formatAndDisplayAIResponse
  JS.trim String.append.

Section WithPage.

Variable API_KEY : option string.
Variable marked_parse : string -> option string.
Variable now : nat -> Z.

(** What [handleSendMessage] does to the status line. *)
Lemma handleSendMessage_status (a : App) :
  match fst (handleSendMessage API_KEY marked_parse now a) with
  | Some p =>
      statusMessage (snd (handleSendMessage API_KEY marked_parse now a))
        = Some (statusOf p) /\
      ariaBusy (snd (handleSendMessage API_KEY marked_parse now a)) = true
  | None =>
      statusMessage (snd (handleSendMessage API_KEY marked_parse now a))
        = statusMessage a /\
      ariaBusy (snd (handleSendMessage API_KEY marked_parse now a)) = ariaBusy a
  end.
Proof.
  unfold handleSendMessage.
  destruct (truthyOpt API_KEY); cbn [negb].
  - destruct a as [ls cc nr v d1 d2 st ab ch clk].
    cbv beta zeta delta [bind get]. cbn [messageInput_value].
    destruct (truthy (trim v)) eqn:HT; cbn [negb]; [|cbn; auto].
    destruct (classify (trim v)) as [imagePrompt | t]; cbn; rewrite ?HT; cbn; auto.
  - destruct a; cbn. auto.
Qed.

(** What a settlement does to the status line. *)
Lemma resume_status (p : Pending) (r : Settled) (a : App) :
  answers p r = true ->
  match fst (resume marked_parse now p r a) with
  | Some p' =>
      statusOf p' = statusOf p /\
      statusMessage (snd (resume marked_parse now p r a)) = statusMessage a /\
      ariaBusy (snd (resume marked_parse now p r a)) = ariaBusy a
  | None =>
      statusMessage (snd (resume marked_parse now p r a)) = None /\
      ariaBusy (snd (resume marked_parse now p r a)) = false
  end.
Proof.
  destruct a as [ls cc nr v d1 d2 st ab ch clk].
  destruct p as [b text | b acc first | b prompt], r as [| c | | response | error];
    cbn [answers]; try discriminate; intros _.
  - cbn. auto.
  - unfold resume, handleTextMessage_catch, bind, get, contains. cbn.
    destruct (existsb (fun kd => fst kd =? b) cc); cbn; auto.
  - unfold resume, handleTextMessage_chunk, bind, updateNode, modify, ret.
    destruct c as [[|ch0 t]|], first; cbn; auto.
  - cbn. auto.
  - unfold resume, handleTextMessage_catch, bind, get, contains. cbn.
    destruct (existsb (fun kd => fst kd =? b) cc); cbn; auto.
  - unfold resume, handleImageGeneration_response, bind. cbn.
    destruct (firstImageBytes response) as [error | [bytes|]]; cbn; auto.
  - cbn. auto.
Qed.

Lemma step_statusShown (w w' : World) :
  reachable API_KEY marked_parse now w ->
  statusShown w -> step API_KEY marked_parse now w w' -> statusShown w'.
Proof.
  intros Hr Inv Hstep.
  pose proof (reachable_serialized API_KEY marked_parse now w Hr) as Ser.
  destruct Hstep as [w value Hen | w Hen | w Hen | w | w before after p r Hp Hans].
  - unfold statusShown in *. cbn [app pendings].
    destruct (pendings w) as [|p [|q ps]]; destruct (app w); exact Inv.
  - destruct Ser as [(P & _) | (p & _ & _ & D2 & _)]; [|congruence].
    unfold statusShown in *. rewrite P in Inv. cbn [app pendings]. rewrite P.
    pose proof (handleSendMessage_status (app w)) as F.
    destruct (fst (handleSendMessage API_KEY marked_parse now (app w))) as [q|];
      cbn [started app pendings Datatypes.app].
    + exact F.
    + destruct F as [-> ->]. exact Inv.
  - destruct Ser as [(P & _) | (p & _ & D1 & _)]; [|congruence].
    unfold statusShown in *. rewrite P in Inv. cbn [app pendings]. rewrite P.
    pose proof (handleSendMessage_status (app w)) as F.
    destruct (fst (handleSendMessage API_KEY marked_parse now (app w))) as [q|];
      cbn [started app pendings Datatypes.app].
    + exact F.
    + destruct F as [-> ->]. exact Inv.
  - destruct (clearChat_page marked_parse now (app w))
      as (_ & _ & _ & _ & _ & _ & _ & _ & St & Ab).
    unfold statusShown in *. cbn [app pendings]. rewrite St, Ab. exact Inv.
  - destruct Ser as [(P & _) | (q & P & _)].
    + rewrite P in Hp. destruct before; discriminate.
    + rewrite P in Hp.
      assert (before = [] /\ after = [] /\ q = p) as (-> & -> & ->).
      { destruct before as [|x before]; cbn in Hp.
        - injection Hp as -> <-. auto.
        - injection Hp as _ Hp. destruct before; discriminate. }
      unfold statusShown in *. rewrite P in Inv. cbn [app pendings].
      pose proof (resume_status p r (app w) Hans) as F.
      destruct (fst (resume marked_parse now p r (app w))) as [p'|];
        cbn [started app pendings Datatypes.app].
      * destruct F as (Hs & -> & ->). rewrite Hs. exact Inv.
      * exact F.
Qed.

Lemma reachable_statusShown (w : World) :
  reachable API_KEY marked_parse now w -> statusShown w.
Proof.
  induction 1 as [storage value | w w' Hr IH Hstep].
  - unfold statusShown. cbn [pendings app].
    destruct (loaded_nodes API_KEY marked_parse now storage value)
      as (_ & _ & _ & St & _ & Ab).
    split; assumption.
  - eapply step_statusShown; eauto.
Qed.

End WithPage.

(** X17. On every page that can be reached, the status line and [aria-busy]
    follow the request: with no request on its way the line is hidden and
    nothing is marked busy; with a request on its way the line reads
    [Generating image...] for an image request and [AI is thinking...] for a
    text request, from the submit to the end of the turn. *)
Theorem status_line_follows_the_request
    (API_KEY : option string) (marked_parse : string -> option string)
    (now : nat -> Z) (w : World) :
  reachable API_KEY marked_parse now w ->
  match pendings w with
  | [] => statusMessage (app w) = None /\ ariaBusy (app w) = false
  | [p] => statusMessage (app w) = Some (statusOf p) /\ ariaBusy (app w) = true
  | _ => False
  end.
Proof. apply reachable_statusShown. Qed.

Lemma status_line_follows_the_request_witness :
  statusMessage (app busy0) = Some "AI is thinking..." /\ ariaBusy (app busy0) = true.
Proof.
  exact (status_line_follows_the_request key0 marked0 now0 busy0
           ControllerClaims.busy0_reachable).
Defined.


(** *** The references of the nodes *)

Section References.

Variable API_KEY : option string.
Variable marked_parse : string -> option string.
Variable now : nat -> Z.

Lemma attached_refs (a : App) :
  attached a <-> Forall (fun k => k < nextRef a) (map fst (chatContainer a)).
Proof. unfold attached. now rewrite Forall_map. Qed.

Lemma map_fst_updated (b : NodeRef) (f : MessageDiv -> MessageDiv)
    (l : list (NodeRef * MessageDiv)) :
  map fst (updated b f l) = map fst l.
Proof. apply map_fst_update. Qed.

Lemma attached_grows (a a' : App) (l : list NodeRef) :
  attached a ->
  incl l (map fst (chatContainer a)) ->
  (map fst (chatContainer a') = l /\ nextRef a <= nextRef a'
   \/ map fst (chatContainer a') = (l ++ [nextRef a])%list /\ nextRef a < nextRef a'
   \/ map fst (chatContainer a') = (l ++ [nextRef a; S (nextRef a)])%list
      /\ S (nextRef a) < nextRef a') ->
  attached a'.
Proof.
  intros Hat Hl H. apply attached_refs. apply attached_refs in Hat.
  rewrite Forall_forall in Hat.
  assert (Hold : Forall (fun k => k < nextRef a) l).
  { apply Forall_forall. intros k Hk. apply Hat. now apply Hl. }
  destruct H as [[-> Hn] | [[-> Hn] | [-> Hn]]]; rewrite ?Forall_app; repeat split;
    try (eapply Forall_impl; [|exact Hold]; intros k Hk; cbn in Hk;
         unfold NodeRef in *; lia);
    repeat constructor; unfold NodeRef in *; lia.
Qed.

Lemma incl_without (b : NodeRef) (l : list (NodeRef * MessageDiv)) :
  incl (map fst (without b l)) (map fst l).
Proof.
  unfold without. intros k Hk. apply in_map_iff in Hk as ([k' d] & <- & Hin).
  apply filter_In in Hin as [Hin _]. apply in_map_iff. now exists (k', d).
Qed.

Lemma handleSendMessage_attached (a : App) :
  attached a -> attached (snd (handleSendMessage API_KEY marked_parse now a)).
Proof.
  intros Hat.
  apply (attached_grows a _ (map fst (chatContainer a)) Hat (incl_refl _)).
  unfold handleSendMessage.
  destruct (truthyOpt API_KEY); cbn [negb].
  - destruct a as [ls cc nr v d1 d2 st ab ch clk].
    cbv beta zeta delta [bind get]. cbn [messageInput_value].
    destruct (truthy (trim v)) eqn:HT; cbn [negb]; [|left; cbn; auto].
    right. right.
    destruct (classify (trim v)) as [imagePrompt | t]; cbn; rewrite ?HT; cbn;
      rewrite <- app_assoc, map_app; cbn; auto.
  - right. left. destruct a; cbn. rewrite map_app. cbn. auto.
Qed.

Lemma resume_attached (p : Pending) (r : Settled) (a : App) :
  answers p r = true ->
  attached a -> attached (snd (resume marked_parse now p r a)).
Proof.
  intros Hans Hat.
  destruct p as [b text | b acc first | b prompt], r as [| c | | response | error];
    cbn [answers] in Hans; try discriminate.
  - exact Hat.
  - apply (attached_grows a _ (map fst (without b (chatContainer a))) Hat
             (incl_without b _)).
    right. left.
    rewrite (TurnNodes.catch_nodes marked_parse now _ b error a) by eauto.
    rewrite map_app. split; [reflexivity|].
    destruct a; unfold resume, handleTextMessage_catch, bind, get, contains; cbn.
    destruct (existsb _ _); cbn; lia.
  - destruct (chunk_step marked_parse now b acc first c a)
      as (a' & -> & _ & N & _ & _ & _ & _ & _ & _ & F).
    cbn [snd]. apply attached_refs. rewrite F, N. now apply attached_refs.
  - apply (attached_grows a _ (map fst (chatContainer a)) Hat (incl_refl _)).
    left. rewrite (TurnNodes.final_nodes marked_parse now b acc first a).
    rewrite map_fst_updated. split; [reflexivity|]. destruct a; cbn. lia.
  - apply (attached_grows a _ (map fst (without b (chatContainer a))) Hat
             (incl_without b _)).
    right. left.
    rewrite (TurnNodes.catch_nodes marked_parse now _ b error a) by eauto.
    rewrite map_app. split; [reflexivity|].
    destruct a; unfold resume, handleTextMessage_catch, bind, get, contains; cbn.
    destruct (existsb _ _); cbn; lia.
  - apply (attached_grows a _ (map fst (chatContainer a)) Hat (incl_refl _)).
    left.
    destruct (TurnNodes.image_response_nodes marked_parse now b prompt response a)
      as (f & -> & _).
    rewrite map_fst_updated. split; [reflexivity|].
    destruct a; unfold resume, handleImageGeneration_response, bind; cbn.
    destruct (firstImageBytes response) as [e | [bytes|]]; cbn; lia.
  - apply (attached_grows a _ (map fst (chatContainer a)) Hat (incl_refl _)).
    left.
    destruct (TurnNodes.image_rejected_nodes marked_parse now b prompt error a)
      as (f & -> & _).
    rewrite map_fst_updated. split; [reflexivity|]. destruct a; cbn. lia.
Qed.

(** On every page that can be reached, the nodes have references that were
    given out. *)
Lemma reachable_attached (w : World) :
  reachable API_KEY marked_parse now w -> attached (app w).
Proof.
  induction 1 as [storage value | w w' Hr IH Hstep].
  - cbn [app]. apply (loaded_nodes API_KEY marked_parse now storage value).
  - destruct Hstep as [w value Hen | w Hen | w Hen | w | w before after p r Hp Hans];
      cbn [app].
    + destruct (app w); exact IH.
    + now apply handleSendMessage_attached.
    + now apply handleSendMessage_attached.
    + destruct (clearChat_page marked_parse now (app w)) as (_ & _ & C & N & _).
      unfold attached. rewrite C, N. repeat constructor.
    + now apply resume_attached.
Qed.

End References.

End StatusFacts.

(** ** The two versions of the segmenter *)

Module VersionFacts.

Import JS JSFacts StringFacts RegExp Segmenter SegmenterFacts.
Local Open Scope string_scope.
Local Open Scope nat_scope.

Lemma loopBody_ofLocals (fullText : string) (m : Match) (l : Segmenter.Locals) :
  V1.loopBody fullText m (V1.ofLocals l) = V1.ofLocals (loopBody fullText m l).
Proof.
  unfold V1.loopBody, loopBody, V1.appendTextBefore, appendTextBefore,
    V1.appendCodeBlock, appendCodeBlock, V1.ofLocals.
  cbn [V1.lastIndex V1.children V1.contentAdded].
  destruct (lastIndex l <? index m);
    [destruct (truthy (trim (substring (lastIndex l) (index m) fullText)))|];
    cbn [lastIndex children contentAdded V1.lastIndex V1.children V1.contentAdded];
    destruct (truthy (codeContentOf fullText m));
    cbn [lastIndex children contentAdded V1.lastIndex V1.children V1.contentAdded];
    rewrite ?map_app; reflexivity.
Qed.

Lemma whileLoop_ofLocals (fuel : nat) (fullText : string) :
  forall l : Segmenter.Locals,
    V1.whileLoop fuel fullText (V1.ofLocals l)
      = option_map V1.ofLocals (whileLoop fuel fullText l).
Proof.
  induction fuel as [|fuel IH]; intros l; simpl;
    destruct (codeBlockRegex_exec fullText (lastIndex l)) as [m|]; try reflexivity.
  rewrite loopBody_ofLocals. apply IH.
Qed.

Lemma appendTextAfter_ofLocals (fullText : string) (l : Segmenter.Locals) :
  V1.appendTextAfter fullText (V1.ofLocals l)
    = V1.ofLocals (appendTextAfter fullText l).
Proof.
  unfold V1.appendTextAfter, appendTextAfter, V1.ofLocals.
  cbn [V1.lastIndex V1.children V1.contentAdded].
  destruct (lastIndex l <? String.length fullText);
    [destruct (truthy (trim (substringFrom (lastIndex l) fullText)))|];
    cbn [lastIndex children contentAdded]; rewrite ?map_app; reflexivity.
Qed.

(** X18. The first version of [formatAndDisplayAIResponse] cuts a text as the
    later one does: on a text that is not blank it appends a paragraph where
    the later version has a prose segment and a [pre] where it has a code
    segment, with the same texts, languages and contents in the same order.
    On a blank text it shows the bare marker, set in italics, where the
    later version shows the marker in italics markup. *)
Theorem first_version_cuts_alike (fullText : string) :
  (blank fullText = false ->
   V1.formatAndDisplayAIResponse fullText
     = option_map (map V1.ofSegment) (formatAndDisplayAIResponse fullText)) /\
  (blank fullText = true ->
   V1.formatAndDisplayAIResponse fullText
     = Some [V1.Paragraph "[AI gave an empty response]" true] /\
   formatAndDisplayAIResponse fullText
     = Some [Prose "<i>[AI gave an empty response]</i>"]).
Proof.
  assert (Hrun : V1.formatAndDisplayAIResponse fullText
    = match whileLoop (String.length fullText) fullText (mkLocals 0 [] false) with
      | None => None
      | Some l =>
          Some (V1.children
                  (V1.appendFallback fullText
                     (V1.ofLocals (appendTextAfter fullText l))))
      end).
  { unfold V1.formatAndDisplayAIResponse.
    change (V1.mkLocals 0 [] false) with (V1.ofLocals (mkLocals 0 [] false)).
    rewrite whileLoop_ofLocals.
    destruct (whileLoop (String.length fullText) fullText (mkLocals 0 [] false));
      cbn [option_map]; [|reflexivity].
    now rewrite appendTextAfter_ofLocals. }
  split.
  - intros B. rewrite Hrun. unfold formatAndDisplayAIResponse.
    destruct (whileLoop (String.length fullText) fullText (mkLocals 0 [] false))
      as [l|]; [|reflexivity].
    cbn [option_map]. f_equal.
    unfold V1.appendFallback, appendFallback, V1.ofLocals.
    cbn [V1.contentAdded V1.children V1.lastIndex].
    destruct (contentAdded (appendTextAfter fullText l)); cbn [negb]; [reflexivity|].
    cbn [children V1.children]. rewrite map_app. f_equal.
    assert (T : truthy (trim fullText) = true)
      by (rewrite trim_truthy_blank, B; reflexivity).
    destruct (trim fullText); [discriminate | reflexivity].
  - intros B.
    assert (Hw : whileLoop (String.length fullText) fullText (mkLocals 0 [] false)
                 = Some (mkLocals 0 [] false)).
    { destruct (String.length fullText); simpl;
        rewrite (blank_no_match fullText 0 B); reflexivity. }
    assert (Ha : appendTextAfter fullText (mkLocals 0 [] false) = mkLocals 0 [] false).
    { unfold appendTextAfter. cbn [lastIndex]. unfold substringFrom. cbn [drop].
      rewrite (trim_blank fullText B).
      destruct (0 <? String.length fullText); reflexivity. }
    split.
    + rewrite Hrun, Hw, Ha. unfold V1.appendFallback, V1.ofLocals.
      cbn [V1.contentAdded V1.children V1.lastIndex contentAdded children lastIndex
           negb map].
      now rewrite (trim_blank fullText B).
    + unfold formatAndDisplayAIResponse. rewrite Hw, Ha. unfold appendFallback.
      cbn [contentAdded children lastIndex negb].
      now rewrite (trim_blank fullText B).
Qed.

Lemma first_version_cuts_alike_witness :
  V1.formatAndDisplayAIResponse SegmenterSpec.ex_spec
    = Some [V1.Paragraph "Here:" false; V1.PreBlock "js" "console.log(1)";
            V1.Paragraph "done" false].
Proof.
  rewrite (proj1 (first_version_cuts_alike SegmenterSpec.ex_spec)) by reflexivity.
  vm_compute. reflexivity.
Defined.

End VersionFacts.
